(** * Projective coordinates from persistent cohomology

    A shallow embedding of the numerical core of [ProjectiveCoordinates.py]
    (furthest-point landmark sampling, cover radius, partition of unity,
    classifying map, principal projective component analysis) and of its
    later revision [dreimac/ProjectiveCoordinates.py].

    Arrays are lists (matrices are lists of rows; a matrix without rows
    does not record its width).  A [float64] is read as a real number, or
    as one of the three special values [+inf], [-inf], [nan].  Rounding is
    modelled where it decides an outcome, in [getCSM], through the
    parameters [float_ops]; elsewhere arithmetic is exact.  Python
    exceptions are the [Raise] outcomes of the [result] type. *)

From Stdlib Require Import Reals Lra Lia.
From stdpp Require Import base list.

Open Scope R_scope.

(** ** Python exceptions *)

Inductive pyerr : Type :=
| IndexError
| ValueError
| AttributeError
| ZeroDivisionError
| UnboundLocalError
| LinAlgError.

Inductive result (A : Type) : Type :=
| Ok (a : A)
| Raise (e : pyerr).

Arguments Ok {A} a.
Arguments Raise {A} e.

Definition bind {A B : Type} (r : result A) (k : A -> result B) : result B :=
  match r with
  | Ok a => k a
  | Raise e => Raise e
  end.

Notation "x <- r ;; k" := (bind r (fun x => k))
  (at level 100, r at next level, right associativity).

(** [l[i]] with a non-negative index: out of range raises [IndexError]. *)
Definition index {A : Type} (l : list A) (i : nat) : result A :=
  match l !! i with
  | Some a => Ok a
  | None => Raise IndexError
  end.

(** ** Vectors and matrices of reals *)

Definition Rltb (a b : R) : bool := if Rlt_dec a b then true else false.

Arguments Rltb : simpl never.

Definition sum_list (l : list R) : R := foldr Rplus 0 l.

Definition dot (u v : list R) : R := sum_list (zip_with Rmult u v).

(** [np.minimum(u, v)] on two rows of one array. *)
Definition minimum (u v : list R) : list R := zip_with Rmin u v.

(** [np.argmax]: the first index holding the maximum; an empty array
    raises [ValueError]. *)
Fixpoint argmax_from (best : R) (bi i : nat) (l : list R) : nat :=
  match l with
  | [] => bi
  | x :: l' =>
      if Rltb best x then argmax_from x i (S i) l'
      else argmax_from best bi (S i) l'
  end.

Definition argmax (l : list R) : result nat :=
  match l with
  | [] => Raise ValueError
  | x :: l' => Ok (argmax_from x 0%nat 1%nat l')
  end.

(** [np.max] and [np.min] of a one-dimensional array. *)
Definition amax (l : list R) : result R :=
  match l with
  | [] => Raise ValueError
  | x :: l' => Ok (foldl Rmax x l')
  end.

Definition amin (l : list R) : result R :=
  match l with
  | [] => Raise ValueError
  | x :: l' => Ok (foldl Rmin x l')
  end.

(** Monadic map and left fold. *)
Fixpoint mapR {A B : Type} (f : A -> result B) (l : list A) : result (list B) :=
  match l with
  | [] => Ok []
  | a :: l' => b <- f a ;; bs <- mapR f l' ;; Ok (b :: bs)
  end.

Fixpoint foldR {A S : Type} (f : S -> A -> result S) (s : S) (l : list A)
  : result S :=
  match l with
  | [] => Ok s
  | a :: l' => s' <- f s a ;; foldR f s' l'
  end.

(** ** Furthest-point landmark sampling *)

(** What numpy computes in floating point inside [getCSM]: the rounding
    of a real number to a [float64], [np.sum] of a vector, and the entry
    [(i, j)] of the matrix product [X.dot(Y.T)].  These are parameters:
    the order of the additions, and so the rounding, is numpy's and not
    this program's. *)
Record float_ops : Type := FloatOps {
  rnd : R -> R;
  np_sum : list R -> R;
  dot_T : list (list R) -> list (list R) -> nat -> nat -> R
}.

(** Arithmetic without rounding. *)
Definition exact_ops : float_ops :=
  {| rnd := fun x => x;
     np_sum := sum_list;
     dot_T := fun X Y i j => dot (nth i X []) (nth j Y []) |}.

Definition ncols {A : Type} (m : list (list A)) : nat :=
  match m with
  | [] => 0%nat
  | r :: _ => length r
  end.

(** [getCSM(X, Y)]: Euclidean cross-distances by the squared-norm expansion,
    negative values clamped to zero before the square root.  [X.dot(Y.T)]
    raises [ValueError] when the points of [X] and of [Y] have different
    dimensions. *)
Definition getCSM (fo : float_ops) (X Y : list (list R))
  : result (list (list R)) :=
  if (ncols X =? ncols Y)%nat then
    let sx := map (fun x => np_sum fo (map (fun a => rnd fo (a * a)) x)) X in
    let sy := map (fun y => np_sum fo (map (fun a => rnd fo (a * a)) y)) Y in
    Ok (map (fun i =>
               map (fun j =>
                      let C := rnd fo (rnd fo (nth i sx 0 + nth j sy 0)
                                       - rnd fo (2 * dot_T fo X Y i j)) in
                      rnd fo (sqrt (if Rltb C 0 then 0 else C)))
                   (seq 0 (length Y)))
            (seq 0 (length X)))
  else Raise ValueError.

(** The progress report under [if verbose:] in the loops of the samplers
    and of the first [PPCA]: [interval = int(0.05 * total)], then
    [i % interval], which raises [ZeroDivisionError] when [total < 20];
    the printing itself changes nothing.  ([int(0.05 * total)] is the
    integer quotient of [total] by 20.) *)
Definition report_progress (verbose : bool) (total : nat) : result unit :=
  if verbose then
    if (total / 20 =? 0)%nat then Raise ZeroDivisionError else Ok tt
  else Ok tt.

Record greedy_state : Type := GreedyState {
  gs_perm : list nat;
  gs_lambdas : list R;
  gs_ds : list R;
  gs_D : list (list R)
}.

Record greedy_perm_euclidean : Type := GreedyPermEuclidean {
  ge_Y : list (list R);
  ge_perm : list nat;
  ge_lambdas : list R;
  ge_D : list (list R)
}.

Record greedy_perm_dm : Type := GreedyPermDM {
  gd_perm : list nat;
  gd_lambdas : list R;
  gd_DLandmarks : list (list R)
}.

(** The body of the loop of [getGreedyPermDM] at index [i]. *)
Definition greedy_dm_body (D : list (list R)) (M : nat) (verbose : bool)
  (st : greedy_state) (i : nat) : result greedy_state :=
  idx <- argmax (gs_ds st) ;;
  lam <- index (gs_ds st) idx ;;
  row <- index D idx ;;
  _ <- report_progress verbose M ;;
  Ok {| gs_perm := <[i := idx]> (gs_perm st);
        gs_lambdas := <[i := lam]> (gs_lambdas st);
        gs_ds := minimum (gs_ds st) row;
        gs_D := gs_D st |}.

Definition getGreedyPermDM (D : list (list R)) (M : nat) (verbose : bool)
  : result greedy_perm_dm :=
  ds <- index D 0%nat ;;
  st <- foldR (greedy_dm_body D M verbose)
          {| gs_perm := replicate M 0%nat;
             gs_lambdas := replicate M 0;
             gs_ds := ds;
             gs_D := [] |}
          (seq 1 (M - 1)) ;;
  DLandmarks <- mapR (index D) (gs_perm st) ;;
  Ok {| gd_perm := gs_perm st;
        gd_lambdas := gs_lambdas st;
        gd_DLandmarks := DLandmarks |}.

(** [getCSM(X[idx, :][None, :], X).flatten()]: the distances from point
    [idx] to all points, as the Euclidean sampler computes them. *)
Definition distances_from (fo : float_ops) (X : list (list R)) (idx : nat)
  : result (list R) :=
  x <- index X idx ;;
  C <- getCSM fo [x] X ;;
  Ok (concat C).

(** The body of the loop of [getGreedyPermEuclidean] at index [i]. *)
Definition greedy_euclidean_body (fo : float_ops) (X : list (list R))
  (M : nat) (verbose : bool) (st : greedy_state) (i : nat)
  : result greedy_state :=
  idx <- argmax (gs_ds st) ;;
  lam <- index (gs_ds st) idx ;;
  thisds <- distances_from fo X idx ;;
  _ <- report_progress verbose M ;;
  Ok {| gs_perm := <[i := idx]> (gs_perm st);
        gs_lambdas := <[i := lam]> (gs_lambdas st);
        gs_ds := minimum (gs_ds st) thisds;
        gs_D := <[i := thisds]> (gs_D st) |}.

Definition getGreedyPermEuclidean (fo : float_ops) (X : list (list R))
  (M : nat) (verbose : bool) : result greedy_perm_euclidean :=
  let N := length X in
  ds <- distances_from fo X 0 ;;
  D0 <- (match M with
         | O => Raise IndexError
         | S _ => Ok (<[0%nat := ds]> (replicate M (replicate N 0)))
         end) ;;
  st <- foldR (greedy_euclidean_body fo X M verbose)
          {| gs_perm := replicate M 0%nat;
             gs_lambdas := replicate M 0;
             gs_ds := ds;
             gs_D := D0 |}
          (seq 1 (M - 1)) ;;
  Y <- mapR (index X) (gs_perm st) ;;
  Ok {| ge_Y := Y;
        ge_perm := gs_perm st;
        ge_lambdas := gs_lambdas st;
        ge_D := gs_D st |}.

(** ** Floating-point values with infinities and NaN *)

Inductive float64 : Type :=
| Fin (r : R)
| PInf
| NInf
| NaN.

Definition fneg (x : float64) : float64 :=
  match x with
  | Fin r => Fin (- r)
  | PInf => NInf
  | NInf => PInf
  | NaN => NaN
  end.

Definition fadd (x y : float64) : float64 :=
  match x, y with
  | Fin a, Fin b => Fin (a + b)
  | NaN, _ | _, NaN => NaN
  | PInf, NInf | NInf, PInf => NaN
  | PInf, _ | _, PInf => PInf
  | NInf, _ | _, NInf => NInf
  end.

Definition fsub (x y : float64) : float64 := fadd x (fneg y).

(** [r * x] for an infinite [x]. *)
Definition scale_inf (r : R) (x : float64) : float64 :=
  if Rltb 0 r then x else if Rltb r 0 then fneg x else NaN.

Definition fmul (x y : float64) : float64 :=
  match x, y with
  | Fin a, Fin b => Fin (a * b)
  | NaN, _ | _, NaN => NaN
  | Fin a, _ => scale_inf a y
  | _, Fin b => scale_inf b x
  | PInf, PInf | NInf, NInf => PInf
  | PInf, NInf | NInf, PInf => NInf
  end.

(** Division as numpy does it: a zero divisor gives an infinity, or NaN
    for [0/0]; nothing is raised.  Zero is unsigned here (the divisors of
    this program are sums and square roots, never [-0.0]). *)
Definition fdiv (x y : float64) : float64 :=
  match x, y with
  | Fin a, Fin b =>
      if Req_dec_T b 0
      then (if Rltb 0 a then PInf else if Rltb a 0 then NInf else NaN)
      else Fin (a / b)
  | NaN, _ | _, NaN => NaN
  | Fin _, _ => Fin 0
  | _, Fin b => if Rltb b 0 then fneg x else x
  | _, _ => NaN
  end.

(** [np.sqrt]: NaN on a negative argument. *)
Definition fsqrt (x : float64) : float64 :=
  match x with
  | Fin a => if Rltb a 0 then NaN else Fin (sqrt a)
  | PInf => PInf
  | NInf => NaN
  | NaN => NaN
  end.

Definition fabs (x : float64) : float64 :=
  match x with
  | Fin a => Fin (Rabs a)
  | PInf | NInf => PInf
  | NaN => NaN
  end.

(** [np.arccos] on reals: NaN outside [[-1, 1]] ([np.real] then changes
    nothing). *)
Definition farccos (x : float64) : float64 :=
  match x with
  | Fin a => if Rltb a (-1) then NaN else if Rltb 1 a then NaN else Fin (acos a)
  | _ => NaN
  end.

(** [x < y]: false as soon as one side is NaN. *)
Definition fltb (x y : float64) : bool :=
  match x, y with
  | Fin a, Fin b => Rltb a b
  | NaN, _ | _, NaN => false
  | _, NInf => false
  | PInf, _ => false
  | _, _ => true
  end.

(** The builtins [max(a, b)] and [min(a, b)]: the first argument unless
    the second is strictly better. *)
Definition py_max (a b : float64) : float64 := if fltb a b then b else a.
Definition py_min (a b : float64) : float64 := if fltb b a then b else a.

Definition fsum (l : list float64) : float64 := foldr fadd (Fin 0) l.

Definition fdot (u v : list float64) : float64 := fsum (zip_with fmul u v).

(** [np.mean] of a one-dimensional array. *)
Definition fmean (l : list float64) : float64 :=
  fdiv (fsum l) (Fin (INR (length l))).

(** ** Matrices as lists of rows *)

(** Column [j]: [m[:, j]]. *)
Definition col {A : Type} (j : nat) (m : list (list A)) : list A :=
  omap (fun r : list A => r !! j) m.

(** [m.T]. *)
Definition transpose {A : Type} (m : list (list A)) : list (list A) :=
  map (fun j => col j m) (seq 0 (ncols m)).

(** [A.dot(B)]. *)
Definition matmul (A B : list (list float64)) : list (list float64) :=
  map (fun a => map (fun j => fdot a (col j B)) (seq 0 (ncols B))) A.

(** [np.fliplr]. *)
Definition fliplr {A : Type} (m : list (list A)) : list (list A) :=
  map (@rev A) m.

(** [l[-1]]. *)
Definition last_elem {A : Type} (l : list A) : result A :=
  match last l with
  | Some a => Ok a
  | None => Raise IndexError
  end.

(** ** External numerical routines

    The persistent-cohomology engine ([ripser]), [numpy.linalg.eigh],
    [numpy.argsort] and the helpers that the later version imports from
    [CSMSSMTools] and [TDAUtils] are not part of this program; they are
    parameters. *)

(** A cocycle: rows [(vertex, vertex, value)]. *)
Definition cocycle : Type := list (nat * nat * nat).

Record externals : Type := Externals {
  (** [linalg.eigh(A)]: the matrix whose columns are eigenvectors of [A],
      by ascending eigenvalue; [LinAlgError] when the eigenvalue
      computation does not converge, as on a matrix with a NaN entry. *)
  eigh : list (list float64) -> result (list (list float64));
  (** [Rips(coeff=2, maxdim, do_cocycles=True).fit_transform(D)]:
      the dimension-1 diagram and its representative cocycles. *)
  rips_fit : nat -> list (list R) -> list (R * R) * list cocycle;
  argsort : list R -> list nat;
  add_cocycles : cocycle -> cocycle -> cocycle;
  get_greedy_perm :
    list (list R) -> nat -> list nat * list R * list (list R);
  getSSM : list (list R) -> list (list R);
  (** [getGreedyPermDM] as the later version imports it from
      [CSMSSMTools]. *)
  csm_getGreedyPermDM : list (list R) -> nat -> bool -> result greedy_perm_dm
}.

(** ** One projective reduction step

    The loop body shared by every loop of both versions of [PPCA]:
    rotate by the flipped eigenbasis, record the variance along the last
    axis, drop the last row and renormalise the columns. *)
Definition ppca_reduce (ext : externals) (X : list (list float64))
  : result (float64 * list (list float64)) :=
  U0 <- eigh ext (matmul X (transpose X)) ;;
  let U := fliplr U0 in
  u <- mapR last_elem U ;;
  let angles :=
    map (fun j =>
           let a := fsub (Fin (PI / 2)) (farccos (fabs (fdot u (col j X)))) in
           fmul a a) (seq 0 (ncols X)) in
  let v := fmean angles in
  let Y := matmul (transpose U) X in
  y <- last_elem Y ;;
  let Y' := removelast Y in
  let denom := map (fun yi => fsqrt (fsub (Fin 1) (fmul (fabs yi) (fabs yi)))) y in
  Ok (v, map (fun row => zip_with fdiv row denom) Y').

(** ** Cover radius, partition of unity and classifying map *)

(** [np.max(np.min(dist_land_data, 1))]: the minimum along axis 1 of each
    row of the landmark-by-data matrix, then the maximum of these. *)
Definition coverage (dist_land_data : list (list R)) : result R :=
  mins <- mapR amin dist_land_data ;;
  amax mins.

Definition radius_formula (perc : R) (cohomdeath cohombirth : float64)
  (cov : R) : float64 :=
  fadd (fmul (Fin (1 - perc)) (py_max cohomdeath (Fin cov)))
       (fmul (Fin perc) cohombirth).

(** [U = dist_land_data < r_cover]. *)
Definition cover_sets (dist_land_data : list (list R)) (r_cover : float64)
  : list (list bool) :=
  map (map (fun d => fltb (Fin d) r_cover)) dist_land_data.

(** [phi = zeros; phi[U] = r_cover - dist_land_data[U]]. *)
Definition bumps (dist_land_data : list (list R)) (r_cover : float64)
  : list (list float64) :=
  map (map (fun d => if fltb (Fin d) r_cover
                     then fsub r_cover (Fin d) else Fin 0)) dist_land_data.

(** [np.sum(phi, 0)]. *)
Definition column_sums (phi : list (list float64)) : list float64 :=
  map (fun j => fsum (col j phi)) (seq 0 (ncols phi)).

(** [varphi = phi / np.sum(phi, 0)[None, :]]. *)
Definition partition_of_unity (phi : list (list float64))
  : list (list float64) :=
  let s := column_sums phi in
  map (fun row => zip_with fdiv row s) phi.

(** [np.argmax] of a boolean column: the first [True], or 0. *)
Fixpoint first_true (i : nat) (l : list bool) : option nat :=
  match l with
  | [] => None
  | b :: l' => if b then Some i else first_true (S i) l'
  end.

Definition argmax_bool (l : list bool) : nat :=
  match first_true 0 l with
  | Some i => i
  | None => 0%nat
  end.

(** [np.argmax(U, 0)]. *)
Definition ball_index (U : list (list bool)) : list nat :=
  map (fun j => argmax_bool (col j U)) (seq 0 (ncols U)).

(** [m[a, b] = v], out of range raising [IndexError]. *)
Definition set_entry (m : list (list float64)) (a b : nat) (v : float64)
  : result (list (list float64)) :=
  row <- index m a ;;
  _ <- index row b ;;
  Ok (<[a := <[b := v]> row]> m).

(** The sign matrix: ones, with [-1] at [(a, b)] and [(b, a)] for every
    row [(a, b, _)] of the cocycle. *)
Definition cocycle_matrix (n_landmarks : nat) (c : cocycle)
  : result (list (list float64)) :=
  m <- foldR (fun m (e : nat * nat * nat) =>
                set_entry m (fst (fst e)) (snd (fst e)) (Fin (-1)))
         (replicate n_landmarks (replicate n_landmarks (Fin 1))) c ;;
  foldR (fun m (e : nat * nat * nat) =>
           set_entry m (snd (fst e)) (fst (fst e)) (Fin (-1))) m c.

(** [class_map = np.sqrt(varphi.T)], then row [i] multiplied by the sign
    row of the first ball containing point [i]. *)
Definition classifying_map (n_data : nat) (varphi signs : list (list float64))
  (ball_indx : list nat) : result (list (list float64)) :=
  foldR (fun (cm : list (list float64)) i =>
           row <- index cm i ;;
           b <- index ball_indx i ;;
           s <- index signs b ;;
           Ok (<[i := zip_with fmul row s]> cm))
        (map (map fsqrt) (transpose varphi)) (seq 0 n_data).

(** Steps 4 and 5 of [ProjCoords], the same in both versions: the cover
    by balls of radius [r_cover], its partition of unity, the sign matrix
    of the cocycle and the class map. *)
Definition build_class_map (n_data n_landmarks : nat)
  (dist_land_data : list (list R)) (r_cover : float64) (c : cocycle)
  : result (list (list float64)) :=
  let U := cover_sets dist_land_data r_cover in
  let phi := bumps dist_land_data r_cover in
  let varphi := partition_of_unity phi in
  let ball_indx := ball_index U in
  signs <- cocycle_matrix n_landmarks c ;;
  classifying_map n_data varphi signs ball_indx.

(** [l[-k] = v] for [k >= 1]. *)
Definition set_from_end {A : Type} (l : list A) (k : nat) (v : A)
  : result (list A) :=
  if (k <=? length l)%nat then Ok (<[(length l - k)%nat := v]> l)
  else Raise IndexError.

(** [np.zeros(n - 1)]: a negative size raises [ValueError]. *)
Definition zeros_pred (n : nat) : result (list float64) :=
  match n with
  | O => Raise ValueError
  | S k => Ok (replicate k (Fin 0))
  end.

(** ** The loops of [PPCA] *)

(** The body of the main loop of [Root.PPCA] at index [i]; the loop of
    [Dreimac.PPCA] does the same to the working matrix and the variances. *)
Definition variance_step (ext : externals)
  (st : list (list float64) * list float64) (i : nat)
  : result (list (list float64) * list float64) :=
  vx <- ppca_reduce ext (fst st) ;;
  var' <- set_from_end (snd st) (i + 1) (fst vx) ;;
  Ok (snd vx, var').

(** The body of the coordinates loop of [Root.PPCA] at index [j]. *)
Definition coordinates_step (ext : externals) (proj_dim : nat)
  (st2 : list (list float64) * list float64) (j : nat)
  : result (list (list float64) * list float64) :=
  vz <- ppca_reduce ext (fst st2) ;;
  var' <- (_ <- index (snd st2) (proj_dim - j - 1) ;;
           Ok (<[(proj_dim - j - 1)%nat := fst vz]> (snd st2))) ;;
  Ok (snd vz, var').

(** ** The first version: [ProjectiveCoordinates.py] *)

Module Root.

Record ppca_result : Type := PPCAResult {
  variance : list float64;
  X : list (list float64);
  Z : list (list float64)
}.

(** The progress report of the coordinates loop reads the index [i] the
    main loop left behind: when the main loop made no step, [i] has no
    value and reading it raises [UnboundLocalError]. *)
Definition report_stale_progress (verbose : bool) (n_iter n_dim : nat)
  : result unit :=
  if verbose then
    if (n_iter =? 0)%nat then Raise UnboundLocalError
    else report_progress true n_dim
  else Ok tt.

(** [PPCA]: a main loop of [n_dim - proj_dim - 1] steps, then a
    coordinates loop of [proj_dim] steps on a copy. *)
Definition PPCA (ext : externals) (class_map : list (list float64))
  (proj_dim : nat) (verbose : bool) : result ppca_result :=
  let X0 := transpose class_map in
  variance0 <- zeros_pred (length X0) ;;
  let n_dim := ncols class_map in
  let n_iter := (n_dim - proj_dim - 1)%nat in
  st <- foldR (fun (st : list (list float64) * list float64) i =>
                 _ <- report_progress verbose n_dim ;;
                 variance_step ext st i)
          (X0, variance0) (seq 0 n_iter) ;;
  st2 <- foldR (fun (st2 : list (list float64) * list float64) j =>
                  _ <- report_stale_progress verbose n_iter n_dim ;;
                  coordinates_step ext proj_dim st2 j)
           (fst st, snd st) (seq 0 proj_dim) ;;
  Ok {| variance := snd st2; X := fst st; Z := fst st2 |}.

(** What [ProjCoords] computes before it plots the variance (the function
    itself returns nothing). *)
Record projcoords_values : Type := ProjCoordsValues {
  r_birth : float64;
  class_map : list (list float64);
  ppca : ppca_result
}.

(** Step 1 of [ProjCoords]: the landmarks, as the matrices
    [(dist_land_data, dist_land_land)]. *)
Definition sample_landmarks (fo : float_ops) (P : list (list R))
  (n_landmarks : nat) (distance_matrix verbose : bool)
  : result (list (list R) * list (list R)) :=
  if distance_matrix then
    res <- getGreedyPermDM P n_landmarks verbose ;;
    rows <- mapR (index P) (gd_perm res) ;;
    dist_land_land <- mapR (fun r => mapR (index r) (gd_perm res)) rows ;;
    Ok (gd_DLandmarks res, dist_land_land)
  else
    res <- getGreedyPermEuclidean fo P n_landmarks verbose ;;
    dist_land_land <- getCSM fo (ge_Y res) (ge_Y res) ;;
    Ok (ge_D res, dist_land_land).

(** Steps 2 and 3 of [ProjCoords]: the cocycle of the most persistent
    class of the diagram and the radius of the balls. *)
Definition birth_radius (dgm1 : list (R * R)) (cocycles : list cocycle)
  (dist_land_data : list (list R)) (perc : R) : result (cocycle * float64) :=
  idx_mp1 <- argmax (map (fun bd : R * R => snd bd - fst bd) dgm1) ;;
  cocycle <- index cocycles idx_mp1 ;;
  cov <- coverage dist_land_data ;;
  bd <- index dgm1 idx_mp1 ;;
  Ok (cocycle, radius_formula perc (Fin (fst bd)) (Fin (snd bd)) cov).

Definition ProjCoords (fo : float_ops) (ext : externals) (P : list (list R))
  (n_landmarks : nat) (distance_matrix : bool) (perc : R) (proj_dim : nat)
  (verbose : bool) : result projcoords_values :=
  let n_data := length P in
  sampled <- sample_landmarks fo P n_landmarks distance_matrix verbose ;;
  let dist_land_data := fst sampled in
  let dist_land_land := snd sampled in
  let fitted := rips_fit ext 1 dist_land_land in
  cr <- birth_radius (fst fitted) (snd fitted) dist_land_data perc ;;
  let cocycle := fst cr in
  let r_birth := snd cr in
  class_map <- build_class_map n_data n_landmarks dist_land_data r_birth
                 cocycle ;;
  res <- PPCA ext class_map proj_dim verbose ;;
  Ok {| r_birth := r_birth; class_map := class_map; ppca := res |}.

End Root.

(** ** The later version: [dreimac/ProjectiveCoordinates.py] *)

Module Dreimac.

Record ppca_result : Type := PPCAResult {
  variance : list float64;
  X : list (list float64)
}.

Record ppca_state : Type := PPCAState {
  st_X : list (list float64);
  st_variance : list float64;
  st_XRet : option (list (list float64))
}.

(** The body of the loop of [PPCA] at index [i]. *)
Definition ppca_body (ext : externals) (n_dim proj_dim : nat)
  (st : ppca_state) (i : nat) : result ppca_state :=
  vx <- ppca_reduce ext (st_X st) ;;
  var' <- set_from_end (st_variance st) (i + 1) (fst vx) ;;
  Ok {| st_X := snd vx;
        st_variance := var';
        st_XRet := if (i + proj_dim + 2 =? n_dim)%nat
                   then Some (snd vx) else st_XRet st |}.

(** [PPCA]: one loop of [n_dim - 1] steps; the working matrix is kept
    aside at step [n_dim - proj_dim - 2] and its transpose returned.
    ([verbose] only prints here and is left out.) *)
Definition PPCA (ext : externals) (class_map : list (list float64))
  (proj_dim : nat) : result ppca_result :=
  let X0 := transpose class_map in
  variance0 <- zeros_pred (length X0) ;;
  let n_dim := ncols class_map in
  st <- foldR (ppca_body ext n_dim proj_dim)
          {| st_X := X0; st_variance := variance0; st_XRet := None |}
          (seq 0 (n_dim - 1)) ;;
  match st_XRet st with
  | None => Raise AttributeError
  | Some XRet => Ok {| variance := st_variance st; X := transpose XRet |}
  end.

Record projcoords_result : Type := ProjCoordsResult {
  res_variance : list float64;
  res_X : list (list float64);
  res_cocycle : list (nat * nat);
  res_dist_land_land : list (list R);
  res_dist_land_data : list (list R);
  res_dgm1 : list (R * R);
  res_idx_p1 : list nat;
  res_perm : list nat
}.

(** The values the selection loop accumulates. *)
Record selection : Type := Selection {
  sel_cocycle : cocycle;
  sel_cohomdeath : float64;
  sel_cohombirth : float64
}.

(** The loop over [cocycle_idx]: add the cocycle of each selected class,
    keep the largest birth and the smallest death. *)
Definition select_classes (ext : externals) (dgm1 : list (R * R))
  (cocycles : list cocycle) (idx_p1 cocycle_idx : list nat)
  : result selection :=
  foldR (fun (s : selection) (ck : nat) =>
           i <- index idx_p1 ck ;;
           c <- index cocycles i ;;
           bd <- index dgm1 i ;;
           Ok {| sel_cocycle := add_cocycles ext (sel_cocycle s) c;
                 sel_cohomdeath := py_max (sel_cohomdeath s) (Fin (fst bd));
                 sel_cohombirth := py_min (sel_cohombirth s) (Fin (snd bd)) |})
        {| sel_cocycle := []; sel_cohomdeath := NInf; sel_cohombirth := PInf |}
        cocycle_idx.

(** Steps 2 and 3 of [ProjCoords]: from the diagram the persistence engine
    returns to the combined cocycle and the cover radius. *)
Definition cover_radius (ext : externals) (dgms1 : list (R * R))
  (cocycles : list cocycle) (dist_land_data : list (list R)) (perc : R)
  (cocycle_idx : list nat)
  : result (list (R * R) * list nat * cocycle * float64) :=
  let dgm1 := map (fun bd : R * R => (fst bd / 2, snd bd / 2)) dgms1 in
  let idx_p1 := argsort ext (map (fun bd : R * R => fst bd - snd bd) dgm1) in
  k0 <- index cocycle_idx 0%nat ;;
  i0 <- index idx_p1 k0 ;;
  _ <- index cocycles i0 ;;
  s <- select_classes ext dgm1 cocycles idx_p1 cocycle_idx ;;
  cov <- coverage dist_land_data ;;
  Ok (dgm1, idx_p1, sel_cocycle s,
      radius_formula perc (sel_cohomdeath s) (sel_cohombirth s) cov).

(** Step 1 of [ProjCoords]: the landmarks, as
    [(perm, dist_land_data, dist_land_land)]. *)
Definition sample_landmarks (ext : externals) (P : list (list R))
  (n_landmarks : nat) (distance_matrix verbose : bool)
  : result (list nat * list (list R) * list (list R)) :=
  if distance_matrix then
    res <- csm_getGreedyPermDM ext P n_landmarks verbose ;;
    rows <- mapR (index P) (gd_perm res) ;;
    dist_land_land <- mapR (fun r => mapR (index r) (gd_perm res)) rows ;;
    Ok (gd_perm res, gd_DLandmarks res, dist_land_land)
  else
    let g := get_greedy_perm ext P n_landmarks in
    Y <- mapR (index P) (fst (fst g)) ;;
    Ok (fst (fst g), snd g, getSSM ext Y).

Definition ProjCoords (ext : externals) (P : list (list R))
  (n_landmarks : nat) (distance_matrix : bool) (perc : R) (maxdim : nat)
  (cocycle_idx : list nat) (proj_dim : nat) (verbose : bool)
  : result projcoords_result :=
  let n_data := length P in
  sampled <- sample_landmarks ext P n_landmarks distance_matrix verbose ;;
  let perm := fst (fst sampled) in
  let dist_land_data := snd (fst sampled) in
  let dist_land_land := snd sampled in
  let fitted := rips_fit ext maxdim dist_land_land in
  rc <- cover_radius ext (fst fitted) (snd fitted) dist_land_data perc
          cocycle_idx ;;
  let dgm1 := fst (fst (fst rc)) in
  let idx_p1 := snd (fst (fst rc)) in
  let cocycle := snd (fst rc) in
  let r_cover := snd rc in
  class_map <- build_class_map n_data n_landmarks dist_land_data r_cover
                 cocycle ;;
  res <- PPCA ext class_map proj_dim ;;
  Ok {| res_variance := variance res;
        res_X := X res;
        res_cocycle := map fst cocycle;
        res_dist_land_land := dist_land_land;
        res_dist_land_data := dist_land_data;
        res_dgm1 := map (fun bd : R * R => (fst bd * 2, snd bd * 2)) dgm1;
        res_idx_p1 := idx_p1;
        res_perm := perm |}.

End Dreimac.

(** * Specification predicates *)

(** An [n] by [m] array. *)
Definition shape {A : Type} (n m : nat) (D : list (list A)) : Prop :=
  length D = n /\ Forall (fun r => length r = m) D.

(** Entries are non-negative and vanish exactly on the diagonal: distinct
    points are at positive distance. *)
Definition separated (D : list (list R)) : Prop :=
  forall a b ra v, D !! a = Some ra -> ra !! b = Some v ->
    0 <= v /\ (v = 0 <-> a = b).

(** The progress report of a loop over [M] items cannot fail: it is
    switched off, or the loop makes no step, or the interval is positive. *)
Definition quiet (verbose : bool) (M : nat) : Prop :=
  verbose = false \/ (M <= 1)%nat \/ (20 <= M)%nat.

(** The distances the Euclidean sampler works with: row [p] is what it
    computes for point [p], [getCSM(X[p, :][None, :], X).flatten()]. *)
Definition landmark_distances (fo : float_ops) (X : list (list R))
  : list (list R) :=
  map (fun p => match distances_from fo X p with
                | Ok row => row
                | Raise _ => []
                end) (seq 0 (length X)).


(** What holds of the sampler's state when entries [0 .. i-1] of [perm]
    and [lambdas] have been written. *)
Record greedy_inv (N M : nat) (D : list (list R)) (i : nat)
  (st : greedy_state) : Prop := GreedyInv {
  gi_perm_length : length (gs_perm st) = M;
  gi_lambdas_length : length (gs_lambdas st) = M;
  gi_ds_length : length (gs_ds st) = N;
  gi_perm_0 : gs_perm st !! 0%nat = Some 0%nat;
  gi_lambdas_0 : gs_lambdas st !! 0%nat = Some 0;
  gi_perm_bound : Forall (fun p => (p < N)%nat) (gs_perm st);
  gi_mono : forall a b va vb, (1 <= a)%nat -> (a <= b)%nat -> (b < i)%nat ->
    gs_lambdas st !! a = Some va -> gs_lambdas st !! b = Some vb -> vb <= va;
  gi_ceiling : forall a k va v, (1 <= a)%nat -> (a < i)%nat ->
    gs_lambdas st !! a = Some va -> gs_ds st !! k = Some v -> v <= va;
  gi_distinct : separated D -> (i <= N)%nat ->
    NoDup (take i (gs_perm st)) /\
    forall k v, gs_ds st !! k = Some v ->
      0 <= v /\ (v = 0 <-> k ∈ take i (gs_perm st))
}.

(** The Euclidean norm of a row, [np.linalg.norm]. *)
Definition fnorm (row : list float64) : float64 :=
  fsqrt (fsum (map (fun x => fmul x x) row)).

(** A matrix of signs: [n] by [n], every entry [1] or [-1]. *)
Definition sign_matrix (n : nat) (m : list (list float64)) : Prop :=
  shape n n m /\
  Forall (Forall (fun v => v = Fin 1 \/ v = Fin (-1))) m.

(** The coverage radius as the specification words it, for comparison with
    [coverage]: the maximum over data points (columns) of the minimum over
    landmarks (rows) of the landmark-to-data distance. *)
Definition coverage_spec (dist_land_data : list (list R)) : result R :=
  mins <- mapR amin (transpose dist_land_data) ;;
  amax mins.

(** The pairs of the raw diagram picked by [cocycle_idx] through the
    persistence order [idx_p1]. *)
Definition selected_pairs (dgms1 : list (R * R)) (idx_p1 cocycle_idx : list nat)
  : result (list (R * R)) :=
  mapR (fun k => i <- index idx_p1 k ;; index dgms1 i) cocycle_idx.

(** ** A worked example

    Five points: the corners of a quadrilateral with sides 8 and diagonals
    12, in the order [p0, p1, p2, p3], and a fifth point [q] at distance 5
    from [p0]. *)
Definition five_points : list (list R) :=
  [ [0; 8; 12; 8; 5];
    [8; 0; 8; 12; 8];
    [12; 8; 0; 8; 12];
    [8; 12; 8; 0; 8];
    [5; 8; 12; 8; 0] ].

(** Rows [p0, p2, p1, p3] of [five_points]: the distances from the four
    landmarks the sampler picks to the five data points. *)
Definition five_points_landmarks : list (list R) :=
  [ [0; 8; 12; 8; 5];
    [12; 8; 0; 8; 12];
    [8; 0; 8; 12; 8];
    [8; 12; 8; 0; 8] ].

(** A class map of two points with three classes: the rows are unit
    vectors, [X X^T] is the diagonal matrix [diag(0, 1, 1)] for its
    transpose [X], and the identity for what the first reduction step
    leaves. *)
Definition example_class_map : list (list float64) :=
  [ [Fin 0; Fin (3 / 5); Fin (4 / 5)];
    [Fin 0; Fin (4 / 5); Fin (- 3 / 5)] ].

Definition identity_matrix (n : nat) : list (list float64) :=
  map (fun i => map (fun j => if (i =? j)%nat then Fin 1 else Fin 0) (seq 0 n))
      (seq 0 n).

Definition finite_entry (x : float64) : bool :=
  match x with
  | Fin _ => true
  | _ => false
  end.

Definition all_finite (A : list (list float64)) : bool :=
  forallb (forallb finite_entry) A.

(** External routines for the examples: [eigh] answers a finite matrix
    with the identity, an orthogonal matrix, which is the eigenvector
    matrix when the input is diagonal with ascending diagonal, and a
    matrix with a non-finite entry with [LinAlgError], as numpy does on a
    matrix of NaN with three rows or more; the four
    landmarks of [five_points] form a cycle born at 8 and filled at 12,
    with a cocycle supported on one edge; a list already in ascending
    order is sorted by the identity permutation; cocycles with disjoint
    supports add by concatenation; the sampler imported from
    [CSMSSMTools] is the one of the first version. *)
Definition example_externals : externals :=
  {| eigh := fun A => if all_finite A then Ok (identity_matrix (length A))
                      else Raise LinAlgError;
     rips_fit := fun _ _ => ([(8, 12)], [[(2%nat, 0%nat, 1%nat)]]);
     argsort := fun l => seq 0 (length l);
     add_cocycles := fun a b => a ++ b;
     get_greedy_perm := fun _ _ => ([], [], []);
     getSSM := fun Y => match getCSM exact_ops Y Y with
                        | Ok D => D
                        | Raise _ => []
                        end;
     csm_getGreedyPermDM := getGreedyPermDM |}.

(** ** Predicates about the projective reduction *)

Definition is_finite (x : float64) : Prop := exists r, x = Fin r.

(** Every column of an [N]-column matrix has squared norm 1. *)
Definition unit_columns (N : nat) (X : list (list float64)) : Prop :=
  forall j, (j < N)%nat -> fsum (map (fun x => fmul x x) (col j X)) = Fin 1.

(** [U Uᵗ = I] for a [d] by [d] matrix [U]. *)
Definition orthogonal (d : nat) (U : list (list float64)) : Prop :=
  shape d d U /\
  forall i j ri rj, U !! i = Some ri -> U !! j = Some rj ->
    fdot ri rj = Fin (if decide (i = j) then 1 else 0).

(** [eigh] answers every finite square matrix, with an orthogonal
    matrix. *)
Definition eigh_orthogonal (ext : externals) : Prop :=
  forall d A, shape d d A -> Forall (Forall is_finite) A ->
    exists U, eigh ext A = Ok U /\ orthogonal d U.

(** [eigh] does not converge on a matrix of three rows or more whose
    entries are all NaN. *)
Definition eigh_rejects_nan (ext : externals) : Prop :=
  forall d, (3 <= d)%nat ->
    eigh ext (replicate d (replicate d NaN)) = Raise LinAlgError.

(** The working matrix after [k] reduction steps. *)
Fixpoint ppca_iterate (ext : externals) (k : nat) (X : list (list float64))
  : result (list (list float64)) :=
  match k with
  | O => Ok X
  | S k' => vx <- ppca_reduce ext X ;; ppca_iterate ext k' (snd vx)
  end.

(** The row [y] that a reduction step drops from the rotated matrix. *)
Definition dropped_row (ext : externals) (X : list (list float64))
  : result (list float64) :=
  U0 <- eigh ext (matmul X (transpose X)) ;;
  last_elem (matmul (transpose (fliplr U0)) X).

(** No point is aligned with the axis a step eliminates: every dropped
    coordinate of the first [K] steps has magnitude below 1. *)
Definition nondegenerate (ext : externals) (K : nat)
  (X0 : list (list float64)) : Prop :=
  forall k Xk y, (k < K)%nat ->
    ppca_iterate ext k X0 = Ok Xk -> dropped_row ext Xk = Ok y ->
    Forall (fun yi => exists v, yi = Fin v /\ Rabs v < 1) y.

(** The sum [f 0 + ... + f (n-1)]. *)
Definition Rsum (n : nat) (f : nat -> R) : R := sum_list (map f (seq 0 n)).

(** ** Predicates about distances and the sampler's radii *)

(** Entry [(i, j)] of a matrix, when it exists. *)
Definition entry {A : Type} (m : list (list A)) (i j : nat) : option A :=
  m !! i ≫= (fun r => r !! j).




(** Rows [0 .. i-1] of the matrix [D] the Euclidean sampler fills hold the
    distances from the landmarks chosen so far to all points. *)
Definition landmark_rows (fo : float_ops) (X : list (list R)) (i : nat)
  (st : greedy_state) : Prop :=
  length (gs_D st) = length (gs_perm st) /\
  forall a, (a < i)%nat ->
    exists p row, gs_perm st !! a = Some p /\
                  distances_from fo X p = Ok row /\
                  gs_D st !! a = Some row.

(** ** Predicates about the cover and the sign matrix *)

(** The pair [(a, b)] is joined by a row of the cocycle, in either
    order. *)
Definition cocycle_edge (c : cocycle) (a b : nat) : Prop :=
  Exists (fun e : nat * nat * nat => fst e = (a, b) \/ fst e = (b, a)) c.

(** Every vertex of the cocycle is a landmark index. *)
Definition cocycle_in_range (n : nat) (c : cocycle) : Prop :=
  Forall (fun e : nat * nat * nat =>
            (fst (fst e) < n)%nat /\ (snd (fst e) < n)%nat) c.

(** ** The variances recorded by the projective reduction *)

(** [k] reduction steps from [X]: the variances in the order they are
    measured, and the working matrix that is left. *)
Fixpoint ppca_trace (ext : externals) (k : nat) (X : list (list float64))
  : result (list float64 * list (list float64)) :=
  match k with
  | O => Ok ([], X)
  | S k' =>
      vx <- ppca_reduce ext X ;;
      r <- ppca_trace ext k' (snd vx) ;;
      Ok (fst vx :: fst r, snd r)
  end.

(** A variance is a finite number between [0] and [(pi/2)^2]. *)
Definition bounded_variance (v : float64) : Prop :=
  exists t, v = Fin t /\ 0 <= t <= (PI / 2) * (PI / 2).

(** ** Rotation to the north pole and stereographic projection

    The helpers of [dreimac/ProjectiveCoordinates.py] that prepare the
    projective coordinates for plotting. *)

(** [a / np.sqrt(np.sum(a**2))]. *)
Definition normalise (a : list float64) : list float64 :=
  map (fun x => fdiv x (fnorm a)) a.

(** [u[:, None].dot(v[None, :])]: the product of a column by a row. *)
Definition outer (u v : list float64) : list (list float64) :=
  matmul (map (fun x => [x]) u) [v].

(** A scalar times a matrix, and the sum and difference of two matrices of
    one shape. *)
Definition mscale (s : float64) (m : list (list float64))
  : list (list float64) := map (map (fmul s)) m.

Definition madd (A B : list (list float64)) : list (list float64) :=
  zip_with (zip_with fadd) A B.

Definition msub (A B : list (list float64)) : list (list float64) :=
  zip_with (zip_with fsub) A B.

(** [rotmat(a)] for a one-dimensional [a], the second argument left at its
    default as in the program's only call: the matrix meant to rotate [a]
    to the north pole [(0, ..., 0, 1)].  An empty [a] raises [IndexError]
    at [b[-1] = 1]. *)
Definition rotmat (a : list float64) : result (list (list float64)) :=
  let a := normalise a in
  let d := length a in
  b <- set_from_end (replicate d (Fin 0)) 1 (Fin 1) ;;
  let b := normalise b in
  let c := zip_with fsub a (map (fmul (fdot b a)) b) in
  if fltb (fnorm c) (Fin (1 / 10 ^ 15)) then Ok (identity_matrix d)
  else
    let c := normalise c in
    let lam := fdot b a in
    let beta := fsqrt (fsub (Fin 1) (fmul (fabs lam) (fabs lam))) in
    Ok (madd
          (msub
             (msub (identity_matrix d)
                   (mscale (fsub (Fin 1) lam) (outer c c)))
             (mscale (fsub (Fin 1) lam) (outer b b)))
          (mscale beta (msub (outer b c) (outer c b)))).

(** [getStereoProjCodim1(pX)] with [randomSeed] at its default: rotate the
    first eigenvector of [X X^T] to the north pole, bring every point to
    the upper hemisphere and project stereographically. *)
Definition getStereoProjCodim1 (ext : externals) (pX : list (list float64))
  : result (list (list float64)) :=
  let X := transpose pX in
  U <- eigh ext (matmul X (transpose X)) ;;
  u <- mapR (fun r => index r 0%nat) U ;;
  rot <- rotmat u ;;
  let XX := matmul rot X in
  z <- last_elem XX ;;
  let ind := map (fun zi => fltb zi (Fin 0)) z in
  let XX' :=
    map (fun row =>
           zip_with (fun x (flip : bool) =>
                       if flip then fmul x (Fin (-1)) else x) row ind) XX in
  z' <- last_elem XX' ;;
  let S :=
    map (fun row => zip_with fdiv row (map (fun zi => fadd (Fin 1) zi) z'))
        (removelast XX') in
  Ok (map (fun j => col j S) (seq 0 (length z'))).

(** ** Tabulated vectors and matrices *)

(** The vector [(f 0, ..., f (d-1))] and the [d] by [d] matrix with
    entries [F i k]. *)
Definition tab (d : nat) (f : nat -> R) : list float64 :=
  map (fun i => Fin (f i)) (seq 0 d).

Definition tab2 (d : nat) (F : nat -> nat -> R) : list (list float64) :=
  map (fun i => tab d (F i)) (seq 0 d).

(** Kronecker's delta. *)
Definition delta (i k : nat) : R := if (i =? k)%nat then 1 else 0.

(** The entries of the rotation in the plane of the orthonormal vectors
    [b] and [c] that takes [lam * b + beta * c] to [b]. *)
Definition rot_entry (b c : nat -> R) (lam beta : R) (i k : nat) : R :=
  delta i k - (1 - lam) * (c i * c k) - (1 - lam) * (b i * b k)
  + beta * (b i * c k - c i * b k).

(** The [n] by [m] matrix with entries [G i j], and a value [x] with its
    sign changed when [z] is negative. *)
Definition grid (n m : nat) (G : nat -> nat -> R) : list (list float64) :=
  map (fun i => map (fun j => Fin (G i j)) (seq 0 m)) (seq 0 n).

Definition flipv (z x : R) : R := if Rltb z 0 then x * -1 else x.

(** * Properties *)

(** ** Lists and the error monad *)

Lemma map_fmap {A B : Type} (f : A -> B) (l : list A) : map f l = f <$> l.
Proof. induction l as [|a l IH]; simpl; [reflexivity | now rewrite IH]. Qed.

Lemma lookup_map {A B : Type} (f : A -> B) (l : list A) (i : nat) :
  map f l !! i = f <$> (l !! i).
Proof. rewrite map_fmap. apply list_lookup_fmap. Qed.

Lemma bind_Ok {A B : Type} (r : result A) (k : A -> result B) (b : B) :
  bind r k = Ok b -> exists a, r = Ok a /\ k a = Ok b.
Proof. destruct r as [a|e]; simpl; [eauto | discriminate]. Qed.

Lemma index_Ok {A : Type} (l : list A) (i : nat) (a : A) :
  index l i = Ok a <-> l !! i = Some a.
Proof.
  unfold index. destruct (l !! i); split; intros H; inversion H; reflexivity.
Qed.

Lemma index_lt {A : Type} (l : list A) (i : nat) :
  (i < length l)%nat -> exists a, index l i = Ok a /\ l !! i = Some a.
Proof.
  intros H. destruct (lookup_lt_is_Some_2 l i H) as [a Ha].
  exists a. split; [now apply index_Ok | exact Ha].
Qed.

Lemma mapR_Ok_length {A B : Type} (f : A -> result B) (l : list A)
  (bs : list B) : mapR f l = Ok bs -> length bs = length l.
Proof.
  revert bs. induction l as [|a l IH]; simpl; intros bs H.
  - inversion H. reflexivity.
  - apply bind_Ok in H as (b & _ & H). apply bind_Ok in H as (bs' & Hbs & H).
    inversion H; subst. simpl. f_equal. now apply IH.
Qed.

Lemma mapR_total {A B : Type} (f : A -> result B) (l : list A) :
  Forall (fun a => exists b, f a = Ok b) l -> exists bs, mapR f l = Ok bs.
Proof.
  induction 1 as [|a l [b Hb] _ [bs Hbs]]; simpl.
  - eauto.
  - rewrite Hb. simpl. rewrite Hbs. simpl. eauto.
Qed.

Lemma mapR_lookup {A B : Type} (f : A -> result B) (l : list A)
  (bs : list B) (i : nat) (a : A) :
  mapR f l = Ok bs -> l !! i = Some a ->
  exists b, bs !! i = Some b /\ f a = Ok b.
Proof.
  revert bs i. induction l as [|a' l IH]; simpl; intros bs i H Hi.
  - discriminate.
  - apply bind_Ok in H as (b & Hb & H). apply bind_Ok in H as (bs' & Hbs & H).
    inversion H; subst. destruct i as [|i]; simpl in *.
    + inversion Hi; subst. eauto.
    + eapply IH; eauto.
Qed.

(** ** [argmax] returns the first position of a maximum *)

Lemma Rltb_true (a b : R) : Rltb a b = true <-> a < b.
Proof. unfold Rltb. destruct (Rlt_dec a b); split; intros; try lra; congruence. Qed.

Lemma Rltb_false (a b : R) : Rltb a b = false <-> b <= a.
Proof. unfold Rltb. destruct (Rlt_dec a b); split; intros; try lra; congruence. Qed.

Lemma argmax_from_spec (l pre : list R) (best : R) (bi : nat) :
  pre !! bi = Some best ->
  (forall j x, pre !! j = Some x -> x <= best) ->
  exists v, (pre ++ l) !! argmax_from best bi (length pre) l = Some v /\
            forall j x, (pre ++ l) !! j = Some x -> x <= v.
Proof.
  revert pre best bi. induction l as [|x l IH]; intros pre best bi Hbi Hmax.
  - simpl. rewrite app_nil_r. eauto.
  - simpl. replace (pre ++ x :: l) with ((pre ++ [x]) ++ l)
      by (rewrite <- app_assoc; reflexivity).
    replace (S (length pre)) with (length (pre ++ [x]))
      by (rewrite length_app; simpl; lia).
    destruct (Rltb best x) eqn:E.
    + apply Rltb_true in E. apply IH.
      * rewrite lookup_app_r by lia. now rewrite Nat.sub_diag.
      * intros j y Hj. apply lookup_app_Some in Hj as [Hj | [_ Hj]].
        -- apply Hmax in Hj. lra.
        -- destruct (j - length pre)%nat; simpl in Hj; [|discriminate].
           inversion Hj. lra.
    + apply Rltb_false in E. apply IH.
      * rewrite lookup_app_l; [exact Hbi|].
        apply lookup_lt_is_Some. eauto.
      * intros j y Hj. apply lookup_app_Some in Hj as [Hj | [_ Hj]].
        -- now apply (Hmax j).
        -- destruct (j - length pre)%nat; simpl in Hj; [|discriminate].
           inversion Hj. lra.
Qed.

Lemma argmax_spec (l : list R) :
  l <> [] ->
  exists i v, argmax l = Ok i /\ l !! i = Some v /\
              forall j x, l !! j = Some x -> x <= v.
Proof.
  destruct l as [|x l]; [congruence | intros _].
  destruct (argmax_from_spec l [x] x 0) as (v & Hv & Hmax).
  - reflexivity.
  - intros [|j] y Hj; simpl in Hj; inversion Hj. lra.
  - exists (argmax_from x 0 1 l), v. simpl in *. eauto.
Qed.

(** ** The progress report *)

Lemma report_progress_quiet (verbose : bool) (M : nat) :
  quiet verbose M -> (2 <= M)%nat -> report_progress verbose M = Ok tt.
Proof.
  intros [-> | [H | H]] HM; unfold report_progress; [reflexivity | lia |].
  destruct verbose; [|reflexivity].
  destruct (Nat.eqb_spec (M / 20) 0) as [E|E]; [|reflexivity].
  apply Nat.div_small_iff in E; lia.
Qed.

Lemma report_progress_fails (M : nat) :
  (M < 20)%nat -> report_progress true M = Raise ZeroDivisionError.
Proof.
  intros H. unfold report_progress. now rewrite Nat.div_small by lia.
Qed.

Lemma bind_Raise {A B : Type} (r : result A) (k : A -> result B) (e : pyerr) :
  r = Raise e -> bind r k = Raise e.
Proof. intros ->. reflexivity. Qed.

Lemma foldR_first_raises {A S : Type} (f : S -> A -> result S) (s : S)
  (a : A) (l : list A) (e : pyerr) :
  f s a = Raise e -> foldR f s (a :: l) = Raise e.
Proof. intros H. simpl. now rewrite H. Qed.

(** ** The sampling loop *)

Lemma minimum_lookup (u v : list R) (k : nat) (m : R) :
  minimum u v !! k = Some m <->
  exists a b, u !! k = Some a /\ v !! k = Some b /\ m = Rmin a b.
Proof.
  unfold minimum. rewrite lookup_zip_with_Some.
  split; intros (a & b & H); exists a, b; tauto.
Qed.

Lemma minimum_length (u v : list R) :
  length u = length v -> length (minimum u v) = length u.
Proof. intros H. unfold minimum. rewrite length_zip_with. lia. Qed.

Lemma shape_row {A : Type} (n m : nat) (D : list (list A)) (i : nat) :
  shape n m D -> (i < n)%nat ->
  exists row, D !! i = Some row /\ length row = m.
Proof.
  intros [Hn Hrows] Hi.
  destruct (lookup_lt_is_Some_2 D i) as [row Hrow]; [lia|].
  exists row. split; [exact Hrow|].
  rewrite Forall_forall in Hrows. apply Hrows.
  eapply list_elem_of_lookup_2, Hrow.
Qed.

Lemma greedy_dm_body_step (N M : nat) (verbose : bool) (D : list (list R))
  (st : greedy_state) (i : nat) :
  shape N N D -> (0 < N)%nat -> length (gs_ds st) = N ->
  exists idx lam row,
    (idx < N)%nat /\ gs_ds st !! idx = Some lam /\
    D !! idx = Some row /\ length row = N /\
    (forall j x, gs_ds st !! j = Some x -> x <= lam) /\
    greedy_dm_body D M verbose st i =
      (_ <- report_progress verbose M ;;
       Ok {| gs_perm := <[i := idx]> (gs_perm st);
             gs_lambdas := <[i := lam]> (gs_lambdas st);
             gs_ds := minimum (gs_ds st) row;
             gs_D := gs_D st |}).
Proof.
  intros HD HN Hds.
  destruct (argmax_spec (gs_ds st)) as (idx & lam & Hidx & Hlam & Hmax).
  { intros E. rewrite E in Hds. simpl in Hds. lia. }
  assert (Hlt : (idx < N)%nat).
  { rewrite <- Hds. apply lookup_lt_is_Some. eauto. }
  destruct (shape_row N N D idx HD Hlt) as (row & Hrow & Hlen).
  exists idx, lam, row. repeat split; try assumption.
  unfold greedy_dm_body. rewrite Hidx. simpl.
  rewrite (proj2 (index_Ok _ _ _) Hlam). simpl.
  rewrite (proj2 (index_Ok _ _ _) Hrow). reflexivity.
Qed.

Lemma greedy_inv_step (N M : nat) (D : list (list R)) (i : nat)
  (st : greedy_state) (idx : nat) (lam : R) (row : list R) :
  (1 <= i)%nat -> (i < M)%nat -> greedy_inv N M D i st ->
  (idx < N)%nat -> gs_ds st !! idx = Some lam ->
  D !! idx = Some row -> length row = N ->
  (forall j x, gs_ds st !! j = Some x -> x <= lam) ->
  greedy_inv N M D (S i)
    {| gs_perm := <[i := idx]> (gs_perm st);
       gs_lambdas := <[i := lam]> (gs_lambdas st);
       gs_ds := minimum (gs_ds st) row;
       gs_D := gs_D st |}.
Proof.
  intros Hi1 HiM [Hp Hl Hd Hp0 Hl0 Hb Hmono Hceil Hdist] Hidx Hlam Hrow Hlen Hmax.
  constructor; simpl.
  - now rewrite length_insert.
  - now rewrite length_insert.
  - rewrite minimum_length; congruence.
  - rewrite list_lookup_insert_ne by lia. exact Hp0.
  - rewrite list_lookup_insert_ne by lia. exact Hl0.
  - apply Forall_insert; assumption.
  - intros a b va vb Ha Hab Hb' Hva Hvb.
    destruct (decide (b = i)) as [->|Hne].
    + rewrite list_lookup_insert_eq in Hvb by lia. inversion Hvb; subst vb.
      destruct (decide (a = i)) as [->|Hne'].
      * rewrite list_lookup_insert_eq in Hva by lia. inversion Hva. lra.
      * rewrite list_lookup_insert_ne in Hva by lia.
        apply (Hceil a idx va lam); try assumption; lia.
    + rewrite list_lookup_insert_ne in Hvb by lia.
      rewrite list_lookup_insert_ne in Hva by lia.
      apply (Hmono a b); try assumption; lia.
  - intros a k va v Ha Hai Hva Hv.
    apply minimum_lookup in Hv as (x & y & Hx & Hy & ->).
    pose proof (Rmin_l x y) as Hmin.
    destruct (decide (a = i)) as [->|Hne].
    + rewrite list_lookup_insert_eq in Hva by lia. inversion Hva; subst va.
      specialize (Hmax k x Hx). lra.
    + rewrite list_lookup_insert_ne in Hva by lia.
      assert (x <= va) by (apply (Hceil a k); try assumption; lia). lra.
  - intros Hsep HiN.
    destruct (Hdist Hsep) as [Hnd Hzero]; [lia|].
    assert (Htake : take (S i) (<[i := idx]> (gs_perm st))
                    = take i (gs_perm st) ++ [idx]).
    { rewrite (take_S_r _ _ idx) by (apply list_lookup_insert_eq; lia).
      now rewrite take_insert_ge by lia. }
    rewrite Htake.
    assert (Hfresh : idx ∉ take i (gs_perm st)).
    { intros Hin.
      assert (Hlam0 : lam = 0) by (apply (Hzero idx lam Hlam); exact Hin).
      assert (Hall : forall k, k ∈ seq 0 N -> k ∈ take i (gs_perm st)).
      { intros k Hk. apply elem_of_seq in Hk.
        destruct (lookup_lt_is_Some_2 (gs_ds st) k) as [v Hv]; [lia|].
        destruct (Hzero k v Hv) as [Hv0 Hiff]. apply Hiff.
        specialize (Hmax k v Hv). lra. }
      apply NoDup_submseteq in Hall; [|apply NoDup_seq].
      apply submseteq_length in Hall.
      rewrite length_seq, length_take in Hall. lia. }
    split.
    + apply NoDup_app. split; [exact Hnd|]. split; [|apply NoDup_singleton].
      intros x Hx Hx'. apply list_elem_of_singleton in Hx'. now subst x.
    + intros k v Hv.
      apply minimum_lookup in Hv as (x & y & Hx & Hy & ->).
      destruct (Hzero k x Hx) as [Hx0 Hxiff].
      destruct (Hsep idx k row y Hrow Hy) as [Hy0 Hyiff].
      split; [apply Rmin_glb; assumption|].
      rewrite elem_of_app, list_elem_of_singleton.
      unfold Rmin. destruct (Rle_dec x y); split.
      * intros E. left. now apply Hxiff.
      * intros [Hk | ->]; [now apply Hxiff|].
        assert (y = 0) by now apply Hyiff. lra.
      * intros E. right. symmetry. now apply Hyiff.
      * intros [Hk | ->]; [|now apply Hyiff].
        assert (x = 0) by now apply Hxiff. lra.
Qed.

Lemma greedy_inv_init (N M : nat) (D : list (list R)) (ds : list R)
  (Dacc : list (list R)) :
  shape N N D -> (1 <= M)%nat -> D !! 0%nat = Some ds ->
  greedy_inv N M D 1
    {| gs_perm := replicate M 0%nat; gs_lambdas := replicate M 0;
       gs_ds := ds; gs_D := Dacc |}.
Proof.
  intros HD HM Hds.
  assert (HN : (0 < N)%nat).
  { destruct HD as [<- _]. apply lookup_lt_is_Some. eauto. }
  constructor; simpl.
  - apply length_replicate.
  - apply length_replicate.
  - destruct (shape_row N N D 0 HD HN) as (row & Hrow & Hlen). congruence.
  - apply lookup_replicate_2. lia.
  - apply lookup_replicate_2. lia.
  - apply Forall_replicate. exact HN.
  - intros; lia.
  - intros; lia.
  - intros Hsep _. destruct M as [|M]; [lia|]. simpl. rewrite take_0.
    split; [apply NoDup_singleton|].
    intros k v Hv. destruct (Hsep 0%nat k ds v Hds Hv) as [Hv0 Hiff].
    split; [exact Hv0|]. rewrite list_elem_of_singleton.
    rewrite Hiff. split; congruence.
Qed.

Lemma greedy_dm_loop (N M : nat) (verbose : bool) (D : list (list R)) :
  shape N N D -> (0 < N)%nat ->
  forall n i st, (n = 0%nat \/ report_progress verbose M = Ok tt) ->
    (1 <= i)%nat -> (i + n <= M)%nat -> greedy_inv N M D i st ->
  exists st', foldR (greedy_dm_body D M verbose) st (seq i n) = Ok st' /\
              greedy_inv N M D (i + n) st'.
Proof.
  intros HD HN. induction n as [|n IH]; intros i st Hq Hi HM Hinv; simpl.
  - exists st. rewrite Nat.add_0_r. auto.
  - destruct Hq as [Hq|Hq]; [discriminate|].
    destruct (greedy_dm_body_step N M verbose D st i HD HN
                (gi_ds_length _ _ _ _ _ Hinv))
      as (idx & lam & row & Hidx & Hlam & Hrow & Hlen & Hmax & Hbody).
    rewrite Hbody, Hq. simpl.
    destruct (IH (S i)
                {| gs_perm := <[i := idx]> (gs_perm st);
                   gs_lambdas := <[i := lam]> (gs_lambdas st);
                   gs_ds := minimum (gs_ds st) row;
                   gs_D := gs_D st |}) as (st' & Hst' & Hinv');
      [now right | lia | lia | |].
    + apply greedy_inv_step; try assumption. lia.
    + exists st'. split; [exact Hst'|].
      replace (i + S n)%nat with (S i + n)%nat by lia. exact Hinv'.
Qed.

Lemma perm_rows_total (N : nat) (D : list (list R)) (perm : list nat) :
  shape N N D -> Forall (fun p => (p < N)%nat) perm ->
  exists rows, mapR (index D) perm = Ok rows.
Proof.
  intros HD Hperm. apply mapR_total.
  eapply Forall_impl; [exact Hperm|]. intros p Hp. simpl in Hp.
  destruct (shape_row N N D p HD Hp) as (row & Hrow & _).
  exists row. now apply index_Ok.
Qed.

Lemma quiet_loop (verbose : bool) (M : nat) :
  quiet verbose M -> (M - 1 = 0)%nat \/ report_progress verbose M = Ok tt.
Proof.
  intros Hq. destruct (le_lt_dec M 1) as [H|H]; [left; lia | right].
  apply report_progress_quiet; [exact Hq | lia].
Qed.

(** The distance-matrix sampler returns on a non-empty square matrix,
    whatever the number of landmarks, when the progress report is quiet,
    and its state satisfies the invariant with all [M] entries written. *)
Lemma getGreedyPermDM_inv (N M : nat) (verbose : bool) (D : list (list R)) :
  shape N N D -> (0 < N)%nat -> (1 <= M)%nat -> quiet verbose M ->
  exists res st,
    getGreedyPermDM D M verbose = Ok res /\
    gd_perm res = gs_perm st /\ gd_lambdas res = gs_lambdas st /\
    greedy_inv N M D M st.
Proof.
  intros HD HN HM Hq.
  destruct (shape_row N N D 0 HD HN) as (ds & Hds & Hlen).
  unfold getGreedyPermDM. rewrite (proj2 (index_Ok _ _ _) Hds). simpl.
  destruct (greedy_dm_loop N M verbose D HD HN (M - 1) 1
              {| gs_perm := replicate M 0%nat; gs_lambdas := replicate M 0;
                 gs_ds := ds; gs_D := [] |}) as (st & Hst & Hinv);
    [now apply quiet_loop | lia | lia | now apply greedy_inv_init |].
  rewrite Hst. simpl.
  replace (1 + (M - 1))%nat with M in Hinv by lia.
  destruct (perm_rows_total N D (gs_perm st) HD (gi_perm_bound _ _ _ _ _ Hinv))
    as (rows & Hrows).
  rewrite Hrows. simpl. eauto 10.
Qed.

(** Asked for no landmark, the distance-matrix sampler returns none. *)
Lemma getGreedyPermDM_no_landmark (N : nat) (verbose : bool)
  (D : list (list R)) :
  shape N N D -> (0 < N)%nat ->
  getGreedyPermDM D 0 verbose =
    Ok {| gd_perm := []; gd_lambdas := []; gd_DLandmarks := [] |}.
Proof.
  intros HD HN. destruct (shape_row N N D 0 HD HN) as (ds & Hds & _).
  unfold getGreedyPermDM. now rewrite (proj2 (index_Ok _ _ _) Hds).
Qed.

(** With the progress report on and fewer than twenty landmarks, the
    first step of the loop divides by zero. *)
Lemma getGreedyPermDM_progress_error (N M : nat) (D : list (list R)) :
  shape N N D -> (0 < N)%nat -> (2 <= M)%nat -> (M < 20)%nat ->
  getGreedyPermDM D M true = Raise ZeroDivisionError.
Proof.
  intros HD HN HM2 HM20.
  destruct (shape_row N N D 0 HD HN) as (ds & Hds & Hlen).
  unfold getGreedyPermDM. rewrite (proj2 (index_Ok _ _ _) Hds). cbn [bind].
  apply bind_Raise.
  replace (M - 1)%nat with (S (M - 2)) by lia. cbn [seq].
  apply foldR_first_raises.
  destruct (greedy_dm_body_step N M true D
              {| gs_perm := replicate M 0%nat; gs_lambdas := replicate M 0;
                 gs_ds := ds; gs_D := [] |} 1 HD HN Hlen)
    as (idx & lam & row & _ & _ & _ & _ & _ & Hbody).
  rewrite Hbody. now rewrite report_progress_fails by exact HM20.
Qed.

(** A run of the distance-matrix sampler that returns had a first row to
    read and a quiet progress report. *)
Lemma getGreedyPermDM_nonempty (N : nat) (D : list (list R)) (M : nat)
  (verbose : bool) (res : greedy_perm_dm) :
  shape N N D -> getGreedyPermDM D M verbose = Ok res -> (0 < N)%nat.
Proof.
  intros HD Hres. unfold getGreedyPermDM in Hres.
  apply bind_Ok in Hres as (ds & Hds & _).
  apply index_Ok in Hds. destruct HD as [<- _].
  apply lookup_lt_is_Some. eauto.
Qed.

Lemma getGreedyPermDM_Ok_quiet (N M : nat) (verbose : bool)
  (D : list (list R)) (res : greedy_perm_dm) :
  shape N N D -> (0 < N)%nat -> getGreedyPermDM D M verbose = Ok res ->
  quiet verbose M.
Proof.
  intros HD HN Hres. destruct verbose; [|now left].
  destruct (le_lt_dec M 1) as [H1|H1]; [right; now left|].
  destruct (le_lt_dec 20 M) as [H20|H20]; [right; now right|].
  rewrite (getGreedyPermDM_progress_error N M D HD HN) in Hres by lia.
  discriminate.
Qed.

(** ** The Euclidean sampler runs the same loop on the distances it computes *)

Lemma ncols_shape_pos {A : Type} (n w : nat) (m : list (list A)) :
  shape n w m -> (0 < n)%nat -> ncols m = w.
Proof.
  intros [Hn Hrows] Hpos. destruct m as [|r m]; simpl in *; [lia|].
  now inversion Hrows.
Qed.

Lemma getCSM_Ok (fo : float_ops) (X Y : list (list R)) :
  ncols X = ncols Y ->
  exists C, getCSM fo X Y = Ok C /\ shape (length X) (length Y) C.
Proof.
  intros H. unfold getCSM. rewrite (proj2 (Nat.eqb_eq _ _) H).
  eexists. split; [reflexivity|]. split.
  - now rewrite length_map, length_seq.
  - apply Forall_forall. intros r Hr.
    apply list_elem_of_lookup in Hr as [i Hi].
    rewrite lookup_map in Hi.
    destruct (seq 0 (length X) !! i); simpl in Hi; inversion Hi.
    now rewrite length_map, length_seq.
Qed.


Lemma concat_single_row {A : Type} (n : nat) (C : list (list A)) :
  shape 1 n C -> length (concat C) = n.
Proof.
  intros [Hlen Hrows]. destruct C as [|r [|r' C]]; simpl in Hlen; try lia.
  inversion Hrows; subst. simpl. now rewrite app_nil_r.
Qed.

Lemma distances_from_total (fo : float_ops) (N d : nat) (X : list (list R))
  (idx : nat) :
  shape N d X -> (idx < N)%nat ->
  exists row, distances_from fo X idx = Ok row /\ length row = N.
Proof.
  intros HX Hidx.
  destruct (shape_row N d X idx HX Hidx) as (x & Hx & Hlen).
  destruct (getCSM_Ok fo [x] X) as (C & HC & Hshape).
  { simpl. rewrite (ncols_shape_pos N d X HX) by lia. exact Hlen. }
  exists (concat C). unfold distances_from.
  rewrite (proj2 (index_Ok _ _ _) Hx). cbn [bind]. rewrite HC.
  split; [reflexivity|].
  destruct HX as [HN _]. rewrite HN in Hshape.
  now apply concat_single_row.
Qed.

Lemma distances_from_bound (fo : float_ops) (X : list (list R)) (idx : nat)
  (row : list R) :
  distances_from fo X idx = Ok row -> (idx < length X)%nat.
Proof.
  unfold distances_from. intros H. apply bind_Ok in H as (x & Hx & _).
  apply index_Ok in Hx. apply lookup_lt_is_Some. eauto.
Qed.

Lemma landmark_distances_lookup (fo : float_ops) (N d : nat)
  (X : list (list R)) (idx : nat) (row : list R) :
  shape N d X ->
  (landmark_distances fo X !! idx = Some row <->
   distances_from fo X idx = Ok row).
Proof.
  intros HX. unfold landmark_distances. rewrite lookup_map.
  pose proof HX as [HN _]. split.
  - intros H. destruct (seq 0 (length X) !! idx) as [p|] eqn:Hp;
      simpl in H; [|discriminate].
    apply lookup_seq in Hp as [-> Hlt]. simpl in H.
    destruct (distances_from_total fo N d X idx HX) as (row' & Hrow' & _);
      [lia|].
    rewrite Hrow' in H. congruence.
  - intros H. pose proof (distances_from_bound _ _ _ _ H) as Hlt.
    rewrite (lookup_seq_lt _ _ _ Hlt). simpl. now rewrite H.
Qed.

Lemma landmark_distances_shape (fo : float_ops) (N d : nat)
  (X : list (list R)) :
  shape N d X -> shape N N (landmark_distances fo X).
Proof.
  intros HX. pose proof HX as [HN _]. split.
  - unfold landmark_distances. now rewrite length_map, length_seq.
  - apply Forall_forall. intros r Hr.
    apply list_elem_of_lookup in Hr as [i Hi].
    apply (landmark_distances_lookup fo N d X i r HX) in Hi.
    pose proof (distances_from_bound _ _ _ _ Hi) as Hlt.
    destruct (distances_from_total fo N d X i HX) as (row & Hrow & Hlen);
      [lia|].
    congruence.
Qed.

Lemma greedy_euclidean_simulates (fo : float_ops) (N d : nat)
  (X : list (list R)) (M : nat) (verbose : bool) (l : list nat) :
  shape N d X ->
  forall st_e st_d st_d',
    gs_perm st_e = gs_perm st_d -> gs_lambdas st_e = gs_lambdas st_d ->
    gs_ds st_e = gs_ds st_d ->
    foldR (greedy_dm_body (landmark_distances fo X) M verbose) st_d l
      = Ok st_d' ->
    exists st_e',
      foldR (greedy_euclidean_body fo X M verbose) st_e l = Ok st_e' /\
      gs_perm st_e' = gs_perm st_d' /\ gs_lambdas st_e' = gs_lambdas st_d' /\
      gs_ds st_e' = gs_ds st_d'.
Proof.
  intros HX.
  induction l as [|i l IH]; intros st_e st_d st_d' Hp Hl Hd Hrun; simpl in *.
  - inversion Hrun; subst. eauto.
  - apply bind_Ok in Hrun as (st1 & Hbody & Hrun).
    unfold greedy_dm_body in Hbody.
    apply bind_Ok in Hbody as (idx & Hidx & Hbody).
    apply bind_Ok in Hbody as (lam & Hlam & Hbody).
    apply bind_Ok in Hbody as (row & Hrow & Hbody).
    apply bind_Ok in Hbody as ([] & Hrep & Hbody).
    inversion Hbody; subst st1; clear Hbody.
    apply index_Ok in Hrow.
    apply (landmark_distances_lookup fo N d X idx row HX) in Hrow.
    unfold greedy_euclidean_body at 1. rewrite Hd, Hidx. simpl.
    rewrite Hlam. simpl. rewrite Hrow. simpl. rewrite Hrep. simpl.
    eapply IH; [| | |exact Hrun]; simpl; congruence.
Qed.

(** The Euclidean sampler returns whenever the distance-matrix sampler
    does on the distances computed from each point, with the same
    permutation and the same insertion radii. *)
Lemma getGreedyPermEuclidean_as_DM (fo : float_ops) (N d : nat)
  (X : list (list R)) (M : nat) (verbose : bool) (res : greedy_perm_dm) :
  shape N d X -> (1 <= M)%nat ->
  getGreedyPermDM (landmark_distances fo X) M verbose = Ok res ->
  exists res', getGreedyPermEuclidean fo X M verbose = Ok res' /\
               ge_perm res' = gd_perm res /\ ge_lambdas res' = gd_lambdas res.
Proof.
  intros HX HM Hrun. unfold getGreedyPermDM in Hrun.
  apply bind_Ok in Hrun as (ds & Hds & Hrun).
  apply bind_Ok in Hrun as (st & Hst & Hrun).
  apply bind_Ok in Hrun as (rows & Hrows & Hrun).
  inversion Hrun; subst res; clear Hrun. simpl.
  apply index_Ok in Hds.
  apply (landmark_distances_lookup fo N d X 0 ds HX) in Hds.
  destruct M as [|M]; [lia|].
  unfold getGreedyPermEuclidean. rewrite Hds. cbn [bind].
  destruct (greedy_euclidean_simulates fo N d X (S M) verbose
              (seq 1 (S M - 1)) HX
              {| gs_perm := replicate (S M) 0%nat;
                 gs_lambdas := replicate (S M) 0;
                 gs_ds := ds;
                 gs_D := <[0%nat := ds]>
                           (replicate (S M) (replicate (length X) 0)) |}
              {| gs_perm := replicate (S M) 0%nat;
                 gs_lambdas := replicate (S M) 0;
                 gs_ds := ds;
                 gs_D := [] |}
              st)
    as (st_e & Hst_e & Hp & Hl & _); [reflexivity.. | exact Hst |].
  rewrite Hst_e. cbn [bind].
  destruct (mapR_total (index X) (gs_perm st_e)) as (Y & HY).
  { rewrite Hp. apply Forall_forall. intros p Hp'.
    apply list_elem_of_lookup in Hp' as [k Hk].
    destruct (mapR_lookup _ _ _ _ _ Hrows Hk) as (row & _ & Hrow).
    apply index_Ok in Hrow.
    apply (landmark_distances_lookup fo N d X p row HX) in Hrow.
    apply distances_from_bound in Hrow.
    destruct (lookup_lt_is_Some_2 X p Hrow) as [x Hx].
    exists x. now apply index_Ok. }
  rewrite HY. simpl. eauto.
Qed.

(** Asked for no landmark, the Euclidean sampler writes the first row of
    an array without rows. *)
Lemma getGreedyPermEuclidean_no_landmark (fo : float_ops) (N d : nat)
  (X : list (list R)) (verbose : bool) :
  shape N d X -> (0 < N)%nat ->
  getGreedyPermEuclidean fo X 0 verbose = Raise IndexError.
Proof.
  intros HX HN.
  destruct (distances_from_total fo N d X 0 HX HN) as (ds & Hds & _).
  unfold getGreedyPermEuclidean. now rewrite Hds.
Qed.

Lemma getGreedyPermEuclidean_progress_error (fo : float_ops) (N d M : nat)
  (X : list (list R)) :
  shape N d X -> (0 < N)%nat -> (2 <= M)%nat -> (M < 20)%nat ->
  getGreedyPermEuclidean fo X M true = Raise ZeroDivisionError.
Proof.
  intros HX HN HM2 HM20.
  destruct (distances_from_total fo N d X 0 HX HN) as (ds & Hds & Hlen).
  unfold getGreedyPermEuclidean. rewrite Hds. cbn [bind].
  destruct M as [|M]; [lia|]. cbn [bind].
  apply bind_Raise.
  replace (S M - 1)%nat with (S (M - 1)) by lia. cbn [seq].
  apply foldR_first_raises.
  unfold greedy_euclidean_body. cbn [gs_ds gs_perm gs_lambdas gs_D].
  destruct (argmax_spec ds) as (idx & lam & Hidx & Hlam & _).
  { intros E. rewrite E in Hlen. simpl in Hlen. lia. }
  rewrite Hidx. cbn [bind]. rewrite (proj2 (index_Ok _ _ _) Hlam). cbn [bind].
  destruct (distances_from_total fo N d X idx HX) as (row & Hrow & _).
  { rewrite <- Hlen. apply lookup_lt_is_Some. eauto. }
  rewrite Hrow. cbn [bind]. now rewrite report_progress_fails by exact HM20.
Qed.

(** The empty input has no first point. *)
Lemma samplers_reject_empty_input (fo : float_ops) (M : nat) (verbose : bool) :
  getGreedyPermDM [] M verbose = Raise IndexError /\
  getGreedyPermEuclidean fo [] M verbose = Raise IndexError.
Proof. split; reflexivity. Qed.

(** ** Evaluating comparisons on concrete reals *)

Ltac decide_cmp :=
  repeat match goal with
  | |- context [Rltb ?a ?b] =>
      first [ rewrite (proj2 (Rltb_true a b)) by lra
            | rewrite (proj2 (Rltb_false a b)) by lra ]
  | |- context [Rmin ?a ?b] =>
      first [ rewrite (Rmin_left a b) by lra
            | rewrite (Rmin_right a b) by lra ]
  | |- context [Rmax ?a ?b] =>
      first [ rewrite (Rmax_left a b) by lra
            | rewrite (Rmax_right a b) by lra ]
  end.

Ltac np_eval := repeat (progress (cbn; decide_cmp)).

(** ** The sampler: distinct landmarks and insertion radii *)







Lemma bounded_longer_than_range_repeats (N : nat) (perm : list nat) :
  Forall (fun p => (p < N)%nat) perm -> (N < length perm)%nat -> ~ NoDup perm.
Proof.
  intros Hb Hlen Hnd.
  assert (Hsub : perm ⊆+ seq 0 N).
  { apply NoDup_submseteq; [exact Hnd|]. intros p Hp.
    rewrite Forall_forall in Hb. apply elem_of_seq. specialize (Hb p Hp). lia. }
  apply submseteq_length in Hsub. rewrite length_seq in Hsub. lia.
Qed.

(** C9 (as amended).  Asked for more landmarks than there are data points
    ([N >= 1]), with the progress report off (or [L >= 20]), neither
    sampler reports it: each returns [L] indices below [N], hence with
    repetitions. *)
Theorem greedy_perm_oversampled_repeats (fo : float_ops) (N L : nat)
  (verbose : bool) :
  (0 < N)%nat -> (N < L)%nat -> quiet verbose L ->
  (forall D : list (list R), shape N N D ->
     exists res, getGreedyPermDM D L verbose = Ok res /\
       length (gd_perm res) = L /\
       Forall (fun p => (p < N)%nat) (gd_perm res) /\
       ~ NoDup (gd_perm res)) /\
  (forall (d : nat) (X : list (list R)), shape N d X ->
     exists res, getGreedyPermEuclidean fo X L verbose = Ok res /\
       length (ge_perm res) = L /\
       Forall (fun p => (p < N)%nat) (ge_perm res) /\
       ~ NoDup (ge_perm res)).
Proof.
  intros HN HL Hq.
  assert (HDM : forall D : list (list R), shape N N D ->
     exists res, getGreedyPermDM D L verbose = Ok res /\
       length (gd_perm res) = L /\
       Forall (fun p => (p < N)%nat) (gd_perm res) /\
       ~ NoDup (gd_perm res)).
  { intros D HD.
    destruct (getGreedyPermDM_inv N L verbose D HD)
      as (res & st & Hres & Hp & _ & Hinv); [lia | lia | exact Hq |].
    exists res. rewrite Hp.
    pose proof (gi_perm_length _ _ _ _ _ Hinv) as Hlen.
    pose proof (gi_perm_bound _ _ _ _ _ Hinv) as Hb.
    repeat split; try assumption.
    apply (bounded_longer_than_range_repeats N); [exact Hb | lia]. }
  split; [exact HDM|].
  intros d X HX.
  destruct (HDM (landmark_distances fo X)) as (res & Hres & Hlen & Hb & Hnd).
  { eapply landmark_distances_shape; eauto. }
  destruct (getGreedyPermEuclidean_as_DM fo N d X L verbose res HX)
    as (res' & Hres' & Hp & _); [lia | exact Hres |].
  exists res'. rewrite Hp. auto.
Qed.

Lemma greedy_perm_oversampled_repeats_witness :
  exists res, getGreedyPermDM [[0; 1]; [1; 0]] 3 false = Ok res /\
    length (gd_perm res) = 3%nat /\
    Forall (fun p => (p < 2)%nat) (gd_perm res) /\
    ~ NoDup (gd_perm res).
Proof.
  apply (proj1 (greedy_perm_oversampled_repeats exact_ops 2 3 false
                  ltac:(lia) ltac:(lia) ltac:(now left))).
  split; [reflexivity | repeat constructor].
Defined.

(** C9, counterexample.  One data point, two landmarks requested: the
    sampler returns the point twice and raises nothing; with the progress
    report on, it raises the [ZeroDivisionError] of that report. *)
Lemma greedy_perm_no_error_when_oversampled :
  getGreedyPermDM [[0]] 2 false =
    Ok {| gd_perm := [0%nat; 0%nat]; gd_lambdas := [0; 0];
          gd_DLandmarks := [[0]; [0]] |} /\
  getGreedyPermDM [[0]] 2 true = Raise ZeroDivisionError.
Proof.
  split; unfold getGreedyPermDM, greedy_dm_body; np_eval; reflexivity.
Qed.

(** C10 (as amended).  On every non-empty input and for every [M >= 1],
    with the progress report off (or [M = 1], or [M >= 20]), both samplers
    return a permutation that starts with index 0 and insertion radii that
    start with 0: the loop writes positions [1 .. M-1] only. *)
Theorem greedy_perm_seed_is_first_point (fo : float_ops) (N M : nat)
  (verbose : bool) :
  (0 < N)%nat -> (1 <= M)%nat -> quiet verbose M ->
  (forall D : list (list R), shape N N D ->
     exists res, getGreedyPermDM D M verbose = Ok res /\
       gd_perm res !! 0%nat = Some 0%nat /\
       gd_lambdas res !! 0%nat = Some 0) /\
  (forall (d : nat) (X : list (list R)), shape N d X ->
     exists res, getGreedyPermEuclidean fo X M verbose = Ok res /\
       ge_perm res !! 0%nat = Some 0%nat /\
       ge_lambdas res !! 0%nat = Some 0).
Proof.
  intros HN HM Hq.
  assert (HDM : forall D : list (list R), shape N N D ->
     exists res, getGreedyPermDM D M verbose = Ok res /\
       gd_perm res !! 0%nat = Some 0%nat /\
       gd_lambdas res !! 0%nat = Some 0).
  { intros D HD.
    destruct (getGreedyPermDM_inv N M verbose D HD HN HM Hq)
      as (res & st & Hres & Hp & Hl & Hinv).
    exists res. rewrite Hp, Hl.
    split; [exact Hres|]. split.
    - apply (gi_perm_0 _ _ _ _ _ Hinv).
    - apply (gi_lambdas_0 _ _ _ _ _ Hinv). }
  split; [exact HDM|].
  intros d X HX.
  destruct (HDM (landmark_distances fo X)) as (res & Hres & Hp0 & Hl0).
  { eapply landmark_distances_shape; eauto. }
  destruct (getGreedyPermEuclidean_as_DM fo N d X M verbose res HX HM Hres)
    as (res' & Hres' & Hp & Hl).
  exists res'. rewrite Hp, Hl. auto.
Qed.

Lemma greedy_perm_seed_is_first_point_witness :
  exists res, getGreedyPermDM [[0; 1]; [1; 0]] 2 false = Ok res /\
    gd_perm res !! 0%nat = Some 0%nat /\
    gd_lambdas res !! 0%nat = Some 0.
Proof.
  apply (proj1 (greedy_perm_seed_is_first_point exact_ops 2 2 false
                  ltac:(lia) ltac:(lia) ltac:(now left)) [[0; 1]; [1; 0]]).
  split; [reflexivity | repeat constructor].
Defined.

(** C10, counterexample.  The empty input has no first point, and with the
    progress report on and two landmarks the first step divides by zero:
    in both cases nothing is returned. *)
Lemma greedy_perm_seed_needs_an_input :
  getGreedyPermDM [] 1 false = Raise IndexError /\
  getGreedyPermEuclidean exact_ops [] 1 false = Raise IndexError /\
  getGreedyPermDM [[0; 1]; [1; 0]] 2 true = Raise ZeroDivisionError.
Proof.
  split; [reflexivity | split; [reflexivity|]].
  unfold getGreedyPermDM, greedy_dm_body. np_eval. reflexivity.
Qed.

(** ** Columns of a matrix *)

Lemma col_step {A : Type} (j : nat) (r : list A) (m : list (list A)) :
  col j (r :: m)
  = match r !! j with Some a => a :: col j m | None => col j m end.
Proof. reflexivity. Qed.

Lemma col_cons {A : Type} (j : nat) (r : list A) (m : list (list A)) (a : A) :
  r !! j = Some a -> col j (r :: m) = a :: col j m.
Proof. intros H. unfold col. simpl. now rewrite H. Qed.

Lemma col_shape {A : Type} (n w j : nat) (m : list (list A)) :
  shape n w m -> (j < w)%nat -> length (col j m) = n.
Proof.
  intros [Hn Hw] Hj. subst n. induction m as [|r m IH]; [reflexivity|].
  apply Forall_cons in Hw as [Hr Hw].
  destruct (lookup_lt_is_Some_2 r j) as [a Ha]; [lia|].
  rewrite (col_cons j r m a Ha). simpl. f_equal. now apply IH.
Qed.

Lemma col_lookup {A : Type} (n w j : nat) (m : list (list A)) (i : nat) :
  shape n w m -> (j < w)%nat ->
  col j m !! i = (m !! i) ≫= (fun r => r !! j).
Proof.
  intros [Hn Hw] Hj. clear Hn. revert i.
  induction m as [|r m IH]; intros i; [reflexivity|].
  apply Forall_cons in Hw as [Hr Hw].
  destruct (lookup_lt_is_Some_2 r j) as [a Ha]; [lia|].
  rewrite (col_cons j r m a Ha). destruct i as [|i]; simpl.
  - now rewrite Ha.
  - now apply IH.
Qed.

Lemma col_map {A B : Type} (g : A -> B) (j : nat) (m : list (list A)) :
  col j (map (map g) m) = map g (col j m).
Proof.
  induction m as [|r m IH]; [reflexivity|].
  change (map (map g) (r :: m)) with (map g r :: map (map g) m).
  rewrite !col_step, IH, lookup_map.
  destruct (r !! j); reflexivity.
Qed.

Lemma col_zip_rows {A B C : Type} (f : A -> B -> C) (s : list B) (sj : B)
  (n w j : nat) (m : list (list A)) :
  shape n w m -> s !! j = Some sj -> (j < w)%nat ->
  col j (map (fun row => zip_with f row s) m)
  = map (fun a => f a sj) (col j m).
Proof.
  intros [_ Hw] Hs Hj. induction m as [|r m IH]; [reflexivity|].
  apply Forall_cons in Hw as [Hr Hw].
  destruct (lookup_lt_is_Some_2 r j) as [a Ha]; [lia|].
  rewrite (col_cons j r m a Ha). cbn [map].
  rewrite (col_cons j _ _ (f a sj)).
  - f_equal. now apply IH.
  - rewrite lookup_zip_with, Ha. simpl. now rewrite Hs.
Qed.

Lemma ncols_shape {A : Type} (n w : nat) (m : list (list A)) :
  shape n w m -> (0 < n)%nat -> ncols m = w.
Proof.
  intros [Hn Hw] Hpos. destruct m as [|r m]; simpl in *; [lia|].
  now apply Forall_cons in Hw as [Hr _].
Qed.

Lemma shape_map_rows {A B : Type} (f : list A -> list B) (n w w' : nat)
  (m : list (list A)) :
  shape n w m -> (forall r, length r = w -> length (f r) = w') ->
  shape n w' (map f m).
Proof.
  intros [Hn Hw] Hf. split; [now rewrite length_map|].
  rewrite Forall_forall in Hw. apply Forall_forall. intros r Hr.
  apply list_elem_of_lookup in Hr as [i Hi]. rewrite lookup_map in Hi.
  destruct (m !! i) as [r0|] eqn:E; simpl in Hi; inversion Hi.
  apply Hf, Hw. eapply list_elem_of_lookup_2; eauto.
Qed.

Lemma transpose_shape {A : Type} (n w : nat) (m : list (list A)) :
  shape n w m -> (0 < n)%nat -> shape w n (transpose m).
Proof.
  intros Hm Hpos. unfold transpose. rewrite (ncols_shape n w m Hm Hpos).
  split; [now rewrite length_map, length_seq|].
  apply Forall_forall. intros c Hc.
  apply list_elem_of_lookup in Hc as [j Hj]. rewrite lookup_map in Hj.
  destruct (seq 0 w !! j) as [j'|] eqn:E; simpl in Hj; inversion Hj.
  apply lookup_seq in E as [-> Hlt]. now apply (col_shape n w).
Qed.

Lemma transpose_lookup {A : Type} (n w j : nat) (m : list (list A)) :
  shape n w m -> (0 < n)%nat -> (j < w)%nat ->
  transpose m !! j = Some (col j m).
Proof.
  intros Hm Hpos Hj. unfold transpose. rewrite (ncols_shape n w m Hm Hpos).
  rewrite lookup_map, lookup_seq_lt by lia. reflexivity.
Qed.

(** ** Sums of finite values *)

Lemma fsum_Fin (l : list R) : fsum (map Fin l) = Fin (sum_list l).
Proof.
  induction l as [|a l IH]; [reflexivity|].
  change (fsum (map Fin (a :: l))) with (fadd (Fin a) (fsum (map Fin l))).
  now rewrite IH.
Qed.

Lemma sum_list_scale (c : R) (l : list R) :
  sum_list (map (fun a => a * c) l) = sum_list l * c.
Proof.
  induction l as [|a l IH]; [unfold sum_list; simpl; lra|].
  change (sum_list (map (fun a => a * c) (a :: l)))
    with (a * c + sum_list (map (fun a => a * c) l)).
  change (sum_list (a :: l)) with (a + sum_list l).
  rewrite IH. lra.
Qed.

Lemma sum_list_nonneg (l : list R) :
  Forall (fun a => 0 <= a) l -> 0 <= sum_list l.
Proof.
  induction 1 as [|a l Ha _ IH]; [unfold sum_list; simpl; lra|].
  change (sum_list (a :: l)) with (a + sum_list l). lra.
Qed.

(** ** The partition of unity *)

Lemma bumps_finite (dist : list (list R)) (rc : R) :
  bumps dist (Fin rc)
  = map (map Fin) (map (map (fun d => if Rltb d rc then rc - d else 0)) dist).
Proof.
  unfold bumps. rewrite map_map. apply map_ext. intros row.
  rewrite map_map. apply map_ext. intros d. simpl.
  destruct (Rltb d rc); reflexivity.
Qed.


Lemma fsum_const_zero {A : Type} (l : list A) :
  fsum (map (fun _ => Fin 0) l) = Fin 0.
Proof.
  induction l as [|a l IH]; [reflexivity|].
  change (fsum (map (fun _ => Fin 0) (a :: l)))
    with (fadd (Fin 0) (fsum (map (fun _ : A => Fin 0) l))).
  rewrite IH. simpl. f_equal. lra.
Qed.



Lemma fdiv_Fin (a b : R) : b <> 0 -> fdiv (Fin a) (Fin b) = Fin (a / b).
Proof. intros Hb. simpl. destruct (Req_dec_T b 0); [contradiction | reflexivity]. Qed.

Lemma column_sums_lookup (n w j : nat) (phi : list (list float64)) :
  shape n w phi -> (0 < n)%nat -> (j < w)%nat ->
  column_sums phi !! j = Some (fsum (col j phi)).
Proof.
  intros Hphi Hn Hj. unfold column_sums.
  rewrite (ncols_shape n w phi Hphi Hn), lookup_map, lookup_seq_lt by lia.
  reflexivity.
Qed.





(** ** The sign matrix *)

Lemma foldR_invariant {A S : Type} (P : S -> Prop) (f : S -> A -> result S)
  (l : list A) :
  (forall s a s', P s -> f s a = Ok s' -> P s') ->
  forall s s', P s -> foldR f s l = Ok s' -> P s'.
Proof.
  intros Hstep. induction l as [|a l IH]; intros s s' Hs Hrun; simpl in Hrun.
  - inversion Hrun; subst. exact Hs.
  - apply bind_Ok in Hrun as (s1 & H1 & Hrun). eauto.
Qed.

Lemma set_entry_sign_matrix (n : nat) (m m' : list (list float64))
  (a b : nat) :
  sign_matrix n m -> set_entry m a b (Fin (-1)) = Ok m' -> sign_matrix n m'.
Proof.
  intros [[Hn Hw] Hs] Hset. unfold set_entry in Hset.
  apply bind_Ok in Hset as (row & Hrow & Hset).
  apply bind_Ok in Hset as (v & Hv & Hset). inversion Hset; subst m'.
  apply index_Ok in Hrow.
  assert (Hin : row ∈ m) by (eapply list_elem_of_lookup_2; eauto).
  rewrite Forall_forall in Hw, Hs.
  split; [split|].
  - now rewrite length_insert.
  - apply Forall_insert; [now apply Forall_forall|].
    rewrite length_insert. now apply Hw.
  - apply Forall_insert; [now apply Forall_forall|].
    apply Forall_insert; [now apply Hs | now right].
Qed.

Lemma cocycle_matrix_sign_matrix (n : nat) (c : cocycle)
  (signs : list (list float64)) :
  cocycle_matrix n c = Ok signs -> sign_matrix n signs.
Proof.
  unfold cocycle_matrix. intros H.
  apply bind_Ok in H as (m & Hm & H).
  assert (H0 : sign_matrix n (replicate n (replicate n (Fin 1)))).
  { split; [split|].
    - apply length_replicate.
    - apply Forall_replicate, length_replicate.
    - apply Forall_replicate, Forall_replicate. now left. }
  assert (H1 : sign_matrix n m).
  { eapply (foldR_invariant (sign_matrix n)); [|exact H0|exact Hm].
    intros s e s' Hs He. cbv beta in He.
    exact (set_entry_sign_matrix n s s' _ _ Hs He). }
  eapply (foldR_invariant (sign_matrix n)); [|exact H1|exact H].
  intros s e s' Hs He. cbv beta in He.
  exact (set_entry_sign_matrix n s s' _ _ Hs He).
Qed.

(** ** The classifying map *)

Lemma first_true_bound (l : list bool) (i k : nat) :
  first_true i l = Some k -> (i <= k)%nat /\ (k < i + length l)%nat.
Proof.
  revert i. induction l as [|b l IH]; intros i H; simpl in H; [discriminate|].
  destruct b.
  - inversion H; subst. simpl. lia.
  - apply IH in H. simpl. lia.
Qed.

Lemma argmax_bool_bound (l : list bool) :
  (0 < length l)%nat -> (argmax_bool l < length l)%nat.
Proof.
  intros Hl. unfold argmax_bool.
  destruct (first_true 0 l) as [k|] eqn:E; [|exact Hl].
  apply first_true_bound in E. lia.
Qed.

Lemma ball_index_lookup (L N i : nat) (U : list (list bool)) :
  shape L N U -> (0 < L)%nat -> (i < N)%nat ->
  exists b, ball_index U !! i = Some b /\ (b < L)%nat.
Proof.
  intros HU HL Hi. unfold ball_index.
  rewrite (ncols_shape L N U HU HL), lookup_map, lookup_seq_lt by lia.
  simpl. eexists. split; [reflexivity|].
  pose proof (col_shape L N i U HU Hi) as Hc.
  pose proof (argmax_bool_bound (col i U)) as Hb. lia.
Qed.

(** The loop of the classifying map rewrites rows [k .. k+n-1], each with
    the sign row of its ball, and leaves the others alone. *)
Lemma classifying_loop (signs : list (list float64)) (ball_indx : list nat) :
  forall n k cm,
    (k + n <= length cm)%nat ->
    (forall i, (k <= i)%nat -> (i < k + n)%nat ->
       exists b s, ball_indx !! i = Some b /\ signs !! b = Some s) ->
    exists cm',
      foldR (fun (cm : list (list float64)) i =>
               row <- index cm i ;;
               b <- index ball_indx i ;;
               s <- index signs b ;;
               Ok (<[i := zip_with fmul row s]> cm)) cm (seq k n) = Ok cm' /\
      length cm' = length cm /\
      (forall i, (i < k)%nat \/ (k + n <= i)%nat -> cm' !! i = cm !! i) /\
      (forall i row b s, (k <= i)%nat -> (i < k + n)%nat ->
         cm !! i = Some row -> ball_indx !! i = Some b ->
         signs !! b = Some s -> cm' !! i = Some (zip_with fmul row s)).
Proof.
  induction n as [|n IH]; intros k cm Hlen Hidx.
  - exists cm. simpl. repeat split; intros; try reflexivity; lia.
  - destruct (Hidx k) as (b & s & Hb & Hs); [lia | lia |].
    destruct (lookup_lt_is_Some_2 cm k) as [row Hrow]; [lia|].
    cbn [seq foldR].
    rewrite (proj2 (index_Ok _ _ _) Hrow). cbn [bind].
    rewrite (proj2 (index_Ok _ _ _) Hb). cbn [bind].
    rewrite (proj2 (index_Ok _ _ _) Hs). cbn [bind].
    destruct (IH (S k) (<[k := zip_with fmul row s]> cm))
      as (cm' & Hrun & Hlen' & Hout & Hin).
    + rewrite length_insert. lia.
    + intros i H1 H2. apply Hidx; lia.
    + exists cm'. split; [exact Hrun|]. rewrite length_insert in Hlen'.
      split; [exact Hlen'|]. split.
      * intros i Hi. rewrite Hout by lia.
        apply list_lookup_insert_ne. lia.
      * intros i row' b' s' H1 H2 Hrow' Hb' Hs'.
        destruct (decide (i = k)) as [->|Hne].
        -- rewrite Hout by lia. rewrite list_lookup_insert_eq by lia.
           congruence.
        -- apply (Hin i row' b' s'); try assumption; try lia.
           now rewrite list_lookup_insert_ne by lia.
Qed.


Lemma bumps_shape (L N : nat) (dist : list (list R)) (r : float64) :
  shape L N dist -> shape L N (bumps dist r).
Proof.
  intros H. unfold bumps. eapply shape_map_rows; [exact H|].
  intros row Hrow. now rewrite length_map.
Qed.

Lemma cover_sets_shape (L N : nat) (dist : list (list R)) (r : float64) :
  shape L N dist -> shape L N (cover_sets dist r).
Proof.
  intros H. unfold cover_sets. eapply shape_map_rows; [exact H|].
  intros row Hrow. now rewrite length_map.
Qed.

Lemma partition_of_unity_shape (L N : nat) (phi : list (list float64)) :
  shape L N phi -> (0 < L)%nat -> shape L N (partition_of_unity phi).
Proof.
  intros H HL. unfold partition_of_unity.
  eapply shape_map_rows; [exact H|]. intros row Hrow.
  rewrite length_zip_with. unfold column_sums.
  rewrite length_map, length_seq, (ncols_shape L N phi H HL). lia.
Qed.

(** The class map exists as soon as the sign matrix does, and its rows are
    the signed square roots of the columns of the partition of unity. *)
Lemma classifying_map_rows (L N : nat) (dist : list (list R)) (r : float64)
  (signs : list (list float64)) :
  shape L N dist -> (0 < L)%nat -> sign_matrix L signs ->
  exists cm,
    classifying_map N (partition_of_unity (bumps dist r)) signs
      (ball_index (cover_sets dist r)) = Ok cm /\
    length cm = N /\
    forall i row, cm !! i = Some row ->
      (i < N)%nat /\
      exists s, s ∈ signs /\
        row = zip_with fmul
                (map fsqrt (col i (partition_of_unity (bumps dist r)))) s.
Proof.
  intros Hdist HL [Hshape Hsigns].
  pose proof (partition_of_unity_shape L N _ (bumps_shape L N dist r Hdist) HL)
    as Hvar.
  pose proof (transpose_shape L N _ Hvar HL) as [HTlen _].
  unfold classifying_map.
  destruct (classifying_loop signs (ball_index (cover_sets dist r)) N 0
              (map (map fsqrt)
                 (transpose (partition_of_unity (bumps dist r)))))
    as (cm & Hrun & Hlen & _ & Hrows).
  { rewrite length_map. lia. }
  { intros i _ Hi.
    destruct (ball_index_lookup L N i _ (cover_sets_shape L N dist r Hdist) HL)
      as (b & Hb & HbL); [lia|].
    destruct (shape_row L L signs b Hshape HbL) as (s & Hs & _). eauto. }
  exists cm. split; [exact Hrun|]. rewrite length_map, HTlen in Hlen.
  split; [exact Hlen|]. intros i row Hrow.
  assert (Hi : (i < N)%nat).
  { rewrite <- Hlen. apply lookup_lt_is_Some. eauto. }
  split; [exact Hi|].
  destruct (ball_index_lookup L N i _ (cover_sets_shape L N dist r Hdist) HL Hi)
    as (b & Hb & HbL).
  destruct (shape_row L L signs b Hshape HbL) as (s & Hs & _).
  exists s. split; [eapply list_elem_of_lookup_2; eauto|].
  assert (H0 : map (map fsqrt) (transpose (partition_of_unity (bumps dist r)))
               !! i
               = Some (map fsqrt (col i (partition_of_unity (bumps dist r))))).
  { rewrite lookup_map, (transpose_lookup L N i _ Hvar HL Hi). reflexivity. }
  specialize (Hrows i _ b s ltac:(lia) ltac:(lia) H0 Hb Hs). congruence.
Qed.



(** ** Uncovered points *)

Lemma uncovered_column (L N j : nat) (dist : list (list R)) (rc : R) :
  shape L N dist -> (0 < L)%nat -> (j < N)%nat ->
  Forall (fun d => rc <= d) (col j dist) ->
  col j (partition_of_unity (bumps dist (Fin rc)))
  = map (fun _ => NaN) (col j dist).
Proof.
  intros Hdist HL Hj Hfar.
  pose proof (bumps_shape L N dist (Fin rc) Hdist) as Hphi.
  assert (Hcol : col j (bumps dist (Fin rc))
                 = map (fun _ => Fin 0) (col j dist)).
  { rewrite bumps_finite, !col_map, map_map. apply map_ext_Forall.
    eapply Forall_impl; [exact Hfar|]. intros d Hd. simpl in Hd.
    now rewrite (proj2 (Rltb_false d rc)) by lra. }
  unfold partition_of_unity.
  rewrite (col_zip_rows fdiv _ (Fin 0) L N j _ Hphi); [| |exact Hj].
  2:{ rewrite (column_sums_lookup L N j _ Hphi HL Hj), Hcol.
      now rewrite fsum_const_zero. }
  rewrite Hcol, map_map. apply map_ext. intros d. simpl.
  destruct (Req_dec_T 0 0) as [_|Hne]; [|lra].
  now rewrite (proj2 (Rltb_false 0 0)) by lra.
Qed.

(** When no landmark ball of radius [rc] contains data point [j], column
    [j] of the partition of unity is all NaN (each entry is [0/0]), the
    class map is still built, and its row [j] is all NaN. *)
Lemma uncovered_row_nan (L N j : nat) (dist : list (list R))
  (rc : R) (signs : list (list float64)) :
  shape L N dist -> (0 < L)%nat -> (j < N)%nat ->
  Forall (fun d => rc <= d) (col j dist) ->
  sign_matrix L signs ->
  exists cm,
    classifying_map N (partition_of_unity (bumps dist (Fin rc))) signs
      (ball_index (cover_sets dist (Fin rc))) = Ok cm /\
    length cm = N /\
    cm !! j = Some (replicate L NaN).
Proof.
  intros Hdist HL Hj Hfar Hsigns.
  pose proof (uncovered_column L N j dist rc Hdist HL Hj Hfar) as Hcol.
  pose proof (col_shape L N j dist Hdist Hj) as Hlen.
  destruct (classifying_map_rows L N dist (Fin rc) signs Hdist HL Hsigns)
    as (cm & Hrun & Hcm & Hrows).
  destruct (lookup_lt_is_Some_2 cm j) as [row Hrow]; [lia|].
  exists cm. split; [exact Hrun|]. split; [exact Hcm|].
  rewrite Hrow. f_equal.
  destruct (Hrows j row Hrow) as (_ & s & Hs & ->).
  destruct Hsigns as [[_ Hw] _]. rewrite Forall_forall in Hw.
  rewrite Hcol, map_map.
  apply list_eq. intros k.
  destruct (decide (k < L)%nat) as [Hk|Hk].
  - rewrite lookup_replicate_2 by exact Hk.
    destruct (lookup_lt_is_Some_2 (col j dist) k) as [a Ha]; [lia|].
    destruct (lookup_lt_is_Some_2 s k) as [b Hb];
      [rewrite (Hw s Hs); lia|].
    apply lookup_zip_with_Some. exists NaN, b.
    split; [reflexivity|]. split; [|exact Hb].
    rewrite lookup_map, Ha. reflexivity.
  - rewrite (lookup_ge_None_2 (replicate L NaN)) by (rewrite length_replicate; lia).
    apply lookup_ge_None_2.
    rewrite length_zip_with, length_map, Hlen. lia.
Qed.

(** ** The cover radius *)

Lemma py_max_Fin (a b : R) : py_max (Fin a) (Fin b) = Fin (Rmax a b).
Proof.
  unfold py_max. simpl. destruct (Rltb a b) eqn:E.
  - apply Rltb_true in E. now rewrite Rmax_right by lra.
  - apply Rltb_false in E. now rewrite Rmax_left by lra.
Qed.

Lemma py_min_Fin (a b : R) : py_min (Fin a) (Fin b) = Fin (Rmin a b).
Proof.
  unfold py_min. simpl. destruct (Rltb b a) eqn:E.
  - apply Rltb_true in E. now rewrite Rmin_right by lra.
  - apply Rltb_false in E. now rewrite Rmin_left by lra.
Qed.

Lemma select_classes_fold (ext : externals) (dgm1 : list (R * R))
  (cocycles : list cocycle) (idx_p1 cocycle_idx : list nat) :
  forall s0 s,
    foldR (fun (s : Dreimac.selection) (ck : nat) =>
             i <- index idx_p1 ck ;;
             c <- index cocycles i ;;
             bd <- index dgm1 i ;;
             Ok {| Dreimac.sel_cocycle :=
                     add_cocycles ext (Dreimac.sel_cocycle s) c;
                   Dreimac.sel_cohomdeath :=
                     py_max (Dreimac.sel_cohomdeath s) (Fin (fst bd));
                   Dreimac.sel_cohombirth :=
                     py_min (Dreimac.sel_cohombirth s) (Fin (snd bd)) |})
          s0 cocycle_idx = Ok s ->
    exists sel,
      selected_pairs dgm1 idx_p1 cocycle_idx = Ok sel /\
      Dreimac.sel_cohomdeath s
      = foldl (fun acc bd => py_max acc (Fin (fst bd)))
              (Dreimac.sel_cohomdeath s0) sel /\
      Dreimac.sel_cohombirth s
      = foldl (fun acc bd => py_min acc (Fin (snd bd)))
              (Dreimac.sel_cohombirth s0) sel.
Proof.
  unfold selected_pairs.
  induction cocycle_idx as [|k l IH]; intros s0 s Hrun; simpl in Hrun.
  - inversion Hrun; subst. exists []. auto.
  - apply bind_Ok in Hrun as (s1 & Hbody & Hrun).
    apply bind_Ok in Hbody as (i & Hi & Hbody).
    apply bind_Ok in Hbody as (c & Hc & Hbody).
    apply bind_Ok in Hbody as (bd & Hbd & Hbody).
    inversion Hbody; subst s1; clear Hbody.
    destruct (IH _ _ Hrun) as (sel & Hsel & Hd & Hb).
    exists (bd :: sel). simpl. rewrite Hi. simpl. rewrite Hbd. simpl.
    rewrite Hsel. simpl. auto.
Qed.

Lemma foldl_py_max_Fin (a : R) (l : list (R * R)) :
  foldl (fun acc bd => py_max acc (Fin (fst bd))) (Fin a) l
  = Fin (foldl Rmax a (map fst l)).
Proof.
  revert a. induction l as [|bd l IH]; intros a; [reflexivity|].
  simpl. now rewrite py_max_Fin, IH.
Qed.

Lemma foldl_py_min_Fin (a : R) (l : list (R * R)) :
  foldl (fun acc bd => py_min acc (Fin (snd bd))) (Fin a) l
  = Fin (foldl Rmin a (map snd l)).
Proof.
  revert a. induction l as [|bd l IH]; intros a; [reflexivity|].
  simpl. now rewrite py_min_Fin, IH.
Qed.

Lemma selected_pairs_halved (dgms1 : list (R * R)) (idx_p1 cidx : list nat)
  (sel : list (R * R)) :
  selected_pairs (map (fun bd : R * R => (fst bd / 2, snd bd / 2)) dgms1)
    idx_p1 cidx = Ok sel ->
  exists raw, selected_pairs dgms1 idx_p1 cidx = Ok raw /\
              sel = map (fun bd : R * R => (fst bd / 2, snd bd / 2)) raw.
Proof.
  unfold selected_pairs. revert sel.
  induction cidx as [|k l IH]; intros sel H; simpl in H.
  - inversion H. exists []. auto.
  - apply bind_Ok in H as (bd & Hbd & H).
    apply bind_Ok in H as (sel' & Hsel' & H). inversion H; subst sel.
    apply bind_Ok in Hbd as (i & Hi & Hbd). apply index_Ok in Hbd.
    rewrite lookup_map in Hbd.
    destruct (dgms1 !! i) as [raw0|] eqn:E; simpl in Hbd; inversion Hbd.
    destruct (IH _ Hsel') as (raw & Hraw & ->).
    exists (raw0 :: raw). simpl. rewrite Hi. simpl.
    rewrite (proj2 (index_Ok _ _ _) E). simpl. rewrite Hraw. simpl. auto.
Qed.

(** What [cover_radius] computes: the diagram is halved, and the radius
    interpolates between the largest halved birth (or the coverage, when
    larger) and the smallest halved death of the selected classes. *)
Lemma cover_radius_spec (ext : externals) (dgms1 : list (R * R))
  (cocycles : list cocycle) (dist : list (list R)) (perc : R)
  (cidx : list nat) (dgm1 : list (R * R)) (idx_p1 : list nat) (c : cocycle)
  (r : float64) :
  Dreimac.cover_radius ext dgms1 cocycles dist perc cidx
    = Ok (dgm1, idx_p1, c, r) ->
  dgm1 = map (fun bd : R * R => (fst bd / 2, snd bd / 2)) dgms1 /\
  exists raw cov bmax dmin,
    selected_pairs dgms1 idx_p1 cidx = Ok raw /\
    coverage dist = Ok cov /\
    amax (map (fun bd : R * R => fst bd / 2) raw) = Ok bmax /\
    amin (map (fun bd : R * R => snd bd / 2) raw) = Ok dmin /\
    r = Fin ((1 - perc) * Rmax bmax cov + perc * dmin).
Proof.
  unfold Dreimac.cover_radius, Dreimac.select_classes. intros H.
  apply bind_Ok in H as (k0 & Hk0 & H).
  apply bind_Ok in H as (i0 & Hi0 & H).
  apply bind_Ok in H as (c0 & Hc0 & H).
  apply bind_Ok in H as (s & Hs & H).
  apply bind_Ok in H as (cov & Hcov & H).
  inversion H; subst dgm1 idx_p1 c r; clear H.
  split; [reflexivity|].
  destruct (select_classes_fold _ _ _ _ _ _ _ Hs) as (sel & Hsel & Hd & Hb).
  destruct (selected_pairs_halved _ _ _ _ Hsel) as (raw & Hraw & ->).
  simpl in Hd, Hb.
  destruct raw as [|[b0 d0] raw].
  { destruct cidx; [discriminate|]. unfold selected_pairs in Hraw.
    simpl in Hraw. apply bind_Ok in Hraw as (? & _ & Hraw).
    apply bind_Ok in Hraw as (? & _ & Hraw). discriminate. }
  exists ((b0, d0) :: raw), cov,
    (foldl Rmax (b0 / 2) (map (fun bd : R * R => fst bd / 2) raw)),
    (foldl Rmin (d0 / 2) (map (fun bd : R * R => snd bd / 2) raw)).
  split; [exact Hraw|]. split; [exact Hcov|].
  split; [reflexivity|]. split; [reflexivity|].
  unfold radius_formula. rewrite Hd, Hb. cbn [map foldl fst snd].
  change (py_max NInf (Fin (b0 / 2))) with (Fin (b0 / 2)).
  change (py_min PInf (Fin (d0 / 2))) with (Fin (d0 / 2)).
  rewrite foldl_py_max_Fin, foldl_py_min_Fin, !map_map.
  cbn [fst snd]. rewrite py_max_Fin. reflexivity.
Qed.

Lemma double_halved (dgms1 : list (R * R)) :
  map (fun bd : R * R => (fst bd * 2, snd bd * 2))
      (map (fun bd : R * R => (fst bd / 2, snd bd / 2)) dgms1) = dgms1.
Proof.
  rewrite map_map. rewrite <- (map_id dgms1) at 2. apply map_ext.
  intros [b d]. simpl. f_equal; field.
Qed.

(** ** The worked example *)

Lemma five_points_sampled :
  getGreedyPermDM five_points 4 false =
    Ok {| gd_perm := [0; 2; 1; 3]%nat; gd_lambdas := [0; 12; 8; 8];
          gd_DLandmarks := five_points_landmarks |}.
Proof.
  unfold getGreedyPermDM, greedy_dm_body, five_points. np_eval. reflexivity.
Qed.

Lemma five_points_coverage :
  coverage five_points_landmarks = Ok 0 /\
  coverage_spec five_points_landmarks = Ok 5.
Proof.
  split.
  - unfold coverage, five_points_landmarks. np_eval. reflexivity.
  - unfold coverage_spec, five_points_landmarks. np_eval. reflexivity.
Qed.

Lemma five_points_radius :
  exists r,
    Dreimac.cover_radius example_externals [(8, 12)]
      [[(2%nat, 0%nat, 1%nat)]] five_points_landmarks (1 / 2) [0%nat]
    = Ok ([(8 / 2, 12 / 2)], [0%nat], [(2%nat, 0%nat, 1%nat)], Fin r) /\
    r = 5.
Proof.
  eexists. split.
  - unfold Dreimac.cover_radius, Dreimac.select_classes, coverage,
      radius_formula, py_max, py_min, five_points_landmarks.
    np_eval. reflexivity.
  - lra.
Qed.

Lemma foldl_Rmin_spec (l : list R) (a : R) :
  foldl Rmin a l <= a /\ Forall (fun x => foldl Rmin a l <= x) l /\
  (foldl Rmin a l = a \/ foldl Rmin a l ∈ l).
Proof.
  revert a. induction l as [|x l IH]; intros a; simpl.
  - split; [lra|]. split; [constructor | now left].
  - destruct (IH (Rmin a x)) as (H1 & H2 & H3).
    pose proof (Rmin_l a x). pose proof (Rmin_r a x).
    split; [lra|]. split.
    + constructor; [lra | exact H2].
    + destruct H3 as [H3 | H3].
      * rewrite H3. unfold Rmin. destruct (Rle_dec a x); [now left|].
        right. left.
      * right. now right.
Qed.

Lemma amin_zero (row : list R) :
  0 ∈ row -> Forall (fun x => 0 <= x) row -> amin row = Ok 0.
Proof.
  intros H0 Hpos. destruct row as [|a row]; [inversion H0|].
  simpl. f_equal.
  destruct (foldl_Rmin_spec row a) as (H1 & H2 & H3).
  apply Forall_cons in Hpos as [Ha Hrow].
  rewrite Forall_forall in H2, Hrow.
  assert (Hge : 0 <= foldl Rmin a row).
  { destruct H3 as [-> | H3]; [exact Ha | now apply Hrow]. }
  assert (Hle : foldl Rmin a row <= 0).
  { apply elem_of_cons in H0 as [<- | H0]; [exact H1 | now apply H2]. }
  lra.
Qed.

Lemma foldl_Rmax_zeros {A : Type} (l : list A) :
  foldl Rmax 0 (map (fun _ => 0) l) = 0.
Proof.
  induction l as [|a l IH]; [reflexivity|].
  cbn [map foldl]. rewrite Rmax_left by lra. exact IH.
Qed.

(** Every landmark is one of the data points, at distance 0 from itself:
    the value [coverage] computes is then 0, whatever the data. *)
Lemma coverage_zero_when_landmarks_are_data (dist : list (list R)) :
  dist <> [] ->
  Forall (fun row => 0 ∈ row /\ Forall (fun x => 0 <= x) row) dist ->
  coverage dist = Ok 0.
Proof.
  intros Hne Hrows. unfold coverage.
  assert (E : mapR amin dist = Ok (map (fun _ => 0) dist)).
  { clear Hne. induction Hrows as [|row dist [H0 Hpos] _ IH]; [reflexivity|].
    simpl. rewrite (amin_zero row H0 Hpos). simpl. rewrite IH. reflexivity. }
  rewrite E. cbn [bind]. destruct dist as [|row dist]; [congruence|].
  cbn [map amax foldl]. f_equal. apply foldl_Rmax_zeros.
Qed.

(** C1, the code at a concrete input.  On [five_points] with four
    landmarks the sampler leaves out the fifth point, at distance 5 from
    the nearest landmark.  [coverage] takes the minimum of each landmark's
    row, over the data points, and returns 0; the maximum over data points
    of the minimum over landmarks is 5.  With [perc = 1/2] and the class
    [(8, 12)] the code's radius is 5, the stated formula gives 11/2. *)
Theorem cover_radius_takes_minimum_over_data_points :
  getGreedyPermDM five_points 4 false =
    Ok {| gd_perm := [0; 2; 1; 3]%nat; gd_lambdas := [0; 12; 8; 8];
          gd_DLandmarks := five_points_landmarks |} /\
  coverage five_points_landmarks = Ok 0 /\
  coverage_spec five_points_landmarks = Ok 5 /\
  (exists r,
     Dreimac.cover_radius example_externals [(8, 12)]
       [[(2%nat, 0%nat, 1%nat)]] five_points_landmarks (1 / 2) [0%nat]
     = Ok ([(8 / 2, 12 / 2)], [0%nat], [(2%nat, 0%nat, 1%nat)], Fin r) /\
     r = 5) /\
  (exists r', radius_formula (1 / 2) (Fin (8 / 2)) (Fin (12 / 2)) 5 = Fin r' /\
              r' = 11 / 2).
Proof.
  split; [exact five_points_sampled|].
  split; [exact (proj1 five_points_coverage)|].
  split; [exact (proj2 five_points_coverage)|].
  split; [exact five_points_radius|].
  eexists. split.
  - unfold radius_formula, py_max. np_eval. reflexivity.
  - lra.
Qed.

(** ** Shapes through a projective reduction step *)

Lemma last_elem_Ok {A : Type} (l : list A) (a : A) :
  last_elem l = Ok a <-> exists l', l = l' ++ [a].
Proof.
  unfold last_elem. rewrite <- last_Some.
  destruct (last l); split; intros H; inversion H; reflexivity.
Qed.

Lemma last_elem_total {A : Type} (l : list A) :
  (0 < length l)%nat -> exists a l', last_elem l = Ok a /\ l = l' ++ [a].
Proof.
  intros H. destruct (last l) as [a|] eqn:E.
  - exists a. apply last_Some in E as [l' ->]. exists l'. split; [|reflexivity].
    apply last_elem_Ok. eauto.
  - apply last_None in E. subst l. simpl in H. lia.
Qed.

Lemma matmul_shape (n k m : nat) (A B : list (list float64)) :
  length A = n -> shape k m B -> (0 < k)%nat -> shape n m (matmul A B).
Proof.
  intros HA HB Hk. unfold matmul. split; [now rewrite length_map|].
  apply Forall_forall. intros r Hr.
  apply list_elem_of_lookup in Hr as [i Hi]. rewrite lookup_map in Hi.
  destruct (A !! i); simpl in Hi; inversion Hi.
  now rewrite length_map, length_seq, (ncols_shape k m B HB Hk).
Qed.

Lemma fliplr_shape {A : Type} (n m : nat) (U : list (list A)) :
  shape n m U -> shape n m (fliplr U).
Proof.
  intros H. unfold fliplr. eapply shape_map_rows; [exact H|].
  intros r Hr. now rewrite length_rev.
Qed.

Lemma mapR_last_elem_total {A : Type} (n m : nat) (U : list (list A)) :
  shape n m U -> (0 < m)%nat -> exists u, mapR last_elem U = Ok u.
Proof.
  intros [_ Hw] Hm. apply mapR_total.
  eapply Forall_impl; [exact Hw|]. intros r Hr. simpl in Hr.
  destruct (last_elem_total r) as (a & _ & Ha & _); [lia | eauto].
Qed.

(** A reduction step returns on a matrix with at least one row and one
    column as soon as [eigh] answers with a square matrix of the right
    size, and it removes one row. *)
Lemma ppca_reduce_shape (ext : externals) (d N : nat)
  (X U0 : list (list float64)) :
  shape d N X -> (1 <= d)%nat -> (1 <= N)%nat ->
  eigh ext (matmul X (transpose X)) = Ok U0 -> shape d d U0 ->
  exists v X', ppca_reduce ext X = Ok (v, X') /\ shape (d - 1) N X'.
Proof.
  intros HX Hd HN Heigh HU0. unfold ppca_reduce. rewrite Heigh. cbn [bind].
  pose proof (fliplr_shape d d _ HU0) as HU.
  set (U := fliplr U0) in *.
  destruct (mapR_last_elem_total d d U HU ltac:(lia)) as (u & Hu).
  rewrite Hu. cbn [bind].
  pose proof (transpose_shape d d U HU ltac:(lia)) as HUT.
  pose proof (matmul_shape d d N (transpose U) X (proj1 HUT) HX ltac:(lia))
    as HY.
  set (Y := matmul (transpose U) X) in *.
  destruct (last_elem_total Y) as (y & Y' & Hy & HY').
  { destruct HY as [-> _]. lia. }
  rewrite Hy. cbn [bind]. eexists. eexists. split; [reflexivity|].
  rewrite HY', removelast_last.
  destruct HY as [HYlen HYw]. rewrite HY' in HYlen, HYw.
  rewrite length_app in HYlen. simpl in HYlen.
  apply Forall_app in HYw as [HYw Hyw].
  apply Forall_cons in Hyw as [Hylen _].
  split; [rewrite length_map; lia|].
  rewrite Forall_forall in HYw. apply Forall_forall. intros r Hr.
  apply list_elem_of_lookup in Hr as [i Hi]. rewrite lookup_map in Hi.
  destruct (Y' !! i) as [r0|] eqn:E; simpl in Hi; inversion Hi.
  rewrite length_zip_with, length_map, Hylen.
  rewrite (HYw r0); [lia|]. eapply list_elem_of_lookup_2; eauto.
Qed.

(** ** Finite sums indexed by numbers *)

Lemma sum_list_app (l k : list R) : sum_list (l ++ k) = sum_list l + sum_list k.
Proof.
  induction l as [|a l IH]; [unfold sum_list; simpl; lra|].
  change (sum_list ((a :: l) ++ k)) with (a + sum_list (l ++ k)).
  change (sum_list (a :: l)) with (a + sum_list l). rewrite IH. lra.
Qed.

Lemma Rsum_0 (f : nat -> R) : Rsum 0 f = 0.
Proof. reflexivity. Qed.

Lemma Rsum_S (n : nat) (f : nat -> R) : Rsum (S n) f = Rsum n f + f n.
Proof.
  unfold Rsum. rewrite seq_S, map_app, sum_list_app. cbn [map].
  change (sum_list [f (0 + n)%nat]) with (f n + 0). lra.
Qed.

Lemma Rsum_ext (n : nat) (f g : nat -> R) :
  (forall i, (i < n)%nat -> f i = g i) -> Rsum n f = Rsum n g.
Proof.
  induction n as [|n IH]; intros H; [reflexivity|].
  rewrite !Rsum_S, IH, (H n) by (try lia; intros; apply H; lia). reflexivity.
Qed.

Lemma Rsum_scal (n : nat) (c : R) (f : nat -> R) :
  Rsum n (fun i => c * f i) = c * Rsum n f.
Proof.
  induction n as [|n IH]; [rewrite !Rsum_0; lra|]. rewrite !Rsum_S, IH. lra.
Qed.

Lemma Rsum_plus (n : nat) (f g : nat -> R) :
  Rsum n (fun i => f i + g i) = Rsum n f + Rsum n g.
Proof.
  induction n as [|n IH]; [rewrite !Rsum_0; lra|]. rewrite !Rsum_S, IH. lra.
Qed.

Lemma Rsum_zero (n : nat) : Rsum n (fun _ => 0) = 0.
Proof. induction n as [|n IH]; [reflexivity|]. rewrite Rsum_S, IH. lra. Qed.

Lemma Rsum_exchange (n m : nat) (f : nat -> nat -> R) :
  Rsum n (fun i => Rsum m (fun j => f i j))
  = Rsum m (fun j => Rsum n (fun i => f i j)).
Proof.
  induction n as [|n IH].
  - rewrite Rsum_0. symmetry. rewrite (Rsum_ext m _ (fun _ => 0)).
    + apply Rsum_zero.
    + intros. apply Rsum_0.
  - rewrite Rsum_S, IH, <- Rsum_plus. apply Rsum_ext. intros j _.
    now rewrite Rsum_S.
Qed.

Lemma Rsum_delta (n j : nat) (f : nat -> R) :
  (j < n)%nat ->
  Rsum n (fun i => (if decide (j = i) then 1 else 0) * f i) = f j.
Proof.
  induction n as [|n IH]; intros Hj; [lia|]. rewrite Rsum_S.
  destruct (decide (j = n)) as [->|Hne].
  - rewrite (Rsum_ext n _ (fun _ => 0)).
    + rewrite Rsum_zero. lra.
    + intros i Hi. destruct (decide (n = i)); [lia | lra].
  - rewrite IH by lia. lra.
Qed.

Lemma Rsum_square (n : nat) (f : nat -> R) :
  Rsum n f * Rsum n f = Rsum n (fun i => Rsum n (fun j => f i * f j)).
Proof.
  rewrite <- (Rsum_scal n (Rsum n f) f). apply Rsum_ext. intros i _.
  rewrite (Rmult_comm (Rsum n f) (f i)). now rewrite <- (Rsum_scal n (f i) f).
Qed.

(** An orthogonal change of basis preserves the squared norm. *)
Lemma Rsum_isometry (d : nat) (u : nat -> nat -> R) (x : nat -> R) :
  (forall j j', (j < d)%nat -> (j' < d)%nat ->
     Rsum d (fun k => u j k * u j' k) = if decide (j = j') then 1 else 0) ->
  Rsum d (fun k => Rsum d (fun j => u j k * x j) * Rsum d (fun j => u j k * x j))
  = Rsum d (fun j => x j * x j).
Proof.
  intros Horth.
  rewrite (Rsum_ext d _
             (fun k => Rsum d (fun j => Rsum d (fun j' =>
                         (u j k * u j' k) * (x j * x j'))))).
  2:{ intros k _. rewrite Rsum_square. apply Rsum_ext. intros j _.
      apply Rsum_ext. intros j' _. lra. }
  rewrite Rsum_exchange. apply Rsum_ext. intros j Hj.
  rewrite Rsum_exchange.
  rewrite (Rsum_ext d _
             (fun j' => (if decide (j = j') then 1 else 0) * (x j * x j'))).
  2:{ intros j' Hj'. rewrite <- (Horth j j' Hj Hj').
      rewrite (Rmult_comm (Rsum d (fun k => u j k * u j' k)) (x j * x j')).
      rewrite <- (Rsum_scal d (x j * x j') (fun k => u j k * u j' k)).
      apply Rsum_ext. intros k _. lra. }
  now rewrite (Rsum_delta d j (fun j' => x j * x j')).
Qed.

Lemma Rsum_S_l (n : nat) (f : nat -> R) :
  Rsum (S n) f = f 0%nat + Rsum n (fun i => f (S i)).
Proof.
  unfold Rsum. cbn [seq map]. rewrite <- seq_shift, map_map. reflexivity.
Qed.

Lemma sum_list_Rsum (l : list R) :
  sum_list l = Rsum (length l) (fun i => nth i l 0).
Proof.
  induction l as [|a l IH]; [reflexivity|].
  cbn [length]. rewrite Rsum_S_l. cbn [nth].
  change (sum_list (a :: l)) with (a + sum_list l). now rewrite IH.
Qed.

Lemma dot_cons (a b : R) (x y : list R) :
  dot (a :: x) (b :: y) = a * b + dot x y.
Proof. reflexivity. Qed.

Lemma dot_Rsum (u v : list R) :
  length u = length v ->
  dot u v = Rsum (length u) (fun i => nth i u 0 * nth i v 0).
Proof.
  revert v. induction u as [|a u IH]; intros [|b v] H; simpl in H;
    try discriminate; [reflexivity|].
  rewrite dot_cons. cbn [length]. rewrite Rsum_S_l. cbn [nth].
  rewrite IH by lia. reflexivity.
Qed.

Lemma nth_col (d w j k : nat) (U : list (list R)) :
  shape d w U -> (k < w)%nat ->
  nth j (col k U) 0 = nth k (nth j U []) 0.
Proof.
  intros HU Hk. rewrite !nth_lookup, (col_lookup d w k U j HU Hk).
  destruct (U !! j) as [r|]; simpl; [reflexivity|].
  now destruct k.
Qed.

(** ** Finite values *)

Lemma fadd_finite (a b : float64) (s : R) :
  fadd a b = Fin s -> is_finite a /\ is_finite b.
Proof.
  destruct a, b; simpl; intros H; try discriminate.
  split; eexists; reflexivity.
Qed.

Lemma fsum_finite (l : list float64) (s : R) :
  fsum l = Fin s -> Forall is_finite l.
Proof.
  revert s. induction l as [|a l IH]; intros s H; [constructor|].
  change (fsum (a :: l)) with (fadd a (fsum l)) in H.
  destruct (fadd_finite _ _ _ H) as [Ha [t Ht]].
  constructor; [exact Ha | eapply IH; eauto].
Qed.

Lemma fmul_self_finite (x : float64) : is_finite (fmul x x) -> is_finite x.
Proof.
  destruct x; simpl; intros [t H]; try discriminate. eexists; reflexivity.
Qed.

Lemma finite_list (l : list float64) :
  Forall is_finite l -> exists lR, l = map Fin lR.
Proof.
  induction 1 as [|x l [r ->] _ [lR ->]]; [now exists []|].
  now exists (r :: lR).
Qed.

Lemma finite_matrix (m : list (list float64)) :
  Forall (Forall is_finite) m -> exists mR, m = map (map Fin) mR.
Proof.
  induction 1 as [|r m Hr _ [mR ->]]; [now exists []|].
  destruct (finite_list r Hr) as [rR ->]. now exists (rR :: mR).
Qed.

Lemma fdot_Fin (u v : list R) : fdot (map Fin u) (map Fin v) = Fin (dot u v).
Proof.
  unfold fdot, dot. rewrite <- fsum_Fin. f_equal.
  revert v. induction u as [|a u IH]; intros [|b v]; simpl; try reflexivity.
  now rewrite IH.
Qed.

Lemma unit_columns_finite (d N : nat) (X : list (list float64)) :
  shape d N X -> unit_columns N X -> Forall (Forall is_finite) X.
Proof.
  intros HX Hunit. apply Forall_forall. intros r Hr.
  apply list_elem_of_lookup in Hr as [i Hi].
  apply Forall_forall. intros x Hx.
  apply list_elem_of_lookup in Hx as [j Hj].
  assert (HjN : (j < N)%nat).
  { destruct HX as [_ Hw]. rewrite Forall_forall in Hw.
    rewrite <- (Hw r); [apply lookup_lt_is_Some; eauto|].
    eapply list_elem_of_lookup_2; eauto. }
  assert (Hc : col j X !! i = Some x).
  { rewrite (col_lookup d N j X i HX HjN), Hi. exact Hj. }
  pose proof (fsum_finite _ _ (Hunit j HjN)) as Hfin.
  rewrite Forall_forall in Hfin. apply fmul_self_finite, Hfin.
  apply list_elem_of_lookup. exists i. now rewrite lookup_map, Hc.
Qed.

(** ** Orthogonal matrices over the reals *)

Lemma dot_nil : dot [] [] = 0.
Proof. reflexivity. Qed.

Lemma dot_single (x y : R) : dot [x] [y] = x * y.
Proof. rewrite dot_cons, dot_nil. lra. Qed.

Lemma dot_app (a b c e : list R) :
  length a = length b -> dot (a ++ c) (b ++ e) = dot a b + dot c e.
Proof.
  revert b. induction a as [|x a IH]; intros [|y b] H; simpl in H;
    try discriminate.
  - cbn [app]. rewrite dot_nil. lra.
  - cbn [app]. rewrite !dot_cons, IH by lia. lra.
Qed.

Lemma dot_rev (a b : list R) :
  length a = length b -> dot (rev a) (rev b) = dot a b.
Proof.
  revert b. induction a as [|x a IH]; intros [|y b] H; simpl in H;
    try discriminate; [reflexivity|].
  cbn [rev]. rewrite dot_app by (rewrite !length_rev; lia).
  rewrite dot_single, IH, dot_cons by lia. lra.
Qed.

Lemma orthogonal_real (d : nat) (U : list (list float64)) :
  orthogonal d U ->
  exists UR, U = map (map Fin) UR /\ shape d d UR /\
    forall i j ri rj, UR !! i = Some ri -> UR !! j = Some rj ->
      dot ri rj = if decide (i = j) then 1 else 0.
Proof.
  intros [[Hlen Hw] Horth].
  assert (Hfin : Forall (Forall is_finite) U).
  { apply Forall_forall. intros r Hr.
    apply list_elem_of_lookup in Hr as [i Hi].
    pose proof (Horth i i r r Hi Hi) as H. unfold fdot in H.
    apply fsum_finite in H. rewrite Forall_forall in H.
    apply Forall_forall. intros x Hx. apply fmul_self_finite, H.
    apply list_elem_of_lookup in Hx as [k Hk].
    apply list_elem_of_lookup. exists k.
    rewrite lookup_zip_with, Hk. reflexivity. }
  destruct (finite_matrix U Hfin) as [UR ->]. exists UR.
  split; [reflexivity|]. split.
  - split; [now rewrite length_map in Hlen|].
    rewrite Forall_forall in Hw. apply Forall_forall. intros r Hr.
    rewrite <- (Hw (map Fin r)); [now rewrite length_map|].
    apply list_elem_of_lookup in Hr as [i Hi].
    apply list_elem_of_lookup. exists i. now rewrite lookup_map, Hi.
  - intros i j ri rj Hi Hj.
    specialize (Horth i j (map Fin ri) (map Fin rj)).
    rewrite !lookup_map, Hi, Hj, fdot_Fin in Horth.
    specialize (Horth eq_refl eq_refl). congruence.
Qed.

Lemma real_isometry (d : nat) (UR : list (list R)) (x : list R) :
  shape d d UR ->
  (forall i j ri rj, UR !! i = Some ri -> UR !! j = Some rj ->
     dot ri rj = if decide (i = j) then 1 else 0) ->
  length x = d ->
  Rsum d (fun k => dot (col k UR) x * dot (col k UR) x) = dot x x.
Proof.
  intros HU Horth Hx.
  rewrite (dot_Rsum x x eq_refl), Hx.
  rewrite <- (Rsum_isometry d (fun i k => nth k (nth i UR []) 0)
                (fun i => nth i x 0)).
  - apply Rsum_ext. intros k Hk.
    assert (E : dot (col k UR) x
                = Rsum d (fun j => nth k (nth j UR []) 0 * nth j x 0)).
    { rewrite dot_Rsum by (rewrite (col_shape d d k UR HU Hk); lia).
      rewrite (col_shape d d k UR HU Hk). apply Rsum_ext. intros j _.
      now rewrite (nth_col d d j k UR HU Hk). }
    now rewrite E.
  - intros j j' Hj Hj'.
    destruct (shape_row d d UR j HU Hj) as (rj & Hrj & Hlj).
    destruct (shape_row d d UR j' HU Hj') as (rj' & Hrj' & Hlj').
    rewrite <- (Horth j j' rj rj' Hrj Hrj').
    rewrite dot_Rsum by lia. rewrite Hlj.
    apply Rsum_ext. intros k _.
    rewrite (nth_lookup UR j), (nth_lookup UR j'), Hrj, Hrj'. reflexivity.
Qed.

(** ** Matrices of finite values *)

Lemma ncols_map {A B : Type} (g : A -> B) (m : list (list A)) :
  ncols (map (map g) m) = ncols m.
Proof. destruct m as [|r m]; [reflexivity|]. simpl. apply length_map. Qed.

Lemma transpose_map {A B : Type} (g : A -> B) (m : list (list A)) :
  transpose (map (map g) m) = map (map g) (transpose m).
Proof.
  unfold transpose. rewrite ncols_map, map_map. apply map_ext.
  intros j. apply col_map.
Qed.

Lemma matmul_Fin (P Q : list (list R)) :
  matmul (map (map Fin) P) (map (map Fin) Q)
  = map (fun a => map (fun j => Fin (dot a (col j Q))) (seq 0 (ncols Q))) P.
Proof.
  unfold matmul. rewrite ncols_map, map_map. apply map_ext. intros a.
  apply map_ext. intros j. now rewrite col_map, fdot_Fin.
Qed.

Lemma col_tabulate {A : Type} (g : nat -> nat -> A) (rows : list nat)
  (N j : nat) :
  (j < N)%nat ->
  col j (map (fun k => map (fun i => g k i) (seq 0 N)) rows)
  = map (fun k => g k j) rows.
Proof.
  intros Hj. induction rows as [|k rows IH]; [reflexivity|].
  cbn [map]. rewrite (col_cons j _ _ (g k j)).
  - now rewrite IH.
  - rewrite lookup_map, lookup_seq_lt by lia. reflexivity.
Qed.

Lemma squares_Fin (l : list R) :
  map (fun x => fmul x x) (map Fin l) = map Fin (zip_with Rmult l l).
Proof.
  induction l as [|a l IH]; [reflexivity|]. cbn [map zip_with].
  now rewrite IH.
Qed.

Lemma unit_column_real (N j : nat) (XR : list (list R)) :
  unit_columns N (map (map Fin) XR) -> (j < N)%nat ->
  dot (col j XR) (col j XR) = 1.
Proof.
  intros Hunit Hj. specialize (Hunit j Hj).
  rewrite col_map, squares_Fin, fsum_Fin in Hunit.
  unfold dot. congruence.
Qed.

Lemma shape_real {A B : Type} (g : A -> B) (n w : nat) (m : list (list A)) :
  shape n w (map (map g) m) <-> shape n w m.
Proof.
  unfold shape. rewrite length_map, Forall_map.
  split; intros [H1 H2]; (split; [exact H1|]);
    (eapply Forall_impl; [exact H2|]); intros r Hr; simpl in *;
    rewrite length_map in *; exact Hr.
Qed.

Lemma fliplr_orthonormal (d : nat) (UR : list (list R)) :
  shape d d UR ->
  (forall i j ri rj, UR !! i = Some ri -> UR !! j = Some rj ->
     dot ri rj = if decide (i = j) then 1 else 0) ->
  shape d d (map (@rev R) UR) /\
  forall i j ri rj, map (@rev R) UR !! i = Some ri ->
    map (@rev R) UR !! j = Some rj ->
    dot ri rj = if decide (i = j) then 1 else 0.
Proof.
  intros HU Horth. split.
  - eapply shape_map_rows; [exact HU|]. intros r Hr. now rewrite length_rev.
  - intros i j ri rj Hi Hj. rewrite lookup_map in Hi, Hj.
    destruct (UR !! i) as [ri0|] eqn:Ei; simpl in Hi; inversion Hi; subst ri.
    destruct (UR !! j) as [rj0|] eqn:Ej; simpl in Hj; inversion Hj; subst rj.
    rewrite dot_rev; [now apply Horth|].
    destruct HU as [_ Hw]. rewrite Forall_forall in Hw.
    rewrite (Hw ri0), (Hw rj0); [reflexivity| |];
      eapply list_elem_of_lookup_2; eauto.
Qed.

(** ** A reduction step keeps the columns on the unit sphere *)

Lemma gram_real (d N : nat) (XR : list (list R)) :
  shape d N XR -> (1 <= d)%nat -> (1 <= N)%nat ->
  shape d d (matmul (map (map Fin) XR) (transpose (map (map Fin) XR))) /\
  Forall (Forall is_finite)
         (matmul (map (map Fin) XR) (transpose (map (map Fin) XR))).
Proof.
  intros HX Hd HN. split.
  - apply (matmul_shape d N d); [rewrite length_map; apply HX | | lia].
    apply transpose_shape; [now apply shape_real | lia].
  - rewrite transpose_map, matmul_Fin.
    apply Forall_map, Forall_forall. intros a _. simpl.
    apply Forall_map, Forall_forall. intros j _. simpl. eexists; reflexivity.
Qed.

(** On a finite matrix [eigh] answers, and the rotated matrix
    [U.T.dot(X)] lists the coordinates of the columns of [X] in an
    orthonormal basis. *)
Lemma rotated_real (ext : externals) (d N : nat) (XR : list (list R)) :
  eigh_orthogonal ext -> shape d N XR -> (1 <= d)%nat -> (1 <= N)%nat ->
  exists U0 UR,
    eigh ext (matmul (map (map Fin) XR) (transpose (map (map Fin) XR)))
      = Ok U0 /\
    shape d d U0 /\
    fliplr U0 = map (map Fin) UR /\
    shape d d UR /\
    (forall i j ri rj, UR !! i = Some ri -> UR !! j = Some rj ->
       dot ri rj = if decide (i = j) then 1 else 0) /\
    matmul (transpose (fliplr U0)) (map (map Fin) XR)
    = map (fun k => map (fun j => Fin (dot (col k UR) (col j XR))) (seq 0 N))
          (seq 0 d).
Proof.
  intros Heigh HX Hd HN.
  destruct (gram_real d N XR HX Hd HN) as [HA HAfin].
  destruct (Heigh d _ HA HAfin) as (U0 & HU0 & Hortho).
  destruct (orthogonal_real d _ Hortho) as (UR0 & HUR0 & HshU0 & Horth0).
  destruct (fliplr_orthonormal d UR0 HshU0 Horth0) as [HshU Horth].
  exists U0, (map (@rev R) UR0).
  split; [exact HU0|]. split; [exact (proj1 Hortho)|].
  assert (E : fliplr U0 = map (map Fin) (map (@rev R) UR0)).
  { rewrite HUR0. unfold fliplr. rewrite !map_map.
    apply map_ext. intros r. now rewrite map_rev. }
  split; [exact E|]. split; [exact HshU|]. split; [exact Horth|].
  rewrite E, transpose_map, matmul_Fin.
  rewrite (ncols_shape d N XR HX ltac:(lia)).
  unfold transpose. rewrite (ncols_shape d d _ HshU ltac:(lia)), map_map.
  reflexivity.
Qed.

Lemma renorm_denominator_finite (t : R) :
  Rabs t < 1 ->
  fsqrt (fsub (Fin 1) (fmul (fabs (Fin t)) (fabs (Fin t))))
  = Fin (sqrt (1 - t * t)) /\ 0 < sqrt (1 - t * t).
Proof.
  intros Ht.
  assert (Hsq : Rabs t * Rabs t = t * t).
  { unfold Rabs. destruct (Rcase_abs t); lra. }
  assert (Hlt : t * t < 1).
  { rewrite <- Hsq. pose proof (Rabs_pos t). nra. }
  simpl. rewrite Hsq.
  replace (1 + - (t * t)) with (1 - t * t) by lra.
  rewrite (proj2 (Rltb_false (1 - t * t) 0)) by lra.
  split; [reflexivity|]. apply sqrt_lt_R0. lra.
Qed.

(** On a matrix with unit columns a reduction step returns; when every
    dropped coordinate has magnitude below 1, the columns of the new
    matrix are unit vectors again. *)
Lemma ppca_reduce_unit (ext : externals) (d N : nat)
  (X : list (list float64)) :
  eigh_orthogonal ext -> shape d N X -> (1 <= d)%nat -> (1 <= N)%nat ->
  unit_columns N X ->
  exists v X' y,
    ppca_reduce ext X = Ok (v, X') /\ dropped_row ext X = Ok y /\
    shape (d - 1) N X' /\
    (Forall (fun yi => exists t, yi = Fin t /\ Rabs t < 1) y ->
     unit_columns N X').
Proof.
  intros Heigh HX Hd HN Hunit.
  destruct (finite_matrix X (unit_columns_finite d N X HX Hunit)) as [XR ->].
  pose proof HX as HXf. apply shape_real in HX.
  destruct (rotated_real ext d N XR Heigh HX Hd HN)
    as (U0 & UR & HU0 & HshU0 & _ & HU & Horth & HY).
  destruct (ppca_reduce_shape ext d N _ U0 HXf Hd HN HU0 HshU0)
    as (v & X' & Hred & HX').
  destruct d as [|d']; [lia|].
  pose (F := fun k i => dot (col k UR) (col i XR)).
  assert (HYsplit : matmul (transpose (fliplr U0)) (map (map Fin) XR)
     = map (fun k => map (fun i => Fin (F k i)) (seq 0 N)) (seq 0 d')
       ++ [map (fun i => Fin (F d' i)) (seq 0 N)]).
  { rewrite HY, seq_S, map_app. reflexivity. }
  exists v, X', (map (fun i => Fin (F d' i)) (seq 0 N)).
  split; [exact Hred|]. split.
  { unfold dropped_row. rewrite HU0. cbn [bind]. rewrite HYsplit.
    apply last_elem_Ok. eauto. }
  split; [exact HX'|].
  intros Hnd.
  unfold ppca_reduce in Hred. rewrite HU0 in Hred. cbn [bind] in Hred.
  apply bind_Ok in Hred as (u & _ & Hred).
  apply bind_Ok in Hred as (y & Hy & Hred).
  inversion Hred; subst v X'; clear Hred.
  rewrite HYsplit in Hy |- *.
  apply last_elem_Ok in Hy as [Y0 HY0].
  apply app_inj_tail in HY0 as [_ Hyeq]. subst y.
  rewrite removelast_last.
  intros j Hj.
  assert (Hyj : Rabs (F d' j) < 1).
  { rewrite Forall_forall in Hnd.
    destruct (Hnd (Fin (F d' j))) as (t & Ht & Hlt).
    - apply list_elem_of_lookup. exists j.
      rewrite lookup_map, lookup_seq_lt by lia. reflexivity.
    - inversion Ht; subst t. exact Hlt. }
  destruct (renorm_denominator_finite (F d' j) Hyj) as [Hden Hpos].
  set (s := sqrt (1 - F d' j * F d' j)) in *.
  rewrite (col_zip_rows fdiv _ (Fin s) d' N j).
  2:{ split; [now rewrite length_map, length_seq|].
      apply Forall_map, Forall_forall. intros k _. simpl.
      now rewrite length_map, length_seq. }
  2:{ rewrite !lookup_map, lookup_seq_lt by lia.
      change (Some (fsqrt (fsub (Fin 1) (fmul (fabs (Fin (F d' j)))
                                              (fabs (Fin (F d' j))))))
              = Some (Fin s)).
      now rewrite Hden. }
  2:{ exact Hj. }
  rewrite (col_tabulate (fun k i => Fin (F k i)) (seq 0 d') N j Hj).
  rewrite !map_map.
  assert (E : map (fun k => fmul (fdiv (Fin (F k j)) (Fin s))
                               (fdiv (Fin (F k j)) (Fin s))) (seq 0 d')
              = map Fin (map (fun a => a * / (s * s))
                           (map (fun k => F k j * F k j) (seq 0 d')))).
  { rewrite !map_map. apply map_ext. intros k.
    rewrite fdiv_Fin by lra. simpl. f_equal. field. lra. }
  rewrite E, fsum_Fin, sum_list_scale. f_equal.
  change (sum_list (map (fun k => F k j * F k j) (seq 0 d')))
    with (Rsum d' (fun k => F k j * F k j)).
  pose proof (real_isometry (S d') UR (col j XR) HU Horth
                (col_shape (S d') N j XR HX Hj)) as Hiso.
  rewrite Rsum_S in Hiso.
  rewrite (unit_column_real N j XR Hunit Hj) in Hiso.
  change (Rsum d' (fun k => F k j * F k j) + F d' j * F d' j = 1) in Hiso.
  assert (Hs : s * s = 1 - F d' j * F d' j).
  { unfold s. apply sqrt_sqrt.
    assert (Hsq : Rabs (F d' j) * Rabs (F d' j) = F d' j * F d' j).
    { unfold Rabs. destruct (Rcase_abs (F d' j)); lra. }
    pose proof (Rabs_pos (F d' j)). nra. }
  rewrite Hs.
  replace (Rsum d' (fun k => F k j * F k j)) with (1 - F d' j * F d' j).
  - field. rewrite <- Hs. nra.
  - lra.
Qed.

Lemma fnorm_unit (row : list float64) :
  fnorm row = Fin 1 <-> fsum (map (fun x => fmul x x) row) = Fin 1.
Proof.
  unfold fnorm. split.
  - destruct (fsum (map (fun x => fmul x x) row)) as [t| | |]; simpl;
      try discriminate.
    destruct (Rltb t 0) eqn:E; [discriminate|]. apply Rltb_false in E.
    intros H. assert (Hs : sqrt t = 1) by congruence. f_equal.
    pose proof (sqrt_sqrt t E) as Hq. rewrite Hs in Hq. lra.
  - intros ->. simpl. rewrite (proj2 (Rltb_false 1 0)) by lra.
    now rewrite sqrt_1.
Qed.

Lemma col_transpose {A : Type} (n w j : nat) (m : list (list A))
  (r : list A) :
  shape n w m -> (0 < n)%nat -> m !! j = Some r -> col j (transpose m) = r.
Proof.
  intros Hm Hn Hr.
  assert (Hj : (j < n)%nat).
  { destruct Hm as [<- _]. apply lookup_lt_is_Some. eauto. }
  pose proof (transpose_shape n w m Hm Hn) as HT.
  apply list_eq. intros k.
  rewrite (col_lookup w n j (transpose m) k HT Hj).
  destruct (decide (k < w)%nat) as [Hk | Hk].
  - rewrite (transpose_lookup n w k m Hm Hn Hk). simpl.
    rewrite (col_lookup n w k m j Hm Hk), Hr. reflexivity.
  - rewrite (lookup_ge_None_2 (transpose m)) by (destruct HT as [-> _]; lia).
    simpl. symmetry. apply lookup_ge_None_2.
    destruct Hm as [_ Hw]. rewrite Forall_forall in Hw.
    rewrite (Hw r); [lia|]. eapply list_elem_of_lookup_2; eauto.
Qed.

Lemma unit_rows_columns (n w : nat) (m : list (list float64)) :
  shape n w m -> (0 < n)%nat ->
  Forall (fun row => fnorm row = Fin 1) m -> unit_columns n (transpose m).
Proof.
  intros Hm Hn Hrows j Hj.
  destruct (shape_row n w m j Hm Hj) as (r & Hr & _).
  rewrite (col_transpose n w j m r Hm Hn Hr).
  apply fnorm_unit. rewrite Forall_forall in Hrows. apply Hrows.
  eapply list_elem_of_lookup_2; eauto.
Qed.

Lemma unit_columns_rows (d N : nat) (X : list (list float64)) :
  shape d N X -> (0 < d)%nat ->
  unit_columns N X -> Forall (fun row => fnorm row = Fin 1) (transpose X).
Proof.
  intros HX Hd Hunit. apply Forall_forall. intros row Hrow.
  apply list_elem_of_lookup in Hrow as [j Hj].
  assert (HjN : (j < N)%nat).
  { pose proof (transpose_shape d N X HX Hd) as [<- _].
    apply lookup_lt_is_Some. eauto. }
  rewrite (transpose_lookup d N j X HX Hd HjN) in Hj. inversion Hj; subst row.
  apply fnorm_unit, Hunit, HjN.
Qed.

(** ** The renormalisation denominator *)

Lemma Rabs_square (t : R) : Rabs t * Rabs t = t * t.
Proof. unfold Rabs. destruct (Rcase_abs t); lra. Qed.

Lemma renorm_denominator_small (t : R) :
  Rabs t <= 1 ->
  fsqrt (fsub (Fin 1) (fmul (fabs (Fin t)) (fabs (Fin t))))
  = Fin (sqrt (1 - t * t)).
Proof.
  intros Ht. pose proof (Rabs_pos t) as Hpos.
  assert (Hle : t * t <= 1) by (rewrite <- Rabs_square; nra).
  simpl. rewrite Rabs_square.
  replace (1 + - (t * t)) with (1 - t * t) by lra.
  now rewrite (proj2 (Rltb_false (1 - t * t) 0)) by lra.
Qed.

Lemma renorm_denominator_nan (t : R) :
  1 < Rabs t ->
  fsqrt (fsub (Fin 1) (fmul (fabs (Fin t)) (fabs (Fin t)))) = NaN.
Proof.
  intros Ht.
  assert (Hgt : 1 < t * t) by (rewrite <- Rabs_square; nra).
  simpl. rewrite Rabs_square.
  now rewrite (proj2 (Rltb_true (1 + - (t * t)) 0)) by lra.
Qed.

Lemma fdiv_nan (a : float64) : fdiv a NaN = NaN.
Proof. destruct a; reflexivity. Qed.

(** C8 (as amended).  A reduction step divides each entry [a] of the kept
    rows by [sqrt(1 - |y|^2)], [y] the dropped coordinate of its column,
    with no clamping: for [|y| <= 1] the divisor is the real square root,
    and for [|y| > 1] the square root and the new entry are NaN. *)
Theorem renormalisation_is_not_clamped (ext : externals)
  (X : list (list float64)) (v : float64) (X' : list (list float64)) :
  ppca_reduce ext X = Ok (v, X') ->
  exists U Y' y,
    eigh ext (matmul X (transpose X)) = Ok U /\
    matmul (transpose (fliplr U)) X = Y' ++ [y] /\
    length X' = length Y' /\
    forall i j row a yj,
      Y' !! i = Some row -> row !! j = Some a -> y !! j = Some (Fin yj) ->
      exists x, X' !! i ≫= (fun r => r !! j) = Some x /\
        (Rabs yj <= 1 -> x = fdiv a (Fin (sqrt (1 - yj * yj)))) /\
        (1 < Rabs yj -> x = NaN).
Proof.
  unfold ppca_reduce. intros H.
  apply bind_Ok in H as (U & HU & H).
  apply bind_Ok in H as (u & _ & H).
  apply bind_Ok in H as (y & Hy & H).
  inversion H; subst v X'; clear H.
  apply last_elem_Ok in Hy as [Y' HY]. exists U, Y', y.
  split; [exact HU|]. split; [exact HY|]. rewrite HY, removelast_last.
  split; [now rewrite length_map|].
  intros i j row a yj Hrow Ha Hyj.
  rewrite lookup_map, Hrow. simpl.
  rewrite lookup_zip_with, Ha. simpl. rewrite lookup_map, Hyj. simpl.
  eexists. split; [reflexivity|]. split.
  - intros Hle.
    change (fdiv a (fsqrt (fsub (Fin 1) (fmul (fabs (Fin yj)) (fabs (Fin yj)))))
            = fdiv a (Fin (sqrt (1 - yj * yj)))).
    now rewrite renorm_denominator_small.
  - intros Hgt.
    change (fdiv a (fsqrt (fsub (Fin 1) (fmul (fabs (Fin yj)) (fabs (Fin yj)))))
            = NaN).
    now rewrite renorm_denominator_nan, fdiv_nan.
Qed.

Ltac decide_num :=
  repeat match goal with
  | |- context [Rabs ?a] =>
      first [ rewrite (Rabs_right a) by lra | rewrite (Rabs_left a) by lra ]
  | |- context [Rltb ?a ?b] =>
      first [ rewrite (proj2 (Rltb_true a b)) by lra
            | rewrite (proj2 (Rltb_false a b)) by lra ]
  | |- context [sqrt ?a] =>
      first [ replace (sqrt a) with 0
                by (replace a with 0 by lra; now rewrite sqrt_0)
            | replace (sqrt a) with 1
                by (replace a with 1 by lra; now rewrite sqrt_1) ]
  | |- context [Req_dec_T ?a ?b] =>
      destruct (Req_dec_T a b); [try (exfalso; lra) | try (exfalso; lra)]
  end.

Ltac np_eval_num := repeat (progress (cbn; decide_num)).

(** Two points with coordinates [(2, 0)] and [(0, 3)]: the first has
    dropped coordinate 2 and its new coordinate is [0 / sqrt(-3)]. *)
Lemma reduce_overshoot :
  exists v x,
    ppca_reduce example_externals [[Fin 2; Fin 0]; [Fin 0; Fin 3]]
    = Ok (v, [[NaN; x]]).
Proof.
  unfold ppca_reduce. np_eval_num. eexists. eexists. reflexivity.
Qed.

(** Two orthogonal unit points: the first lies on the eliminated axis, its
    dropped coordinate is 1 and its new coordinate is [0 / 0]. *)
Lemma reduce_aligned :
  exists v x,
    ppca_reduce example_externals [[Fin 1; Fin 0]; [Fin 0; Fin 1]]
    = Ok (v, [[NaN; x]]).
Proof.
  unfold ppca_reduce. np_eval_num. eexists. eexists. reflexivity.
Qed.

Lemma renormalisation_is_not_clamped_witness :
  exists v X' U Y' y,
    ppca_reduce example_externals [[Fin 2; Fin 0]; [Fin 0; Fin 3]]
    = Ok (v, X') /\
    eigh example_externals
      (matmul [[Fin 2; Fin 0]; [Fin 0; Fin 3]]
              (transpose [[Fin 2; Fin 0]; [Fin 0; Fin 3]])) = Ok U /\
    matmul (transpose (fliplr U)) [[Fin 2; Fin 0]; [Fin 0; Fin 3]]
    = Y' ++ [y] /\
    length X' = length Y' /\
    forall i j row a yj,
      Y' !! i = Some row -> row !! j = Some a -> y !! j = Some (Fin yj) ->
      exists x, X' !! i ≫= (fun r => r !! j) = Some x /\
        (Rabs yj <= 1 -> x = fdiv a (Fin (sqrt (1 - yj * yj)))) /\
        (1 < Rabs yj -> x = NaN).
Proof.
  destruct reduce_overshoot as (v & x & H).
  destruct (renormalisation_is_not_clamped example_externals _ v _ H)
    as (U & Y' & y & H0 & H1 & H2 & H3).
  exists v, [[NaN; x]], U, Y', y. auto.
Defined.

(** C8, counterexample.  Nothing is clamped: a dropped coordinate of
    magnitude 2 makes the square root, and the point's new coordinate,
    NaN; and a dropped coordinate of magnitude exactly 1, reached from
    unit vectors, gives [0 / 0]. *)
Lemma unclamped_square_root_gives_nan :
  fsqrt (fsub (Fin 1) (fmul (fabs (Fin 2)) (fabs (Fin 2)))) = NaN /\
  (exists v x,
     ppca_reduce example_externals [[Fin 2; Fin 0]; [Fin 0; Fin 3]]
     = Ok (v, [[NaN; x]])) /\
  (exists v x,
     ppca_reduce example_externals [[Fin 1; Fin 0]; [Fin 0; Fin 1]]
     = Ok (v, [[NaN; x]])).
Proof.
  split; [|split; [exact reduce_overshoot | exact reduce_aligned]].
  apply renorm_denominator_nan. rewrite Rabs_right; lra.
Qed.

(** ** The example routines meet the assumptions *)

Lemma identity_matrix_shape (d : nat) : shape d d (identity_matrix d).
Proof.
  unfold identity_matrix. split; [now rewrite length_map, length_seq|].
  apply Forall_map, Forall_forall. intros i _. simpl.
  now rewrite length_map, length_seq.
Qed.

Lemma identity_matrix_orthogonal (d : nat) : orthogonal d (identity_matrix d).
Proof.
  split; [apply identity_matrix_shape|].
  intros i j ri rj Hi Hj. unfold identity_matrix in Hi, Hj.
  rewrite lookup_map in Hi, Hj.
  destruct (seq 0 d !! i) as [i'|] eqn:Ei; simpl in Hi; inversion Hi; subst ri.
  destruct (seq 0 d !! j) as [j'|] eqn:Ej; simpl in Hj; inversion Hj; subst rj.
  apply lookup_seq in Ei as [-> Hid]. apply lookup_seq in Ej as [-> Hjd].
  simpl. clear Hi Hj.
  assert (E : forall a, map (fun k => if (a =? k)%nat then Fin 1 else Fin 0)
                          (seq 0 d)
                      = map Fin (map (fun k => if decide (a = k) then 1 else 0)
                                   (seq 0 d))).
  { intros a. rewrite map_map. apply map_ext. intros k.
    destruct (Nat.eqb_spec a k), (decide (a = k)); try reflexivity; lia. }
  rewrite !E, fdot_Fin. f_equal.
  rewrite dot_Rsum by (now rewrite !length_map).
  rewrite length_map, length_seq.
  rewrite (Rsum_ext d _ (fun k => (if decide (i = k) then 1 else 0)
                                  * (if decide (j = k) then 1 else 0))).
  - rewrite (Rsum_delta d i (fun k => if decide (j = k) then 1 else 0) Hid).
    destruct (decide (j = i)), (decide (i = j)); try reflexivity; lia.
  - intros k Hk. rewrite !nth_lookup, !lookup_map, !lookup_seq_lt by lia.
    reflexivity.
Qed.

Lemma all_finite_true (A : list (list float64)) :
  Forall (Forall is_finite) A -> all_finite A = true.
Proof.
  unfold all_finite. induction 1 as [|r A Hr _ IH]; [reflexivity|].
  cbn [forallb]. rewrite IH, andb_true_r.
  induction Hr as [|x r [t ->] _ IHr]; [reflexivity|].
  cbn [forallb finite_entry]. exact IHr.
Qed.

Lemma example_eigh_orthogonal : eigh_orthogonal example_externals.
Proof.
  intros d A [HA _] Hfin. exists (identity_matrix d). split.
  - simpl. now rewrite (all_finite_true A Hfin), HA.
  - apply identity_matrix_orthogonal.
Qed.

Lemma example_eigh_rejects_nan : eigh_rejects_nan example_externals.
Proof.
  intros d Hd. destruct d as [|d]; [lia|]. reflexivity.
Qed.

(** ** A complete run on the worked example *)

Lemma classifying_map_shape (L N : nat) (dist : list (list R)) (r : float64)
  (signs cm : list (list float64)) :
  shape L N dist -> (0 < L)%nat -> sign_matrix L signs ->
  classifying_map N (partition_of_unity (bumps dist r)) signs
    (ball_index (cover_sets dist r)) = Ok cm ->
  shape N L cm.
Proof.
  intros Hdist HL Hsigns Hcm.
  destruct (classifying_map_rows L N dist r signs Hdist HL Hsigns)
    as (cm' & Hrun & Hlen & Hrows).
  rewrite Hcm in Hrun. inversion Hrun; subst cm'.
  split; [exact Hlen|]. apply Forall_forall. intros row Hrow.
  apply list_elem_of_lookup in Hrow as [i Hi].
  destruct (Hrows i row Hi) as (HiN & s & Hs & ->).
  destruct Hsigns as [[_ Hw] _]. rewrite Forall_forall in Hw.
  rewrite length_zip_with, length_map, (Hw s Hs).
  pose proof (partition_of_unity_shape L N _ (bumps_shape L N dist r Hdist) HL)
    as Hvar.
  rewrite (col_shape L N i _ Hvar HiN). lia.
Qed.

Lemma five_points_landmarks_shape : shape 4 5 five_points_landmarks.
Proof. split; [reflexivity | repeat constructor]. Qed.

Lemma five_points_landmark_distances :
  mapR (fun r : list R => mapR (index r) [0; 2; 1; 3]%nat) five_points_landmarks
  = Ok [[0; 12; 8; 8]; [12; 0; 8; 8]; [8; 8; 0; 12]; [8; 8; 12; 0]].
Proof. reflexivity. Qed.

Lemma five_points_signs :
  cocycle_matrix 4 [(2%nat, 0%nat, 1%nat)]
  = Ok [[Fin 1; Fin 1; Fin (-1); Fin 1]; [Fin 1; Fin 1; Fin 1; Fin 1];
        [Fin (-1); Fin 1; Fin 1; Fin 1]; [Fin 1; Fin 1; Fin 1; Fin 1]].
Proof. reflexivity. Qed.

(** ** What [coverage] measures *)

Lemma foldl_Rmax_spec (l : list R) (a : R) :
  a <= foldl Rmax a l /\ Forall (fun x => x <= foldl Rmax a l) l /\
  (foldl Rmax a l = a \/ foldl Rmax a l ∈ l).
Proof.
  revert a. induction l as [|x l IH]; intros a; cbn [foldl].
  - split; [lra|]. split; [constructor | now left].
  - destruct (IH (Rmax a x)) as (H1 & H2 & H3).
    pose proof (Rmax_l a x). pose proof (Rmax_r a x).
    split; [lra|]. split.
    + constructor; [lra | exact H2].
    + destruct H3 as [H3 | H3].
      * rewrite H3. unfold Rmax. destruct (Rle_dec a x); [|now left].
        right. left.
      * right. now right.
Qed.

(** [coverage] is the largest, over the landmarks, of the smallest
    distance in the landmark's row. *)
Lemma coverage_rowwise (dist : list (list R)) (cov : R) :
  coverage dist = Ok cov ->
  (exists row, row ∈ dist /\ amin row = Ok cov) /\
  (forall row, row ∈ dist -> exists m, amin row = Ok m /\ m <= cov).
Proof.
  unfold coverage. intros H. apply bind_Ok in H as (mins & Hmins & Hmax).
  destruct mins as [|m0 mins]; [discriminate|]. simpl in Hmax.
  inversion Hmax as [Hcov]; clear Hmax.
  destruct (foldl_Rmax_spec mins m0) as (H1 & H2 & H3).
  assert (Hback : forall m, m ∈ m0 :: mins ->
            exists row, row ∈ dist /\ amin row = Ok m).
  { clear - Hmins. revert Hmins. generalize (m0 :: mins). clear.
    induction dist as [|row dist IH]; intros l Hl m Hm; simpl in Hl.
    - inversion Hl; subst. inversion Hm.
    - apply bind_Ok in Hl as (b & Hb & Hl).
      apply bind_Ok in Hl as (bs & Hbs & Hl). inversion Hl; subst l.
      apply elem_of_cons in Hm as [-> | Hm].
      + exists row. split; [left | exact Hb].
      + destruct (IH bs Hbs m Hm) as (row' & Hin & Hrow').
        exists row'. split; [now right | exact Hrow']. }
  split.
  - apply Hback. destruct H3 as [-> | H3]; [left | now right].
  - intros row Hrow. apply list_elem_of_lookup in Hrow as [i Hi].
    destruct (mapR_lookup _ _ _ _ _ Hmins Hi) as (m & Hm & Hrow).
    exists m. split; [exact Hrow|].
    rewrite Forall_forall in H2.
    destruct i as [|i]; simpl in Hm.
    + inversion Hm; subst m. exact H1.
    + apply H2. eapply list_elem_of_lookup_2; eauto.
Qed.

Lemma getGreedyPermDM_rows (D : list (list R)) (M : nat) (verbose : bool)
  (res : greedy_perm_dm) :
  getGreedyPermDM D M verbose = Ok res ->
  mapR (index D) (gd_perm res) = Ok (gd_DLandmarks res).
Proof.
  unfold getGreedyPermDM. intros H.
  apply bind_Ok in H as (ds & _ & H).
  apply bind_Ok in H as (st & _ & H).
  apply bind_Ok in H as (rows & Hrows & H).
  inversion H; subst res. exact Hrows.
Qed.

(** On every sampler output for a distance matrix with zero diagonal and
    non-negative entries the coverage the program computes is 0, however
    far the other data points are from the landmarks. *)
Lemma coverage_of_sampled_landmarks (N M : nat) (verbose : bool)
  (D : list (list R)) (res : greedy_perm_dm) :
  shape N N D -> (1 <= M)%nat -> separated D ->
  getGreedyPermDM D M verbose = Ok res ->
  coverage (gd_DLandmarks res) = Ok 0.
Proof.
  intros HD HM Hsep Hres.
  pose proof (getGreedyPermDM_nonempty N D M verbose res HD Hres) as HN.
  pose proof (getGreedyPermDM_Ok_quiet N M verbose D res HD HN Hres) as Hq.
  destruct (getGreedyPermDM_inv N M verbose D HD HN HM Hq)
    as (res' & st & Hres' & Hp & _ & Hinv).
  rewrite Hres in Hres'. inversion Hres'; subst res'.
  pose proof (getGreedyPermDM_rows D M verbose res Hres) as Hrows.
  apply coverage_zero_when_landmarks_are_data.
  - intros E. apply mapR_Ok_length in Hrows. rewrite E, Hp in Hrows.
    rewrite (gi_perm_length _ _ _ _ _ Hinv) in Hrows. simpl in Hrows. lia.
  - apply Forall_forall. intros row Hrow.
    apply list_elem_of_lookup in Hrow as [k Hk].
    assert (Hkp : exists p, gd_perm res !! k = Some p) .
    { apply lookup_lt_is_Some. rewrite <- (mapR_Ok_length _ _ _ Hrows).
      apply lookup_lt_is_Some. eauto. }
    destruct Hkp as [p Hp'].
    destruct (mapR_lookup _ _ _ _ _ Hrows Hp') as (row' & Hrow' & Hidx).
    rewrite Hk in Hrow'. inversion Hrow'; subst row'.
    apply index_Ok in Hidx.
    assert (HpN : (p < N)%nat).
    { destruct HD as [<- _]. apply lookup_lt_is_Some. eauto. }
    destruct (shape_row N N D p HD HpN) as (row0 & Hrow0 & Hlen).
    rewrite Hidx in Hrow0. inversion Hrow0; subst row0.
    split.
    + destruct (lookup_lt_is_Some_2 row p) as [v Hv]; [lia|].
      destruct (Hsep p p row v Hidx Hv) as [_ Hiff].
      assert (v = 0) by now apply Hiff. subst v.
      eapply list_elem_of_lookup_2; eauto.
    + apply Forall_forall. intros v Hv.
      apply list_elem_of_lookup in Hv as [b Hb].
      now destruct (Hsep p b row v Hidx Hb).
Qed.

(** * Further properties of the code *)

(** ** Entries of a matrix *)


Lemma entry_inv {A : Type} (m : list (list A)) (i j : nat) (v : A) :
  entry m i j = Some v -> exists r, m !! i = Some r /\ r !! j = Some v.
Proof.
  unfold entry. destruct (m !! i) as [r|]; simpl; [eauto | discriminate].
Qed.

(** ** What the samplers and [getCSM] reject *)



(** X21. The errors of the samplers.  On the empty input both raise
    [IndexError], whatever the number of landmarks.  On [N >= 1] points,
    with the progress report on and [2 <= M <= 19] both raise
    [ZeroDivisionError] at the first step of the loop; asked for no
    landmark, the Euclidean sampler raises [IndexError] where the
    distance-matrix sampler returns empty arrays. *)
Theorem samplers_errors (fo : float_ops) (N M : nat) (verbose : bool) :
  (getGreedyPermDM [] M verbose = Raise IndexError /\
   getGreedyPermEuclidean fo [] M verbose = Raise IndexError) /\
  ((1 <= N)%nat ->
   (forall D : list (list R), shape N N D ->
      ((2 <= M)%nat -> (M < 20)%nat ->
       getGreedyPermDM D M true = Raise ZeroDivisionError) /\
      getGreedyPermDM D 0 verbose
      = Ok {| gd_perm := []; gd_lambdas := []; gd_DLandmarks := [] |}) /\
   (forall (d : nat) (X : list (list R)), shape N d X ->
      ((2 <= M)%nat -> (M < 20)%nat ->
       getGreedyPermEuclidean fo X M true = Raise ZeroDivisionError) /\
      getGreedyPermEuclidean fo X 0 verbose = Raise IndexError)).
Proof.
  split; [apply samplers_reject_empty_input|].
  intros HN. split.
  - intros D HD. split.
    + intros H2 H20.
      apply (getGreedyPermDM_progress_error N M D HD); lia.
    + apply (getGreedyPermDM_no_landmark N verbose D HD). lia.
  - intros d X HX. split.
    + intros H2 H20.
      apply (getGreedyPermEuclidean_progress_error fo N d M X HX); lia.
    + apply (getGreedyPermEuclidean_no_landmark fo N d X verbose HX). lia.
Qed.

Lemma samplers_errors_witness :
  getGreedyPermDM [[0; 3; 4]; [3; 0; 5]; [4; 5; 0]] 3 true
  = Raise ZeroDivisionError /\
  getGreedyPermDM [[0; 3; 4]; [3; 0; 5]; [4; 5; 0]] 0 false
  = Ok {| gd_perm := []; gd_lambdas := []; gd_DLandmarks := [] |} /\
  getGreedyPermEuclidean exact_ops [[0; 0]; [3; 4]] 2 true
  = Raise ZeroDivisionError /\
  getGreedyPermEuclidean exact_ops [[0; 0]; [3; 4]] 0 false
  = Raise IndexError.
Proof.
  assert (HD : shape 3 3 [[0; 3; 4]; [3; 0; 5]; [4; 5; 0]])
    by (split; [reflexivity | repeat constructor]).
  assert (HX : shape 2 2 [[0; 0]; [3; 4]])
    by (split; [reflexivity | repeat constructor]).
  split; [|split; [|split]].
  - apply (proj2 (samplers_errors exact_ops 3 3 false) ltac:(lia));
      [exact HD | lia | lia].
  - apply (proj2 (samplers_errors exact_ops 3 0 false) ltac:(lia)). exact HD.
  - apply (proj2 (proj2 (samplers_errors exact_ops 2 2 false) ltac:(lia))
             2%nat _ HX); lia.
  - apply (proj2 (proj2 (samplers_errors exact_ops 2 0 false) ltac:(lia))
             2%nat _ HX).
Defined.

(** ** The sampler's insertion radii are covering radii *)








(** ** What the Euclidean sampler returns *)

Lemma greedy_euclidean_loop_rows (fo : float_ops) (X : list (list R))
  (M : nat) (verbose : bool) :
  forall n i st st',
    (i + n <= length (gs_perm st))%nat -> landmark_rows fo X i st ->
    foldR (greedy_euclidean_body fo X M verbose) st (seq i n) = Ok st' ->
    landmark_rows fo X (i + n) st' /\
    length (gs_perm st') = length (gs_perm st).
Proof.
  induction n as [|n IH]; intros i st st' Hlen Hinv Hrun; simpl in Hrun.
  - assert (st' = st) by congruence. subst st'.
    rewrite Nat.add_0_r. auto.
  - apply bind_Ok in Hrun as (st1 & Hbody & Hrun).
    unfold greedy_euclidean_body in Hbody.
    apply bind_Ok in Hbody as (idx & Hidx & Hbody).
    apply bind_Ok in Hbody as (lam & Hlam & Hbody).
    apply bind_Ok in Hbody as (row & Hrow & Hbody).
    apply bind_Ok in Hbody as ([] & _ & Hbody).
    assert (Hst1 : st1 = {| gs_perm := <[i := idx]> (gs_perm st);
                            gs_lambdas := <[i := lam]> (gs_lambdas st);
                            gs_ds := minimum (gs_ds st) row;
                            gs_D := <[i := row]> (gs_D st) |})
      by congruence.
    clear Hbody. destruct Hinv as [HlenD Hrows].
    destruct (IH (S i) st1 st') as [Hinv' Hlen'].
    + subst st1. simpl. rewrite length_insert. lia.
    + subst st1. split; simpl.
      * now rewrite !length_insert.
      * intros a Ha. destruct (decide (a = i)) as [->|Hne].
        -- exists idx, row. split; [apply list_lookup_insert_eq; lia|].
           split; [exact Hrow|]. apply list_lookup_insert_eq. lia.
        -- destruct (Hrows a) as (p & y & Hp & Hy & Hrow'); [lia|].
           exists p, y. rewrite !list_lookup_insert_ne by lia. auto.
    + exact Hrun.
    + replace (i + S n)%nat with (S i + n)%nat by lia.
      split; [exact Hinv'|]. rewrite Hlen'. subst st1. simpl.
      apply length_insert.
Qed.

Lemma mapR_index_rows {A : Type} (D : list (list A)) (perm : list nat) :
  forall rows,
    length rows = length perm ->
    (forall a p, perm !! a = Some p ->
       exists row, D !! p = Some row /\ rows !! a = Some row) ->
    mapR (index D) perm = Ok rows.
Proof.
  induction perm as [|p perm IH]; intros rows Hlen Hrows.
  - destruct rows; [reflexivity | discriminate].
  - destruct rows as [|r rows]; [discriminate|].
    destruct (Hrows 0%nat p eq_refl) as (row & Hrow & Hr).
    simpl in Hr. inversion Hr; subst row.
    cbn [mapR]. rewrite (proj2 (index_Ok _ _ _) Hrow). cbn [bind].
    rewrite (IH rows); [reflexivity | simpl in Hlen; lia |].
    intros a q Hq. exact (Hrows (S a) q Hq).
Qed.

Lemma getGreedyPermEuclidean_rows (fo : float_ops) (N d : nat)
  (X : list (list R)) (M : nat) (verbose : bool)
  (res : greedy_perm_euclidean) :
  shape N d X ->
  getGreedyPermEuclidean fo X M verbose = Ok res ->
  (1 <= M)%nat /\ (0 < N)%nat /\
  length (ge_perm res) = M /\
  mapR (index X) (ge_perm res) = Ok (ge_Y res) /\
  mapR (index (landmark_distances fo X)) (ge_perm res) = Ok (ge_D res).
Proof.
  intros HX Hrun. unfold getGreedyPermEuclidean in Hrun.
  apply bind_Ok in Hrun as (ds & Hds & Hrun).
  destruct M as [|M]; [discriminate|]. cbn [bind] in Hrun.
  apply bind_Ok in Hrun as (st & Hst & Hrun).
  apply bind_Ok in Hrun as (Y & HY & Hrun).
  assert (Hres : res = {| ge_Y := Y; ge_perm := gs_perm st;
                          ge_lambdas := gs_lambdas st; ge_D := gs_D st |})
    by congruence.
  clear Hrun. subst res. cbn [ge_Y ge_perm ge_D].
  apply greedy_euclidean_loop_rows in Hst as [[HlenD Hrows] Hlen].
  - simpl in Hlen. rewrite length_replicate in Hlen.
    replace (1 + (S M - 1))%nat with (S M) in Hrows by lia.
    split; [lia|]. split.
    { apply distances_from_bound in Hds. destruct HX as [<- _]. exact Hds. }
    split; [exact Hlen|]. split; [exact HY|].
    apply mapR_index_rows; [exact HlenD|].
    intros a p Hp.
    destruct (Hrows a) as (p' & row & Hp' & Hrow & HD).
    { rewrite <- Hlen. apply lookup_lt_is_Some. eauto. }
    assert (p' = p) by congruence. subst p'.
    exists row. split; [|exact HD].
    now apply (landmark_distances_lookup fo N d X p row HX).
  - cbn [gs_perm]. rewrite length_replicate. lia.
  - split; cbn [gs_D gs_perm].
    + now rewrite length_insert, !length_replicate.
    + intros a Ha. assert (a = 0%nat) by lia. subst a.
      exists 0%nat, ds. split; [apply lookup_replicate_2; lia|].
      split; [exact Hds|].
      apply list_lookup_insert_eq. rewrite length_replicate. lia.
Qed.

Lemma getGreedyPermEuclidean_Ok_quiet (fo : float_ops) (N d M : nat)
  (verbose : bool) (X : list (list R)) (res : greedy_perm_euclidean) :
  shape N d X -> (0 < N)%nat ->
  getGreedyPermEuclidean fo X M verbose = Ok res -> quiet verbose M.
Proof.
  intros HX HN Hres. destruct verbose; [|now left].
  destruct (le_lt_dec M 1) as [H1|H1]; [right; now left|].
  destruct (le_lt_dec 20 M) as [H20|H20]; [right; now right|].
  rewrite (getGreedyPermEuclidean_progress_error fo N d M X HX HN) in Hres
    by lia.
  discriminate.
Qed.

Lemma getGreedyPermEuclidean_DM (fo : float_ops) (N d : nat)
  (X : list (list R)) (M : nat) (verbose : bool)
  (res : greedy_perm_euclidean) :
  shape N d X ->
  getGreedyPermEuclidean fo X M verbose = Ok res ->
  getGreedyPermDM (landmark_distances fo X) M verbose
  = Ok {| gd_perm := ge_perm res; gd_lambdas := ge_lambdas res;
          gd_DLandmarks := ge_D res |}.
Proof.
  intros HX Hrun.
  destruct (getGreedyPermEuclidean_rows fo N d X M verbose res HX Hrun)
    as (HM & HN & Hlen & HY & HD).
  pose proof (getGreedyPermEuclidean_Ok_quiet fo N d M verbose X res HX HN Hrun)
    as Hq.
  destruct (getGreedyPermDM_inv N M verbose (landmark_distances fo X))
    as (resd & st & Hresd & _);
    [eapply landmark_distances_shape; eauto | exact HN | exact HM | exact Hq |].
  destruct (getGreedyPermEuclidean_as_DM fo N d X M verbose resd HX HM Hresd)
    as (res' & Hres' & Hp & Hl).
  assert (res' = res) by congruence. subst res'.
  rewrite Hresd. f_equal. destruct resd as [perm lambdas DL].
  simpl in Hp, Hl. subst perm lambdas. f_equal.
  apply getGreedyPermDM_rows in Hresd. simpl in Hresd. congruence.
Qed.

(** X4. Whenever the Euclidean sampler returns on a cloud of [N] points,
    its [Y] holds the points of [X] at the indices [perm], row [a] of its
    [D] holds the distances it computed from landmark [perm[a]] to all
    points, and the distance-matrix sampler run on the matrix of the
    distances computed from every point returns the same permutation, the
    same insertion radii and the same landmark-to-data distances. *)
Theorem euclidean_sampler_agrees_with_distance_matrix_sampler
  (fo : float_ops) (N d : nat) (X : list (list R)) (M : nat)
  (verbose : bool) (res : greedy_perm_euclidean) :
  shape N d X ->
  getGreedyPermEuclidean fo X M verbose = Ok res ->
  length (ge_perm res) = M /\
  mapR (index X) (ge_perm res) = Ok (ge_Y res) /\
  mapR (index (landmark_distances fo X)) (ge_perm res) = Ok (ge_D res) /\
  getGreedyPermDM (landmark_distances fo X) M verbose
  = Ok {| gd_perm := ge_perm res; gd_lambdas := ge_lambdas res;
          gd_DLandmarks := ge_D res |}.
Proof.
  intros HX Hrun.
  destruct (getGreedyPermEuclidean_rows fo N d X M verbose res HX Hrun)
    as (_ & _ & Hlen & HY & HD).
  split; [exact Hlen|]. split; [exact HY|]. split; [exact HD|].
  exact (getGreedyPermEuclidean_DM fo N d X M verbose res HX Hrun).
Qed.

Lemma euclidean_sampler_agrees_with_distance_matrix_sampler_witness :
  exists res,
    getGreedyPermEuclidean exact_ops [[0]; [1]] 2 false = Ok res /\
    length (ge_perm res) = 2%nat /\
    mapR (index [[0]; [1]]) (ge_perm res) = Ok (ge_Y res) /\
    mapR (index (landmark_distances exact_ops [[0]; [1]])) (ge_perm res)
      = Ok (ge_D res) /\
    getGreedyPermDM (landmark_distances exact_ops [[0]; [1]]) 2 false
    = Ok {| gd_perm := ge_perm res; gd_lambdas := ge_lambdas res;
            gd_DLandmarks := ge_D res |}.
Proof.
  assert (HX : shape 2 1 [[0]; [1]])
    by (split; [reflexivity | repeat constructor]).
  destruct (getGreedyPermDM_inv 2 2 false
              (landmark_distances exact_ops [[0]; [1]]))
    as (resd & _ & Hresd & _);
    [eapply landmark_distances_shape; eauto | lia | lia | now left |].
  destruct (getGreedyPermEuclidean_as_DM exact_ops 2 1 [[0]; [1]] 2 false
              resd HX ltac:(lia) Hresd) as (res & Hres & _).
  exists res. split; [exact Hres|].
  exact (euclidean_sampler_agrees_with_distance_matrix_sampler exact_ops 2 1
           [[0]; [1]] 2 false res HX Hres).
Defined.

(** ** The sign matrix, entry by entry *)

Lemma set_entry_lookup (m m' : list (list float64)) (a b : nat) (v : float64) :
  set_entry m a b v = Ok m' ->
  (exists row, m !! a = Some row /\ (b < length row)%nat) /\
  entry m' a b = Some v /\
  forall a' b', (a', b') <> (a, b) -> entry m' a' b' = entry m a' b'.
Proof.
  intros Hset. unfold set_entry in Hset.
  apply bind_Ok in Hset as (row & Hrow & Hset).
  apply bind_Ok in Hset as (w & Hw & Hset).
  apply index_Ok in Hrow, Hw.
  assert (m' = <[a := <[b := v]> row]> m) by congruence. subst m'.
  assert (Ha : (a < length m)%nat) by (apply lookup_lt_is_Some; eauto).
  assert (Hb : (b < length row)%nat) by (apply lookup_lt_is_Some; eauto).
  split; [eauto|]. split.
  - unfold entry. rewrite list_lookup_insert_eq by exact Ha. simpl.
    apply list_lookup_insert_eq. exact Hb.
  - intros a' b' Hne. unfold entry.
    destruct (decide (a' = a)) as [->|Hna].
    + rewrite list_lookup_insert_eq by exact Ha. rewrite Hrow. simpl.
      apply list_lookup_insert_ne. congruence.
    + now rewrite list_lookup_insert_ne by congruence.
Qed.

Lemma set_entry_total (n : nat) (m : list (list float64)) (a b : nat)
  (v : float64) :
  shape n n m -> (a < n)%nat -> (b < n)%nat ->
  exists m', set_entry m a b v = Ok m'.
Proof.
  intros Hm Ha Hb.
  destruct (shape_row n n m a Hm Ha) as (row & Hrow & Hlen).
  destruct (lookup_lt_is_Some_2 row b) as [w Hw]; [lia|].
  unfold set_entry. rewrite (proj2 (index_Ok _ _ _) Hrow). simpl.
  rewrite (proj2 (index_Ok _ _ _) Hw). simpl. eauto.
Qed.

Lemma set_entry_error (m : list (list float64)) (a b : nat) (v : float64)
  (e : pyerr) : set_entry m a b v = Raise e -> e = IndexError.
Proof.
  unfold set_entry, index.
  destruct (m !! a) as [row|]; simpl; [|congruence].
  destruct (row !! b); simpl; congruence.
Qed.

(** One pass of assignments [m[sel e] = -1] over the rows [e] of a
    cocycle. *)
Lemma sign_pass (n : nat) (sel : nat * nat * nat -> nat * nat) (c : cocycle) :
  forall m,
    sign_matrix n m ->
    match foldR (fun m e => set_entry m (fst (sel e)) (snd (sel e)) (Fin (-1)))
                m c with
    | Ok m' =>
        sign_matrix n m' /\
        Forall (fun e => (fst (sel e) < n)%nat /\ (snd (sel e) < n)%nat) c /\
        forall a b,
          entry m' a b
          = if decide (Exists (fun e => sel e = (a, b)) c)
            then Some (Fin (-1)) else entry m a b
    | Raise err =>
        err = IndexError /\
        ~ Forall (fun e => (fst (sel e) < n)%nat /\ (snd (sel e) < n)%nat) c
    end.
Proof.
  induction c as [|e c IH]; intros m Hm; cbn [foldR].
  - split; [exact Hm|]. split; [constructor|]. intros a b.
    destruct (decide _) as [H|H]; [inversion H | reflexivity].
  - destruct (set_entry m (fst (sel e)) (snd (sel e)) (Fin (-1)))
      as [m1|err] eqn:Hset; cbn [bind].
    + pose proof (set_entry_sign_matrix n m m1 _ _ Hm Hset) as Hm1.
      destruct (set_entry_lookup _ _ _ _ _ Hset)
        as ((row & Hrow & Hb) & Hhit & Hmiss).
      assert (Hin : (fst (sel e) < n)%nat /\ (snd (sel e) < n)%nat).
      { destruct Hm as [[Hn Hw] _]. split.
        - rewrite <- Hn. apply lookup_lt_is_Some. eauto.
        - rewrite Forall_forall in Hw. rewrite <- (Hw row); [exact Hb|].
          eapply list_elem_of_lookup_2; eauto. }
      specialize (IH m1 Hm1).
      destruct (foldR _ m1 c) as [m'|err'].
      * destruct IH as (Hm' & Hall & Hent).
        split; [exact Hm'|]. split; [constructor; assumption|].
        intros a b. rewrite Hent.
        destruct (decide (Exists (fun e0 => sel e0 = (a, b)) c)) as [Hc|Hc].
        -- rewrite decide_True by (now apply Exists_cons_tl). reflexivity.
        -- destruct (decide (sel e = (a, b))) as [He|He].
           ++ rewrite decide_True by (now apply Exists_cons_hd).
              rewrite He in Hhit. exact Hhit.
           ++ rewrite decide_False.
              ** apply Hmiss. intros E. apply He.
                 rewrite (surjective_pairing (sel e)). congruence.
              ** intros E. apply Exists_cons in E as [E|E]; contradiction.
      * destruct IH as [-> Hnot]. split; [reflexivity|].
        intros Hall. apply Hnot. now inversion Hall.
    + split; [exact (set_entry_error _ _ _ _ _ Hset)|].
      intros Hall. inversion Hall as [|? ? [Ha Hb] _]; subst.
      destruct (set_entry_total n m _ _ (Fin (-1)) (proj1 Hm) Ha Hb)
        as [m1 Hm1].
      congruence.
Qed.

Lemma ones_sign_matrix (n : nat) :
  sign_matrix n (replicate n (replicate n (Fin 1))).
Proof.
  split; [split|].
  - apply length_replicate.
  - apply Forall_replicate, length_replicate.
  - apply Forall_replicate, Forall_replicate. now left.
Qed.

Lemma ones_entry (n a b : nat) :
  (a < n)%nat -> (b < n)%nat ->
  entry (replicate n (replicate n (Fin 1))) a b = Some (Fin 1).
Proof.
  intros Ha Hb. unfold entry.
  rewrite lookup_replicate_2 by exact Ha. simpl.
  now apply lookup_replicate_2.
Qed.

Lemma cocycle_matrix_cases (n : nat) (c : cocycle) :
  match cocycle_matrix n c with
  | Ok signs =>
      cocycle_in_range n c /\ sign_matrix n signs /\
      forall a b, (a < n)%nat -> (b < n)%nat ->
        entry signs a b
        = Some (if decide (cocycle_edge c a b) then Fin (-1) else Fin 1)
  | Raise err => err = IndexError /\ ~ cocycle_in_range n c
  end.
Proof.
  unfold cocycle_matrix.
  pose proof (sign_pass n (fun e => (fst (fst e), snd (fst e))) c _
                (ones_sign_matrix n)) as H1.
  cbn [fst snd] in H1.
  destruct (foldR _ (replicate n (replicate n (Fin 1))) c) as [m|err];
    cbn [bind].
  2:{ exact H1. }
  destruct H1 as (Hm & Hall & Hent).
  pose proof (sign_pass n (fun e => (snd (fst e), fst (fst e))) c m Hm) as H2.
  cbn [fst snd] in H2.
  destruct (foldR _ m c) as [m'|err].
  2:{ destruct H2 as [-> Hnot]. split; [reflexivity|].
      intros _. apply Hnot. eapply Forall_impl; [exact Hall|].
      intros e [Ha Hb]. cbn [fst snd]. auto. }
  destruct H2 as (Hm' & _ & Hent').
  split; [exact Hall|]. split; [exact Hm'|].
  intros a b Ha Hb. rewrite Hent', Hent, (ones_entry n a b Ha Hb).
  unfold cocycle_edge.
  destruct (decide (Exists (fun e => (snd (fst e), fst (fst e)) = (a, b)) c))
    as [E2|E2].
  - rewrite decide_True; [reflexivity|].
    eapply Exists_impl; [exact E2|]. intros e He. right.
    rewrite (surjective_pairing (fst e)). congruence.
  - destruct (decide (Exists (fun e => (fst (fst e), snd (fst e)) = (a, b)) c))
      as [E1|E1].
    + rewrite decide_True; [reflexivity|].
      eapply Exists_impl; [exact E1|]. intros e He. left.
      rewrite (surjective_pairing (fst e)). exact He.
    + rewrite decide_False; [reflexivity|].
      intros E. apply Exists_exists in E as (e & Hin & [He|He]).
      * apply E1. apply Exists_exists. exists e. split; [exact Hin|].
        rewrite <- He. symmetry. apply surjective_pairing.
      * apply E2. apply Exists_exists. exists e. split; [exact Hin|].
        rewrite He. reflexivity.
Qed.

(** X5. The sign matrix is built without error exactly when every vertex
    of the cocycle is a landmark index, and raises [IndexError] otherwise.
    When it is built it is [n_landmarks] by [n_landmarks] with [-1] at
    [(a, b)] exactly when a row of the cocycle joins [a] and [b], in
    either order, and [1] everywhere else; in particular it is
    symmetric. *)
Theorem cocycle_matrix_marks_cocycle_edges (n : nat) (c : cocycle) :
  (cocycle_in_range n c ->
   exists signs, cocycle_matrix n c = Ok signs /\
     sign_matrix n signs /\
     (forall a b, (a < n)%nat -> (b < n)%nat ->
        entry signs a b
        = Some (if decide (cocycle_edge c a b) then Fin (-1) else Fin 1)) /\
     (forall a b, (a < n)%nat -> (b < n)%nat ->
        entry signs a b = entry signs b a)) /\
  (~ cocycle_in_range n c -> cocycle_matrix n c = Raise IndexError).
Proof.
  pose proof (cocycle_matrix_cases n c) as H.
  destruct (cocycle_matrix n c) as [signs|err].
  - destruct H as (Hall & Hs & Hent). split; [|contradiction].
    intros _. exists signs. split; [reflexivity|]. split; [exact Hs|].
    split; [exact Hent|].
    intros a b Ha Hb. rewrite (Hent a b Ha Hb), (Hent b a Hb Ha).
    f_equal. unfold cocycle_edge.
    destruct (decide (Exists _ c)) as [E|E].
    + rewrite decide_True; [reflexivity|].
      eapply Exists_impl; [exact E|]. intros e [He|He]; auto.
    + rewrite decide_False; [reflexivity|].
      intros E'. apply E. eapply Exists_impl; [exact E'|].
      intros e [He|He]; auto.
  - destruct H as [-> Hnot]. split; [contradiction | reflexivity].
Qed.

Lemma cocycle_matrix_marks_cocycle_edges_witness :
  (exists signs, cocycle_matrix 3 [(2%nat, 0%nat, 1%nat)] = Ok signs /\
     sign_matrix 3 signs /\
     (forall a b, (a < 3)%nat -> (b < 3)%nat ->
        entry signs a b
        = Some (if decide (cocycle_edge [(2%nat, 0%nat, 1%nat)] a b)
                then Fin (-1) else Fin 1)) /\
     (forall a b, (a < 3)%nat -> (b < 3)%nat ->
        entry signs a b = entry signs b a)) /\
  cocycle_matrix 2 [(2%nat, 0%nat, 1%nat)] = Raise IndexError.
Proof.
  split.
  - apply (proj1 (cocycle_matrix_marks_cocycle_edges 3 [(2%nat, 0%nat, 1%nat)])).
    repeat constructor.
  - apply (proj2 (cocycle_matrix_marks_cocycle_edges 2 [(2%nat, 0%nat, 1%nat)])).
    intros H. inversion H as [|? ? [Ha _] _]; subst. simpl in Ha. lia.
Defined.

(** ** The ball a point is assigned to *)

Lemma first_true_Some (l : list bool) :
  forall k b, first_true k l = Some b ->
    exists j, b = (k + j)%nat /\ l !! j = Some true /\
              forall j', (j' < j)%nat -> l !! j' = Some false.
Proof.
  induction l as [|x l IH]; intros k b H; simpl in H; [discriminate|].
  destruct x.
  - exists 0%nat. split; [injection H; lia|]. split; [reflexivity|].
    intros j' Hj'. lia.
  - destruct (IH _ _ H) as (j & -> & Hj & Hbefore).
    exists (S j). split; [lia|]. split; [exact Hj|].
    intros [|j'] Hj'; [reflexivity|]. simpl. apply Hbefore. lia.
Qed.

Lemma first_true_None (l : list bool) (k : nat) :
  first_true k l = None -> forall j, l !! j <> Some true.
Proof.
  revert k. induction l as [|x l IH]; intros k H j; simpl in H.
  - now rewrite lookup_nil.
  - destruct x; [discriminate|].
    destruct j as [|j]; simpl; [discriminate | exact (IH _ H j)].
Qed.

Lemma argmax_bool_first (l : list bool) :
  (forall j, l !! j = Some true ->
     l !! argmax_bool l = Some true /\ (argmax_bool l <= j)%nat) /\
  ((forall j, l !! j <> Some true) -> argmax_bool l = 0%nat).
Proof.
  unfold argmax_bool. destruct (first_true 0 l) as [b|] eqn:E.
  - destruct (first_true_Some l 0 b E) as (j0 & Hb & Hj0 & Hbefore).
    simpl in Hb. subst j0. split.
    + intros j Hj. split; [exact Hj0|].
      destruct (decide (b <= j)%nat) as [Hle|Hgt]; [exact Hle|].
      rewrite Hbefore in Hj by lia. discriminate.
    + intros Hnone. now destruct (Hnone b).
  - split; [|reflexivity].
    intros j Hj. now destruct (first_true_None l 0 E j).
Qed.

Lemma col_entry {A : Type} (n w j : nat) (m : list (list A)) (i : nat) :
  shape n w m -> (j < w)%nat -> col j m !! i = entry m i j.
Proof. intros Hm Hj. exact (col_lookup n w j m i Hm Hj). Qed.


(** X6. Every data point is assigned a landmark index below the number of
    landmarks.  When the point lies in some ball, the index is that of the
    first ball containing it: the ball with this index contains the point
    and no ball with a smaller index does.  When the point lies in no ball,
    the index is 0. *)
Theorem ball_index_is_first_covering_ball (L N i : nat)
  (dist : list (list R)) (r_cover : float64) :
  shape L N dist -> (0 < L)%nat -> (i < N)%nat ->
  exists b, ball_index (cover_sets dist r_cover) !! i = Some b /\
    (b < L)%nat /\
    (forall j d, entry dist j i = Some d -> fltb (Fin d) r_cover = true ->
       (b <= j)%nat /\
       exists d', entry dist b i = Some d' /\ fltb (Fin d') r_cover = true) /\
    ((forall j d, entry dist j i = Some d -> fltb (Fin d) r_cover = false) ->
     b = 0%nat).
Proof.
  intros HD HL Hi.
  pose proof (cover_sets_shape L N dist r_cover HD) as HU.
  unfold ball_index.
  rewrite (ncols_shape L N _ HU HL), lookup_map, lookup_seq_lt by lia.
  cbn [fmap option_fmap option_map Nat.add].
  assert (Hcol : col i (cover_sets dist r_cover)
                 = map (fun d => fltb (Fin d) r_cover) (col i dist)).
  { unfold cover_sets. apply col_map. }
  exists (argmax_bool (col i (cover_sets dist r_cover))).
  split; [reflexivity|].
  pose proof (col_shape L N i _ HU Hi) as Hlen.
  split; [pose proof (argmax_bool_bound (col i (cover_sets dist r_cover))); lia|].
  destruct (argmax_bool_first (col i (cover_sets dist r_cover))) as [Hfirst Hnone].
  assert (Hlook : forall j, col i (cover_sets dist r_cover) !! j
                            = (fun d => fltb (Fin d) r_cover) <$> entry dist j i).
  { intros j. rewrite Hcol, lookup_map.
    now rewrite (col_entry L N i dist j HD Hi). }
  split.
  - intros j d Hd Hin.
    destruct (Hfirst j) as [Hb Hle].
    { rewrite Hlook, Hd. cbn [fmap option_fmap option_map]. now rewrite Hin. }
    split; [exact Hle|].
    rewrite Hlook in Hb.
    destruct (entry dist (argmax_bool (col i (cover_sets dist r_cover))) i)
      as [d'|]; cbn [fmap option_fmap option_map] in Hb; [|discriminate].
    exists d'. split; [reflexivity | congruence].
  - intros Hout. apply Hnone. intros j Hj.
    rewrite Hlook in Hj.
    destruct (entry dist j i) as [d|] eqn:Hd;
      cbn [fmap option_fmap option_map] in Hj; [|discriminate].
    rewrite (Hout j d Hd) in Hj. discriminate.
Qed.

Lemma ball_index_is_first_covering_ball_witness :
  exists b, ball_index (cover_sets [[3; 0]; [1; 2]; [0; 1]] (Fin 2)) !! 0%nat
            = Some b /\
    (b < 3)%nat /\
    (forall j d, entry [[3; 0]; [1; 2]; [0; 1]] j 0 = Some d ->
       fltb (Fin d) (Fin 2) = true ->
       (b <= j)%nat /\
       exists d', entry [[3; 0]; [1; 2]; [0; 1]] b 0 = Some d' /\
                  fltb (Fin d') (Fin 2) = true) /\
    ((forall j d, entry [[3; 0]; [1; 2]; [0; 1]] j 0 = Some d ->
        fltb (Fin d) (Fin 2) = false) ->
     b = 0%nat).
Proof.
  apply (ball_index_is_first_covering_ball 3 2 0).
  - split; [reflexivity | repeat constructor].
  - lia.
  - lia.
Defined.

(** ** The partition of unity is subordinate to the cover *)

Lemma sum_list_ge_elem (l : list R) (a : nat) (x : R) :
  Forall (fun y => 0 <= y) l -> l !! a = Some x -> x <= sum_list l.
Proof.
  revert a. induction l as [|y l IH]; intros a Hpos Hx; [discriminate|].
  inversion Hpos as [|? ? Hy Hl]; subst.
  pose proof (sum_list_nonneg l Hl) as Hs.
  change (sum_list (y :: l)) with (y + sum_list l).
  destruct a as [|a]; simpl in Hx.
  - assert (y = x) by congruence. lra.
  - specialize (IH a Hl Hx). lra.
Qed.




(** ** The coverage term on landmarks drawn from the data *)

Lemma separated_triangle : separated [[0; 3; 4]; [3; 0; 5]; [4; 5; 0]].
Proof.
  intros a b ra v Ha Hb.
  destruct a as [|[|[|a]]]; simpl in Ha; inversion Ha; subst ra;
    destruct b as [|[|[|b]]]; simpl in Hb; inversion Hb; subst v;
    (split; [lra|]); split; intros; try lra; try lia; try reflexivity.
Qed.

(** X8. The value [np.max(np.min(dist_land_data, 1))] that enters the
    radius is 0 on the landmark-to-data distances the distance-matrix
    sampler returns, whenever the matrix is square, non-negative and zero
    exactly on the diagonal.  Each landmark is a data point, at distance 0
    from itself, so the minimum of every row is 0. *)
Theorem coverage_term_is_zero_on_sampled_landmarks (N M : nat)
  (verbose : bool) (D : list (list R)) (res : greedy_perm_dm) :
  shape N N D -> separated D -> (1 <= M)%nat ->
  getGreedyPermDM D M verbose = Ok res -> coverage (gd_DLandmarks res) = Ok 0.
Proof.
  intros HD Hsep HM Hrun.
  exact (coverage_of_sampled_landmarks N M verbose D res HD HM Hsep Hrun).
Qed.

Lemma coverage_term_is_zero_on_sampled_landmarks_witness :
  exists res,
    getGreedyPermDM [[0; 3; 4]; [3; 0; 5]; [4; 5; 0]] 2 false = Ok res /\
    gd_DLandmarks res = [[0; 3; 4]; [4; 5; 0]] /\
    coverage (gd_DLandmarks res) = Ok 0.
Proof.
  assert (Hrun : getGreedyPermDM [[0; 3; 4]; [3; 0; 5]; [4; 5; 0]] 2 false
                 = Ok {| gd_perm := [0; 2]%nat; gd_lambdas := [0; 4];
                         gd_DLandmarks := [[0; 3; 4]; [4; 5; 0]] |}).
  { unfold getGreedyPermDM, greedy_dm_body. np_eval. reflexivity. }
  eexists. split; [exact Hrun|]. split; [reflexivity|].
  apply (coverage_term_is_zero_on_sampled_landmarks 3 2 false
           [[0; 3; 4]; [3; 0; 5]; [4; 5; 0]]).
  - split; [reflexivity | repeat constructor].
  - exact separated_triangle.
  - lia.
  - exact Hrun.
Defined.

(** ** [np.argmax] returns the first maximum *)

Lemma argmax_from_first (l pre : list R) (best : R) (bi : nat) :
  pre !! bi = Some best ->
  (forall j x, pre !! j = Some x -> x <= best) ->
  (forall j x, (j < bi)%nat -> pre !! j = Some x -> x < best) ->
  exists v, (pre ++ l) !! argmax_from best bi (length pre) l = Some v /\
    (forall j x, (pre ++ l) !! j = Some x -> x <= v) /\
    (forall j x, (j < argmax_from best bi (length pre) l)%nat ->
       (pre ++ l) !! j = Some x -> x < v).
Proof.
  revert pre best bi.
  induction l as [|x l IH]; intros pre best bi Hbi Hmax Hfirst.
  - simpl. rewrite app_nil_r. eauto.
  - simpl. replace (pre ++ x :: l) with ((pre ++ [x]) ++ l)
      by (rewrite <- app_assoc; reflexivity).
    replace (S (length pre)) with (length (pre ++ [x]))
      by (rewrite length_app; simpl; lia).
    assert (Hlt : (bi < length pre)%nat) by (apply lookup_lt_is_Some; eauto).
    destruct (Rltb best x) eqn:E.
    + apply Rltb_true in E. apply IH.
      * rewrite lookup_app_r by lia. now rewrite Nat.sub_diag.
      * intros j y Hj. apply lookup_app_Some in Hj as [Hj | [_ Hj]].
        -- apply Hmax in Hj. lra.
        -- destruct (j - length pre)%nat; simpl in Hj; [|discriminate].
           inversion Hj. lra.
      * intros j y Hjlt Hj. rewrite lookup_app_l in Hj by exact Hjlt.
        apply Hmax in Hj. lra.
    + apply Rltb_false in E. apply IH.
      * rewrite lookup_app_l; [exact Hbi | exact Hlt].
      * intros j y Hj. apply lookup_app_Some in Hj as [Hj | [_ Hj]].
        -- now apply (Hmax j).
        -- destruct (j - length pre)%nat; simpl in Hj; [|discriminate].
           inversion Hj. lra.
      * intros j y Hjlt Hj. rewrite lookup_app_l in Hj by lia.
        now apply (Hfirst j).
Qed.

Lemma argmax_first (l : list R) (i : nat) :
  argmax l = Ok i ->
  exists v, l !! i = Some v /\
    (forall j x, l !! j = Some x -> x <= v) /\
    (forall j x, (j < i)%nat -> l !! j = Some x -> x < v).
Proof.
  destruct l as [|x l]; [discriminate|]. intros H.
  destruct (argmax_from_first l [x] x 0) as (v & Hv & Hmax & Hfirst).
  - reflexivity.
  - intros [|j] y Hj; simpl in Hj; inversion Hj. lra.
  - intros j y Hj. lia.
  - simpl in H. assert (i = argmax_from x 0 1 l) by congruence. subst i.
    exists v. simpl in *. auto.
Qed.

(** ** Both versions of [PPCA] as a trace of reduction steps *)

Lemma transpose_length {A : Type} (m : list (list A)) :
  length (transpose m) = ncols m.
Proof. unfold transpose. now rewrite length_map, length_seq. Qed.

Lemma ppca_trace_S (ext : externals) (k : nat) (X : list (list float64)) :
  ppca_trace ext (S k) X
  = bind (ppca_reduce ext X)
         (fun vx => bind (ppca_trace ext k (snd vx))
                         (fun r => Ok (fst vx :: fst r, snd r))).
Proof. reflexivity. Qed.

Lemma ppca_iterate_S (ext : externals) (k : nat) (X : list (list float64)) :
  ppca_iterate ext (S k) X
  = bind (ppca_reduce ext X) (fun vx => ppca_iterate ext k (snd vx)).
Proof. reflexivity. Qed.

Lemma ppca_trace_app (ext : externals) (a b : nat) :
  forall X,
    ppca_trace ext (a + b) X
    = bind (ppca_trace ext a X)
           (fun r1 => bind (ppca_trace ext b (snd r1))
                           (fun r2 => Ok (fst r1 ++ fst r2, snd r2))).
Proof.
  induction a as [|a IH]; intros X.
  - cbn [Nat.add ppca_trace bind fst snd app].
    destruct (ppca_trace ext b X) as [[vs Xb]|e]; reflexivity.
  - change (S a + b)%nat with (S (a + b)). rewrite !ppca_trace_S.
    destruct (ppca_reduce ext X) as [[v X1]|e]; cbn [bind fst snd];
      [|reflexivity].
    rewrite IH.
    destruct (ppca_trace ext a X1) as [[vs1 Xa]|e]; cbn [bind fst snd];
      [|reflexivity].
    destruct (ppca_trace ext b Xa) as [[vs2 Xn]|e]; reflexivity.
Qed.

Lemma ppca_trace_iterate (ext : externals) (k : nat) :
  forall X vs Xk,
    ppca_trace ext k X = Ok (vs, Xk) ->
    ppca_iterate ext k X = Ok Xk /\ length vs = k.
Proof.
  induction k as [|k IH]; intros X vs Xk H.
  - cbn [ppca_trace] in H. assert (vs = [] /\ Xk = X) as [-> ->].
    { split; congruence. }
    split; reflexivity.
  - rewrite ppca_trace_S in H. rewrite ppca_iterate_S.
    destruct (ppca_reduce ext X) as [[v X1]|e]; cbn [bind fst snd] in *;
      [|discriminate].
    destruct (ppca_trace ext k X1) as [[vs1 Xk1]|e] eqn:E;
      cbn [bind fst snd] in H; [|discriminate].
    assert (vs = v :: vs1 /\ Xk = Xk1) as [-> ->] by (split; congruence).
    destruct (IH X1 vs1 Xk1 E) as [Hit Hlen].
    split; [exact Hit | simpl; lia].
Qed.

Lemma set_from_end_Ok {A : Type} (l : list A) (k : nat) (v : A) :
  (k <= length l)%nat ->
  set_from_end l k v = Ok (<[(length l - k)%nat := v]> l).
Proof.
  intros Hk. unfold set_from_end.
  now rewrite (proj2 (Nat.leb_le k (length l)) Hk).
Qed.

(** The loop writing [variance[-i-1]] at the steps [i, ..., i+n-1]. *)
Lemma variance_loop (ext : externals) :
  forall n i X var,
    (i + n <= length var)%nat ->
    foldR (variance_step ext) (X, var) (seq i n)
    = match ppca_trace ext n X with
      | Ok (vs, Xn) =>
          Ok (Xn, take (length var - i - n) var ++ rev vs
                  ++ drop (length var - i) var)
      | Raise e => Raise e
      end.
Proof.
  induction n as [|n IH]; intros i X var Hlen.
  - cbn [seq foldR ppca_trace rev app].
    rewrite Nat.sub_0_r. now rewrite take_drop.
  - cbn [seq foldR]. rewrite ppca_trace_S.
    unfold variance_step at 1. cbn [fst snd].
    destruct (ppca_reduce ext X) as [[v X1]|e]; cbn [bind fst snd];
      [|reflexivity].
    rewrite set_from_end_Ok by lia. cbn [bind].
    rewrite IH by (rewrite length_insert; lia).
    destruct (ppca_trace ext n X1) as [[vs Xn]|e]; cbn [bind fst snd];
      [|reflexivity].
    f_equal. f_equal. rewrite length_insert.
    rewrite take_insert_ge by lia.
    replace (length var - S i - n)%nat with (length var - i - S n)%nat by lia.
    f_equal.
    rewrite (insert_take_drop var (length var - (i + 1))) by lia.
    rewrite drop_app_length'.
    2:{ rewrite length_take. lia. }
    cbn [rev]. rewrite <- app_assoc. cbn [app].
    replace (S (length var - (i + 1))) with (length var - i)%nat by lia.
    reflexivity.
Qed.

(** The coordinates loop of [Root.PPCA] continues the main loop. *)
Lemma coordinates_loop (ext : externals) (L proj_dim : nat) :
  (proj_dim + 1 <= L)%nat ->
  forall n j X var,
    length var = (L - 1)%nat -> (j + n <= proj_dim)%nat ->
    foldR (coordinates_step ext proj_dim) (X, var) (seq j n)
    = foldR (variance_step ext) (X, var) (seq (L - proj_dim - 1 + j) n).
Proof.
  intros Hpd. induction n as [|n IH]; intros j X var Hvar Hj.
  - reflexivity.
  - cbn [seq foldR]. unfold coordinates_step at 1, variance_step at 1.
    cbn [fst snd].
    destruct (ppca_reduce ext X) as [[v X1]|e]; cbn [bind fst snd];
      [|reflexivity].
    destruct (index_lt var (proj_dim - j - 1)) as (w & Hw & _); [lia|].
    rewrite Hw. cbn [bind].
    rewrite set_from_end_Ok by lia. cbn [bind].
    replace (length var - (L - proj_dim - 1 + j + 1))%nat
      with (proj_dim - j - 1)%nat by lia.
    replace (S (L - proj_dim - 1 + j)) with (L - proj_dim - 1 + S j)%nat
      by lia.
    apply IH; [rewrite length_insert; exact Hvar | lia].
Qed.

Lemma zeros_tail (n k : nat) (vs : list float64) :
  (k <= n)%nat ->
  take (n - 0 - k) (replicate n (Fin 0)) ++ rev vs
    ++ drop (n - 0) (replicate n (Fin 0))
  = replicate (n - k) (Fin 0) ++ rev vs.
Proof.
  intros Hk. rewrite !Nat.sub_0_r, take_replicate, drop_replicate.
  rewrite Nat.sub_diag, app_nil_r. f_equal. f_equal. lia.
Qed.

(** [Root.PPCA] with a silent progress report, when the target dimension
    is below the number of classes: [n_dim - proj_dim - 1] steps, then
    [proj_dim] more. *)
Lemma Root_PPCA_trace (ext : externals) (cm : list (list float64))
  (proj_dim : nat) :
  (proj_dim + 1 <= ncols cm)%nat ->
  Root.PPCA ext cm proj_dim false
  = match ppca_trace ext (ncols cm - proj_dim - 1) (transpose cm) with
    | Ok (vs1, XK) =>
        match ppca_trace ext proj_dim XK with
        | Ok (vs2, Z) =>
            Ok {| Root.variance := rev (vs1 ++ vs2);
                  Root.X := XK; Root.Z := Z |}
        | Raise e => Raise e
        end
    | Raise e => Raise e
    end.
Proof.
  intros Hpd. unfold Root.PPCA. rewrite transpose_length.
  destruct (ncols cm) as [|L'] eqn:HL; [lia|]. cbn [zeros_pred bind].
  change (foldR _ (transpose cm, replicate L' (Fin 0))
                (seq 0 (S L' - proj_dim - 1)))
    with (foldR (variance_step ext) (transpose cm, replicate L' (Fin 0))
                (seq 0 (S L' - proj_dim - 1))).
  rewrite variance_loop by (rewrite length_replicate; lia).
  destruct (ppca_trace ext (S L' - proj_dim - 1) (transpose cm))
    as [[vs1 XK]|e] eqn:E1; cbn [bind fst snd]; [|reflexivity].
  destruct (ppca_trace_iterate ext _ _ _ _ E1) as [_ Hlen1].
  rewrite length_replicate, zeros_tail by lia.
  change (foldR _ (XK, ?v) (seq 0 proj_dim))
    with (foldR (coordinates_step ext proj_dim) (XK, v) (seq 0 proj_dim)).
  assert (Hvar : length (replicate (L' - (S L' - proj_dim - 1)) (Fin 0)
                         ++ rev vs1) = (S L' - 1)%nat).
  { rewrite length_app, length_replicate, length_rev. lia. }
  rewrite (coordinates_loop ext (S L') proj_dim Hpd proj_dim 0 XK _ Hvar)
    by lia.
  rewrite variance_loop by (rewrite Hvar; lia).
  destruct (ppca_trace ext proj_dim XK) as [[vs2 Z]|e] eqn:E2;
    cbn [bind fst snd]; [|reflexivity].
  f_equal. f_equal. rewrite Hvar.
  replace (S L' - 1 - (S L' - proj_dim - 1 + 0) - proj_dim)%nat with 0%nat
    by lia.
  rewrite take_0. cbn [app].
  rewrite drop_app_length'.
  2:{ rewrite length_replicate. lia. }
  now rewrite rev_app_distr.
Qed.

(** [Root.PPCA] with a silent progress report, when the target dimension
    is not below the number of classes: the first assignment of the
    coordinates loop is out of range. *)
Lemma Root_PPCA_out_of_range (ext : externals) (cm : list (list float64))
  (proj_dim : nat) :
  (1 <= ncols cm)%nat -> (ncols cm <= proj_dim)%nat ->
  Root.PPCA ext cm proj_dim false
  = match ppca_reduce ext (transpose cm) with
    | Ok _ => Raise IndexError
    | Raise e => Raise e
    end.
Proof.
  intros HL Hpd. unfold Root.PPCA. rewrite transpose_length.
  destruct (ncols cm) as [|L'] eqn:HLe; [lia|]. cbn [zeros_pred bind].
  replace (S L' - proj_dim - 1)%nat with 0%nat by lia.
  cbn [seq foldR bind fst snd].
  destruct proj_dim as [|pd]; [lia|]. cbn [seq foldR bind fst snd].
  unfold Root.report_stale_progress, coordinates_step. cbn [bind fst snd].
  destruct (ppca_reduce ext (transpose cm)) as [[v X1]|e]; cbn [bind fst snd];
    [|reflexivity].
  unfold index. rewrite lookup_ge_None_2; [reflexivity|].
  rewrite length_replicate. lia.
Qed.

(** With the progress report on, twenty classes or more and a main loop
    that makes a step, [Root.PPCA] does what it does silently. *)
Lemma Root_PPCA_reporting (ext : externals) (cm : list (list float64))
  (proj_dim : nat) :
  (20 <= ncols cm)%nat -> (proj_dim + 2 <= ncols cm)%nat ->
  Root.PPCA ext cm proj_dim true = Root.PPCA ext cm proj_dim false.
Proof.
  intros H20 Hpd. unfold Root.PPCA.
  destruct (zeros_pred (length (transpose cm))) as [v0|e]; cbn [bind];
    [|reflexivity].
  assert (Hrep : report_progress true (ncols cm) = Ok tt).
  { apply report_progress_quiet; [right; right; exact H20 | lia]. }
  assert (Hstale : Root.report_stale_progress true
                     (ncols cm - proj_dim - 1) (ncols cm) = Ok tt).
  { unfold Root.report_stale_progress.
    destruct (Nat.eqb_spec (ncols cm - proj_dim - 1) 0) as [E|_]; [lia|].
    exact Hrep. }
  rewrite Hrep, Hstale. reflexivity.
Qed.

(** With the progress report on and fewer than twenty classes, the first
    step of the main loop divides by zero. *)
Lemma Root_PPCA_progress_error (ext : externals) (cm : list (list float64))
  (proj_dim : nat) :
  (ncols cm < 20)%nat -> (proj_dim + 2 <= ncols cm)%nat ->
  Root.PPCA ext cm proj_dim true = Raise ZeroDivisionError.
Proof.
  intros H20 Hpd. unfold Root.PPCA. rewrite transpose_length.
  destruct (ncols cm) as [|L'] eqn:HL; [lia|]. cbn [zeros_pred bind].
  apply bind_Raise.
  replace (S L' - proj_dim - 1)%nat with (S (L' - proj_dim - 1)) by lia.
  cbn [seq]. apply foldR_first_raises.
  now rewrite report_progress_fails by exact H20.
Qed.

(** With the progress report on and an empty main loop, the coordinates
    loop reads the index [i] that the main loop never set. *)
Lemma Root_PPCA_stale_index (ext : externals) (cm : list (list float64))
  (proj_dim : nat) :
  (1 <= ncols cm)%nat -> (ncols cm <= proj_dim + 1)%nat ->
  (1 <= proj_dim)%nat ->
  Root.PPCA ext cm proj_dim true = Raise UnboundLocalError.
Proof.
  intros HL Hpd Hpd1. unfold Root.PPCA. rewrite transpose_length.
  destruct (ncols cm) as [|L'] eqn:HLe; [lia|]. cbn [zeros_pred bind].
  replace (S L' - proj_dim - 1)%nat with 0%nat by lia.
  cbn [seq foldR bind fst snd].
  apply bind_Raise.
  destruct proj_dim as [|pd]; [lia|]. cbn [seq].
  apply foldR_first_raises. reflexivity.
Qed.

(** The loop of [Dreimac.PPCA], forgetting the matrix kept aside. *)
Lemma dreimac_loop_forget (ext : externals) (L proj_dim : nat)
  (l : list nat) :
  forall st,
    match foldR (Dreimac.ppca_body ext L proj_dim) st l with
    | Ok st' =>
        foldR (variance_step ext)
              (Dreimac.st_X st, Dreimac.st_variance st) l
        = Ok (Dreimac.st_X st', Dreimac.st_variance st')
    | Raise e =>
        foldR (variance_step ext)
              (Dreimac.st_X st, Dreimac.st_variance st) l
        = Raise e
    end.
Proof.
  induction l as [|i l IH]; intros st; cbn [foldR].
  - reflexivity.
  - assert (Hstep :
      variance_step ext (Dreimac.st_X st, Dreimac.st_variance st) i
      = match Dreimac.ppca_body ext L proj_dim st i with
        | Ok st1 => Ok (Dreimac.st_X st1, Dreimac.st_variance st1)
        | Raise e => Raise e
        end).
    { unfold Dreimac.ppca_body, variance_step. cbn [fst snd].
      destruct (ppca_reduce ext (Dreimac.st_X st)) as [[v X1]|e];
        cbn [bind fst snd]; [|reflexivity].
      destruct (set_from_end (Dreimac.st_variance st) (i + 1) v);
        reflexivity. }
    rewrite Hstep.
    destruct (Dreimac.ppca_body ext L proj_dim st i) as [st1|e]; cbn [bind];
      [apply IH | reflexivity].
Qed.

(** The matrix kept aside by the loop of [Dreimac.PPCA]. *)
Lemma dreimac_loop_XRet (ext : externals) (L proj_dim : nat) :
  forall n i st st',
    foldR (Dreimac.ppca_body ext L proj_dim) st (seq i n) = Ok st' ->
    ((i + proj_dim + 2 <= L)%nat -> (L < i + n + proj_dim + 2)%nat ->
       exists XK,
         ppca_iterate ext (L - proj_dim - 1 - i) (Dreimac.st_X st) = Ok XK /\
         Dreimac.st_XRet st' = Some XK) /\
    ((L < i + proj_dim + 2)%nat \/ (i + n + proj_dim + 2 <= L)%nat ->
       Dreimac.st_XRet st' = Dreimac.st_XRet st).
Proof.
  induction n as [|n IH]; intros i st st' Hrun; cbn [seq foldR] in Hrun.
  - assert (st' = st) by congruence. subst st'.
    split; [intros; lia | reflexivity].
  - apply bind_Ok in Hrun as (st1 & Hbody & Hrun).
    unfold Dreimac.ppca_body in Hbody.
    apply bind_Ok in Hbody as ([v X1] & Hred & Hbody).
    apply bind_Ok in Hbody as (var' & _ & Hbody). cbn [fst snd] in Hbody.
    assert (Hst1 : st1 = {| Dreimac.st_X := X1; Dreimac.st_variance := var';
                            Dreimac.st_XRet :=
                              if (i + proj_dim + 2 =? L)%nat
                              then Some X1 else Dreimac.st_XRet st |})
      by congruence.
    clear Hbody. destruct (IH (S i) st1 st' Hrun) as [Hin Hout].
    subst st1. cbn [Dreimac.st_X Dreimac.st_XRet] in Hin, Hout. split.
    + intros Hlo Hhi.
      destruct (decide (i + proj_dim + 2 = L)%nat) as [Heq|Hne].
      * exists X1. split.
        -- replace (L - proj_dim - 1 - i)%nat with 1%nat by lia.
           rewrite ppca_iterate_S, Hred. reflexivity.
        -- rewrite Hout by lia.
           now rewrite (proj2 (Nat.eqb_eq _ _) Heq).
      * destruct Hin as (XK & HXK & Hret); [lia | lia |].
        exists XK. split; [|exact Hret].
        replace (L - proj_dim - 1 - i)%nat
          with (S (L - proj_dim - 1 - S i)) by lia.
        rewrite ppca_iterate_S, Hred. exact HXK.
    + intros Hcase. rewrite Hout by lia.
      rewrite (proj2 (Nat.eqb_neq _ _)) by lia. reflexivity.
Qed.

(** [Dreimac.PPCA] on a class map with at least one column. *)
Lemma Dreimac_PPCA_cases (ext : externals) (cm : list (list float64))
  (proj_dim : nat) :
  (1 <= ncols cm)%nat ->
  match ppca_trace ext (ncols cm - 1) (transpose cm) with
  | Ok (vs, Xend) =>
      ((proj_dim + 2 <= ncols cm)%nat ->
         exists XK,
           ppca_iterate ext (ncols cm - proj_dim - 1) (transpose cm) = Ok XK /\
           Dreimac.PPCA ext cm proj_dim
           = Ok {| Dreimac.variance := rev vs;
                   Dreimac.X := transpose XK |}) /\
      ((ncols cm < proj_dim + 2)%nat ->
         Dreimac.PPCA ext cm proj_dim = Raise AttributeError)
  | Raise e => Dreimac.PPCA ext cm proj_dim = Raise e
  end.
Proof.
  intros HL. unfold Dreimac.PPCA. rewrite transpose_length.
  destruct (ncols cm) as [|L'] eqn:HLe; [lia|]. cbn [zeros_pred bind].
  set (st0 := {| Dreimac.st_X := transpose cm;
                 Dreimac.st_variance := replicate L' (Fin 0);
                 Dreimac.st_XRet := None |}).
  pose proof (dreimac_loop_forget ext (S L') proj_dim (seq 0 (S L' - 1)) st0)
    as Hforget.
  pose proof (dreimac_loop_XRet ext (S L') proj_dim (S L' - 1) 0 st0) as HXRet.
  cbn [Dreimac.st_X Dreimac.st_variance st0] in Hforget.
  rewrite variance_loop in Hforget by (rewrite length_replicate; lia).
  destruct (ppca_trace ext (S L' - 1) (transpose cm)) as [[vs Xend]|e] eqn:E.
  - destruct (ppca_trace_iterate ext _ _ _ _ E) as [_ Hlen].
    destruct (foldR (Dreimac.ppca_body ext (S L') proj_dim) st0
                    (seq 0 (S L' - 1))) as [st|e]; [|discriminate].
    cbn [bind]. destruct (HXRet st eq_refl) as [Hin Hout].
    assert (Hvar : Dreimac.st_variance st = rev vs).
    { assert (H : Dreimac.st_variance st
                  = take (length (replicate L' (Fin 0)) - 0 - (S L' - 1))
                         (replicate L' (Fin 0)) ++ rev vs
                    ++ drop (length (replicate L' (Fin 0)) - 0)
                            (replicate L' (Fin 0))) by congruence.
      rewrite H, length_replicate, zeros_tail by lia.
      replace (L' - (S L' - 1))%nat with 0%nat by lia. reflexivity. }
    split.
    + intros Hpd. destruct Hin as (XK & HXK & Hret); [lia | lia |].
      exists XK. cbn [Dreimac.st_X st0] in HXK.
      rewrite Nat.sub_0_r in HXK. split; [exact HXK|].
      rewrite Hret, Hvar. reflexivity.
    + intros Hpd. rewrite Hout by lia. reflexivity.
  - destruct (foldR (Dreimac.ppca_body ext (S L') proj_dim) st0
                    (seq 0 (S L' - 1))) as [st|e']; [discriminate|].
    cbn [bind]. congruence.
Qed.

Lemma PPCA_no_columns (ext : externals) (cm : list (list float64))
  (proj_dim : nat) (verbose : bool) :
  ncols cm = 0%nat ->
  Dreimac.PPCA ext cm proj_dim = Raise ValueError /\
  Root.PPCA ext cm proj_dim verbose = Raise ValueError.
Proof.
  intros H. unfold Dreimac.PPCA, Root.PPCA.
  rewrite transpose_length, H. split; reflexivity.
Qed.

Lemma ncols_positive_shape {A : Type} (N L : nat) (cm : list (list A)) :
  shape N L cm -> (1 <= N)%nat -> ncols cm = L.
Proof. intros Hcm HN. apply (ncols_shape N L cm Hcm). lia. Qed.

Lemma ncols_rows {A : Type} (N L : nat) (cm : list (list A)) :
  shape N L cm -> ncols cm = L -> (1 <= L)%nat -> (1 <= N)%nat.
Proof.
  intros [HN _] Hcols HL. destruct cm as [|r cm]; simpl in *; lia.
Qed.

Lemma Dreimac_PPCA_Ok_trace (ext : externals) (cm : list (list float64))
  (proj_dim : nat) (res : Dreimac.ppca_result) :
  Dreimac.PPCA ext cm proj_dim = Ok res ->
  exists vs Xend XK,
    ppca_trace ext (ncols cm - 1) (transpose cm) = Ok (vs, Xend) /\
    (proj_dim + 2 <= ncols cm)%nat /\
    ppca_iterate ext (ncols cm - proj_dim - 1) (transpose cm) = Ok XK /\
    res = {| Dreimac.variance := rev vs; Dreimac.X := transpose XK |}.
Proof.
  intros Hres.
  destruct (decide (ncols cm = 0)%nat) as [H0|H0].
  { destruct (PPCA_no_columns ext cm proj_dim false H0) as [HD _].
    congruence. }
  pose proof (Dreimac_PPCA_cases ext cm proj_dim ltac:(lia)) as Hcases.
  destruct (ppca_trace ext (ncols cm - 1) (transpose cm))
    as [[vs Xend]|e] eqn:E; [|congruence].
  destruct Hcases as [Hin Hout].
  destruct (decide (proj_dim + 2 <= ncols cm)%nat) as [Hpd|Hpd].
  - destruct (Hin Hpd) as (XK & HXK & Hrun).
    exists vs, Xend, XK. repeat (split; [first [reflexivity | assumption]|]).
    congruence.
  - rewrite Hout in Hres by lia. discriminate.
Qed.

Lemma Root_PPCA_Ok_trace (ext : externals) (cm : list (list float64))
  (proj_dim : nat) (res : Root.ppca_result) :
  Root.PPCA ext cm proj_dim false = Ok res ->
  exists vs1 XK vs2 Z,
    (proj_dim + 1 <= ncols cm)%nat /\
    ppca_trace ext (ncols cm - proj_dim - 1) (transpose cm) = Ok (vs1, XK) /\
    ppca_trace ext proj_dim XK = Ok (vs2, Z) /\
    ppca_trace ext (ncols cm - 1) (transpose cm) = Ok (vs1 ++ vs2, Z) /\
    res = {| Root.variance := rev (vs1 ++ vs2); Root.X := XK; Root.Z := Z |}.
Proof.
  intros Hres.
  destruct (decide (ncols cm = 0)%nat) as [H0|H0].
  { destruct (PPCA_no_columns ext cm proj_dim false H0) as [_ HR].
    congruence. }
  destruct (decide (proj_dim + 1 <= ncols cm)%nat) as [Hpd|Hpd].
  - rewrite Root_PPCA_trace in Hres by exact Hpd.
    replace (ncols cm - 1)%nat
      with (ncols cm - proj_dim - 1 + proj_dim)%nat by lia.
    rewrite ppca_trace_app.
    destruct (ppca_trace ext (ncols cm - proj_dim - 1) (transpose cm))
      as [[vs1 XK]|e] eqn:E1; [|discriminate].
    cbn [bind fst snd].
    destruct (ppca_trace ext proj_dim XK) as [[vs2 Z]|e] eqn:E2;
      [|discriminate].
    cbn [bind fst snd].
    exists vs1, XK, vs2, Z. repeat (split; [first [reflexivity | assumption]|]).
    congruence.
  - rewrite Root_PPCA_out_of_range in Hres by lia.
    destruct (ppca_reduce ext (transpose cm)); discriminate.
Qed.

(** A run of [Root.PPCA] that returns with the progress report on
    returns the same with the report off. *)
Lemma Root_PPCA_Ok_silent (ext : externals) (cm : list (list float64))
  (proj_dim : nat) (verbose : bool) (res : Root.ppca_result) :
  Root.PPCA ext cm proj_dim verbose = Ok res ->
  Root.PPCA ext cm proj_dim false = Ok res.
Proof.
  destruct verbose; [|auto]. intros Hres.
  destruct (decide (ncols cm = 0)%nat) as [H0|H0].
  { destruct (PPCA_no_columns ext cm proj_dim true H0) as [_ HR].
    congruence. }
  destruct (decide (proj_dim + 2 <= ncols cm)%nat) as [Hpd|Hpd].
  - destruct (le_lt_dec 20 (ncols cm)) as [H20|H20].
    + now rewrite <- Root_PPCA_reporting.
    + rewrite Root_PPCA_progress_error in Hres by lia. discriminate.
  - destruct (decide (proj_dim = 0)%nat) as [->|Hpd0].
    + assert (Hone : ncols cm = 1%nat) by lia.
      revert Hres. unfold Root.PPCA. rewrite Hone.
      destruct (zeros_pred (length (transpose cm))); auto.
    + rewrite Root_PPCA_stale_index in Hres by lia. discriminate.
Qed.

(** ** The variance a reduction step records *)

Lemma mapR_last_elem_col {A : Type} (m : nat) (U : list (list A)) :
  Forall (fun r => length r = S m) U -> mapR last_elem U = Ok (col m U).
Proof.
  induction U as [|r U IH]; intros Hw; [reflexivity|].
  apply Forall_cons in Hw as [Hr Hw]. cbn [mapR].
  destruct (last_elem_total r) as (a & r' & Ha & Hr'); [lia|].
  rewrite Ha. cbn [bind]. rewrite (IH Hw). cbn [bind]. f_equal.
  symmetry. apply col_cons. subst r.
  rewrite length_app in Hr. simpl in Hr.
  rewrite lookup_app_r by lia.
  replace (m - length r')%nat with 0%nat by lia. reflexivity.
Qed.

Lemma Rsum_ge_term (n : nat) (f : nat -> R) (k : nat) :
  (forall i, 0 <= f i) -> (k < n)%nat -> f k <= Rsum n f.
Proof.
  intros Hpos Hk. unfold Rsum. apply (sum_list_ge_elem _ k).
  - apply Forall_map, Forall_forall. intros i _. apply Hpos.
  - now rewrite lookup_map, lookup_seq_lt by lia.
Qed.

Lemma sum_list_bounds (B : R) (l : list R) :
  Forall (fun x => 0 <= x <= B) l ->
  0 <= sum_list l <= INR (length l) * B.
Proof.
  induction l as [|x l IH]; intros Hl.
  - simpl. lra.
  - apply Forall_cons in Hl as [Hx Hl]. specialize (IH Hl).
    change (sum_list (x :: l)) with (x + sum_list l).
    change (length (x :: l)) with (S (length l)). rewrite S_INR. lra.
Qed.

Lemma quarter_turn_minus_acos (c : R) :
  Rabs c <= 1 -> 0 <= PI / 2 - acos (Rabs c) <= PI / 2.
Proof.
  intros Hc. pose proof (Rabs_pos c) as Hpos.
  pose proof (acos_bound (Rabs c)) as [Hlo Hhi].
  pose proof PI_RGT_0 as Hpi.
  split; [|lra].
  destruct (Rle_dec (acos (Rabs c)) (PI / 2)) as [Hle|Hgt]; [lra|].
  assert (Hcos : cos (acos (Rabs c)) < 0) by (apply cos_lt_0; lra).
  rewrite cos_acos in Hcos by lra. lra.
Qed.

Lemma angle_variance (c : R) :
  Rabs c <= 1 ->
  exists t,
    (let a := fsub (Fin (PI / 2)) (farccos (fabs (Fin c))) in fmul a a)
    = Fin t /\ 0 <= t <= (PI / 2) * (PI / 2).
Proof.
  intros Hc. pose proof (Rabs_pos c) as Hpos.
  pose proof (quarter_turn_minus_acos c Hc) as [Hlo Hhi].
  exists ((PI / 2 - acos (Rabs c)) * (PI / 2 - acos (Rabs c))).
  split.
  - cbv zeta. unfold farccos, fabs.
    rewrite (proj2 (Rltb_false (Rabs c) (-1))) by lra.
    rewrite (proj2 (Rltb_false 1 (Rabs c))) by lra.
    cbn [fsub fadd fneg fmul]. reflexivity.
  - split; [apply Rmult_le_pos; lra|].
    apply Rmult_le_compat; lra.
Qed.

(** One reduction step on a matrix with unit columns measures a variance
    between [0] and [(pi/2)^2]. *)
Lemma ppca_reduce_variance (ext : externals) (d N : nat)
  (X : list (list float64)) (v : float64) (X' : list (list float64)) :
  eigh_orthogonal ext -> shape d N X -> (1 <= d)%nat -> (1 <= N)%nat ->
  unit_columns N X ->
  ppca_reduce ext X = Ok (v, X') ->
  bounded_variance v.
Proof.
  intros Heigh HX Hd HN Hunit Hred.
  destruct (finite_matrix X (unit_columns_finite d N X HX Hunit)) as [XR ->].
  apply shape_real in HX.
  destruct (rotated_real ext d N XR Heigh HX Hd HN)
    as (U0 & UR & HU0 & _ & HUeq & HU & Horth & _).
  unfold ppca_reduce in Hred. rewrite HU0 in Hred. cbn [bind] in Hred.
  rewrite HUeq in Hred.
  destruct d as [|d']; [lia|].
  rewrite (mapR_last_elem_col d') in Hred.
  2:{ apply Forall_map. eapply Forall_impl; [exact (proj2 HU)|].
      intros r Hr. simpl. now rewrite length_map. }
  cbn [bind] in Hred.
  apply bind_Ok in Hred as (y & _ & Hred).
  assert (Hv : v = fmean (map (fun j =>
                let a := fsub (Fin (PI / 2))
                           (farccos (fabs (fdot (col d' (map (map Fin) UR))
                                             (col j (map (map Fin) XR))))) in
                fmul a a) (seq 0 (ncols (map (map Fin) XR)))))
    by (inversion Hred; reflexivity).
  clear Hred. subst v.
  rewrite ncols_map, (ncols_shape (S d') N XR HX ltac:(lia)).
  assert (Hbound : forall j, (j < N)%nat ->
            Rabs (dot (col d' UR) (col j XR)) <= 1).
  { intros j Hj.
    pose proof (real_isometry (S d') UR (col j XR) HU Horth
                  (col_shape (S d') N j XR HX Hj)) as Hiso.
    rewrite (unit_column_real N j XR Hunit Hj) in Hiso.
    pose proof (Rsum_ge_term (S d')
                  (fun k => dot (col k UR) (col j XR) * dot (col k UR) (col j XR))
                  d' ltac:(intros i; apply Rle_0_sqr) ltac:(lia)) as Hterm.
    cbv beta in Hterm. rewrite Hiso in Hterm.
    rewrite <- Rabs_square in Hterm.
    pose proof (Rabs_pos (dot (col d' UR) (col j XR))). nra. }
  assert (Hangles : exists g : list R,
            map (fun j =>
                   let a := fsub (Fin (PI / 2))
                              (farccos (fabs (fdot (col d' (map (map Fin) UR))
                                                (col j (map (map Fin) XR))))) in
                   fmul a a) (seq 0 N) = map Fin g /\
            length g = N /\
            Forall (fun x => 0 <= x <= (PI / 2) * (PI / 2)) g).
  { assert (G : forall l, Forall (fun j => (j < N)%nat) l ->
              exists g : list R,
                map (fun j =>
                       let a := fsub (Fin (PI / 2))
                                  (farccos (fabs (fdot (col d' (map (map Fin) UR))
                                                    (col j (map (map Fin) XR))))) in
                       fmul a a) l = map Fin g /\
                length g = length l /\
                Forall (fun x => 0 <= x <= (PI / 2) * (PI / 2)) g).
    { induction l as [|j l IH]; intros Hl.
      - exists []. repeat split. constructor.
      - apply Forall_cons in Hl as [Hj Hl].
        destruct (IH Hl) as (g & Hg & Hlen & Hall).
        destruct (angle_variance _ (Hbound j Hj)) as (t & Ht & Hbt).
        exists (t :: g). rewrite !map_cons, Hg. cbv beta.
        rewrite !col_map, fdot_Fin, Ht.
        split; [reflexivity|]. split; [simpl; lia|].
        constructor; assumption. }
    destruct (G (seq 0 N)) as (g & Hg & Hlen & Hall).
    - apply Forall_forall. intros j Hj. apply elem_of_seq in Hj. lia.
    - exists g. rewrite length_seq in Hlen. auto. }
  destruct Hangles as (g & Hg & Hlen & Hall).
  rewrite Hg. unfold fmean. rewrite fsum_Fin, length_map, Hlen.
  assert (HposN : 0 < INR N) by (apply lt_0_INR; lia).
  rewrite fdiv_Fin by lra.
  eexists. split; [reflexivity|].
  destruct (sum_list_bounds _ g Hall) as [Hlo Hhi]. rewrite Hlen in Hhi.
  split.
  - apply Rmult_le_pos; [exact Hlo|]. left. now apply Rinv_0_lt_compat.
  - apply (Rmult_le_reg_r (INR N)); [exact HposN|].
    unfold Rdiv. rewrite Rmult_assoc, Rinv_l by lra. lra.
Qed.

Lemma nondegenerate_step (ext : externals) (K : nat)
  (X X1 : list (list float64)) (v : float64) :
  ppca_reduce ext X = Ok (v, X1) ->
  nondegenerate ext (S K) X -> nondegenerate ext K X1.
Proof.
  intros Hred Hnd k Xk y Hk Hit Hy.
  apply (Hnd (S k) Xk y); [lia | | exact Hy].
  rewrite ppca_iterate_S, Hred. exact Hit.
Qed.

(** ** Runs of reduction steps

    Started on a matrix with unit columns, [k] reduction steps return
    when none of the first [k - 1] drops a coordinate of magnitude 1:
    every matrix handed to [eigh] is then finite.  The variances recorded
    are bounded, and the columns stay on the unit sphere as long as the
    dropped coordinates stay below 1. *)
Lemma ppca_trace_runs (ext : externals) (N : nat) :
  eigh_orthogonal ext -> (1 <= N)%nat ->
  forall k K d X,
    (k <= K + 1)%nat -> (k <= d)%nat -> shape d N X -> unit_columns N X ->
    nondegenerate ext K X ->
    exists vs Xk,
      ppca_trace ext k X = Ok (vs, Xk) /\ shape (d - k) N Xk /\
      Forall bounded_variance vs /\
      ((k <= K)%nat -> unit_columns N Xk).
Proof.
  intros Horth HN. induction k as [|k IH]; intros K d X HkK Hkd HX Hunit Hnd.
  - exists [], X. split; [reflexivity|]. rewrite Nat.sub_0_r.
    split; [exact HX|]. split; [constructor | intros _; exact Hunit].
  - destruct (ppca_reduce_unit ext d N X Horth HX ltac:(lia) HN Hunit)
      as (v & X1 & y & Hred & Hy & HX1 & Hunit1).
    pose proof (ppca_reduce_variance ext d N X v X1 Horth HX ltac:(lia) HN
                  Hunit Hred) as Hv.
    rewrite ppca_trace_S, Hred. cbn [bind fst snd].
    destruct k as [|k].
    + cbn [ppca_trace bind fst snd]. exists [v], X1.
      split; [reflexivity|]. split; [exact HX1|].
      split; [constructor; [exact Hv | constructor]|].
      intros HK. apply Hunit1.
      apply (Hnd 0%nat X y); [lia | reflexivity | exact Hy].
    + destruct K as [|K]; [lia|].
      assert (Hunit1' : unit_columns N X1).
      { apply Hunit1.
        apply (Hnd 0%nat X y); [lia | reflexivity | exact Hy]. }
      destruct (IH K (d - 1)%nat X1) as (vs & Xk & Htr & HXk & Hvs & Hunitk);
        [lia | lia | exact HX1 | exact Hunit1'
         | exact (nondegenerate_step ext K X X1 v Hred Hnd) |].
      rewrite Htr. cbn [bind fst snd]. exists (v :: vs), Xk.
      split; [reflexivity|].
      split; [replace (d - S (S k))%nat with (d - 1 - S k)%nat by lia;
              exact HXk|].
      split; [constructor; assumption|].
      intros HK. apply Hunitk. lia.
Qed.

(** Both versions of [PPCA] on a class map with unit rows, when the
    target dimension is at most [L - 2] and no coordinate dropped before
    the last step, nor up to the matrix returned, has magnitude 1. *)
Lemma PPCA_snapshot (ext : externals) (N L proj_dim : nat)
  (class_map : list (list float64)) :
  eigh_orthogonal ext -> shape N L class_map -> ncols class_map = L ->
  (proj_dim + 2 <= L)%nat ->
  Forall (fun row => fnorm row = Fin 1) class_map ->
  nondegenerate ext (Nat.max (L - 2) (L - proj_dim - 1))
    (transpose class_map) ->
  exists XK,
    ppca_iterate ext (L - proj_dim - 1) (transpose class_map) = Ok XK /\
    shape (proj_dim + 1) N XK /\ unit_columns N XK /\
    (exists res,
       Dreimac.PPCA ext class_map proj_dim = Ok res /\
       Dreimac.X res = transpose XK /\
       shape N (proj_dim + 1) (Dreimac.X res) /\
       Forall (fun row => fnorm row = Fin 1) (Dreimac.X res) /\
       length (Dreimac.variance res) = (L - 1)%nat) /\
    (forall verbose, verbose = false \/ (20 <= L)%nat ->
       exists res,
         Root.PPCA ext class_map proj_dim verbose = Ok res /\
         Root.X res = XK /\
         length (Root.variance res) = (L - 1)%nat).
Proof.
  intros Horth Hcm Hcols Hpd Hrows Hnd.
  pose proof (ncols_rows N L class_map Hcm Hcols ltac:(lia)) as HN.
  pose proof (transpose_shape N L class_map Hcm ltac:(lia)) as HX0.
  pose proof (unit_rows_columns N L class_map Hcm ltac:(lia) Hrows) as Hunit0.
  destruct (ppca_trace_runs ext N Horth HN (L - proj_dim - 1)
              (Nat.max (L - 2) (L - proj_dim - 1)) L (transpose class_map))
    as (vs1 & XK & E1 & HXK & _ & HunitK);
    [lia | lia | exact HX0 | exact Hunit0 | exact Hnd |].
  destruct (ppca_trace_runs ext N Horth HN (L - 1)
              (Nat.max (L - 2) (L - proj_dim - 1)) L (transpose class_map))
    as (vs & Xend & E & _ & _ & _);
    [lia | lia | exact HX0 | exact Hunit0 | exact Hnd |].
  destruct (ppca_trace_iterate ext _ _ _ _ E1) as [Hit1 Hlen1].
  destruct (ppca_trace_iterate ext _ _ _ _ E) as [_ Hlen].
  replace (L - (L - proj_dim - 1))%nat with (proj_dim + 1)%nat in HXK by lia.
  specialize (HunitK ltac:(lia)).
  exists XK. split; [exact Hit1|]. split; [exact HXK|].
  split; [exact HunitK|]. split.
  - pose proof (Dreimac_PPCA_cases ext class_map proj_dim ltac:(lia))
      as Hcases.
    rewrite Hcols, E in Hcases. destruct Hcases as [Hin _].
    destruct (Hin Hpd) as (XK' & HXK' & Hrun).
    assert (XK' = XK) by congruence. subst XK'.
    eexists. split; [exact Hrun|]. cbn [Dreimac.X Dreimac.variance].
    split; [reflexivity|].
    split; [apply transpose_shape; [exact HXK | lia]|].
    split; [apply (unit_columns_rows (proj_dim + 1) N XK HXK);
            [lia | exact HunitK]|].
    rewrite length_rev. exact Hlen.
  - assert (Hsilent : exists res,
              Root.PPCA ext class_map proj_dim false = Ok res /\
              Root.X res = XK /\
              length (Root.variance res) = (L - 1)%nat).
    { rewrite Root_PPCA_trace by lia. rewrite Hcols, E1.
      replace (L - 1)%nat with (L - proj_dim - 1 + proj_dim)%nat in E by lia.
      rewrite ppca_trace_app, E1 in E. cbn [bind fst snd] in E.
      destruct (ppca_trace ext proj_dim XK) as [[vs2 Z]|e] eqn:E2;
        cbn [bind fst snd] in E; [|discriminate].
      assert (vs = vs1 ++ vs2) by congruence. subst vs.
      eexists. split; [reflexivity|].
      cbn [Root.X Root.variance]. split; [reflexivity|].
      rewrite length_rev. exact Hlen. }
    intros verbose [->|H20]; [exact Hsilent|].
    destruct verbose; [rewrite Root_PPCA_reporting by lia|]; exact Hsilent.
Qed.

(** ** The example class map *)

Lemma example_class_map_shape : shape 2 3 example_class_map.
Proof. split; [reflexivity | repeat constructor]. Qed.

Lemma example_class_map_unit :
  Forall (fun row => fnorm row = Fin 1) example_class_map.
Proof.
  repeat constructor; apply fnorm_unit; simpl; f_equal; lra.
Qed.

(** The first reduction step drops a zero coordinate from both points. *)
Lemma example_class_map_nondegenerate :
  nondegenerate example_externals 1 (transpose example_class_map).
Proof.
  intros k Xk y Hk Hit Hy. destruct k as [|k]; [|lia].
  simpl in Hit. inversion Hit; subst Xk. clear Hit.
  unfold dropped_row in Hy. cbn in Hy. inversion Hy; subst y.
  repeat constructor;
    (eexists; split; [reflexivity|]; apply Rabs_def1; lra).
Qed.

Lemma example_PPCA_runs :
  exists rd rr,
    Dreimac.PPCA example_externals example_class_map 1 = Ok rd /\
    Root.PPCA example_externals example_class_map 1 false = Ok rr.
Proof.
  destruct (PPCA_snapshot example_externals 2 3 1 example_class_map
              example_eigh_orthogonal example_class_map_shape eq_refl
              ltac:(lia) example_class_map_unit
              example_class_map_nondegenerate)
    as (XK & _ & _ & _ & (rd & Hrd & _) & HR).
  destruct (HR false ltac:(now left)) as (rr & Hrr & _).
  exists rd, rr. auto.
Qed.

(** ** What [PPCA] returns *)

(** C2 (as amended).  For a class map with [N] rows and [L] columns whose
    rows are unit vectors and a target dimension with [proj_dim + 2 <= L],
    given an [eigh] that returns orthogonal matrices, and provided no
    coordinate dropped before the last reduction step, nor up to the
    matrix returned, has magnitude 1: the working matrix after
    [L - proj_dim - 1] steps has [proj_dim + 1] rows (the ambient
    dimension) and unit columns; the later [PPCA] returns its transpose,
    an [N] by [proj_dim + 1] matrix with unit rows, and [L - 1] variances;
    the first [PPCA] (progress report off, or [L >= 20]) returns the same
    matrix as it is, not transposed, and [L - 1] variances. *)
Theorem PPCA_returns_unit_snapshot (ext : externals) (N L proj_dim : nat)
  (class_map : list (list float64)) :
  eigh_orthogonal ext -> shape N L class_map -> ncols class_map = L ->
  (proj_dim + 2 <= L)%nat ->
  Forall (fun row => fnorm row = Fin 1) class_map ->
  nondegenerate ext (Nat.max (L - 2) (L - proj_dim - 1))
    (transpose class_map) ->
  exists XK,
    ppca_iterate ext (L - proj_dim - 1) (transpose class_map) = Ok XK /\
    shape (proj_dim + 1) N XK /\ unit_columns N XK /\
    (exists res,
       Dreimac.PPCA ext class_map proj_dim = Ok res /\
       Dreimac.X res = transpose XK /\
       shape N (proj_dim + 1) (Dreimac.X res) /\
       Forall (fun row => fnorm row = Fin 1) (Dreimac.X res) /\
       length (Dreimac.variance res) = (L - 1)%nat) /\
    (forall verbose, verbose = false \/ (20 <= L)%nat ->
       exists res,
         Root.PPCA ext class_map proj_dim verbose = Ok res /\
         Root.X res = XK /\
         length (Root.variance res) = (L - 1)%nat).
Proof. exact (PPCA_snapshot ext N L proj_dim class_map). Qed.

Lemma PPCA_returns_unit_snapshot_witness :
  exists XK,
    ppca_iterate example_externals (3 - 1 - 1) (transpose example_class_map)
      = Ok XK /\
    shape (1 + 1) 2 XK /\ unit_columns 2 XK /\
    (exists res,
       Dreimac.PPCA example_externals example_class_map 1 = Ok res /\
       Dreimac.X res = transpose XK /\
       shape 2 (1 + 1) (Dreimac.X res) /\
       Forall (fun row => fnorm row = Fin 1) (Dreimac.X res) /\
       length (Dreimac.variance res) = (3 - 1)%nat) /\
    (forall verbose, verbose = false \/ (20 <= 3)%nat ->
       exists res,
         Root.PPCA example_externals example_class_map 1 verbose = Ok res /\
         Root.X res = XK /\
         length (Root.variance res) = (3 - 1)%nat).
Proof.
  apply (PPCA_returns_unit_snapshot example_externals 2 3 1
           example_class_map).
  - exact example_eigh_orthogonal.
  - exact example_class_map_shape.
  - reflexivity.
  - lia.
  - exact example_class_map_unit.
  - exact example_class_map_nondegenerate.
Defined.

Lemma PPCA_aligned_points :
  exists v x,
    Dreimac.PPCA example_externals [[Fin 1; Fin 0]; [Fin 0; Fin 1]] 0
    = Ok {| Dreimac.variance := [v]; Dreimac.X := [[NaN]; [x]] |}.
Proof.
  destruct reduce_aligned as (v & x & H).
  unfold Dreimac.PPCA, Dreimac.ppca_body.
  change (transpose [[Fin 1; Fin 0]; [Fin 0; Fin 1]])
    with [[Fin 1; Fin 0]; [Fin 0; Fin 1]].
  cbn [length zeros_pred bind ncols seq foldR Nat.sub Dreimac.st_X
       Dreimac.st_variance Dreimac.st_XRet].
  rewrite H. cbn. eexists. eexists. reflexivity.
Qed.

(** Four points that are the four unit vectors, target dimension 2: the
    first step drops a coordinate of magnitude 1 for the first point, whose
    coordinates become NaN, and the next call of [eigh] raises. *)
Lemma PPCA_aligned_points_eigh_error :
  Dreimac.PPCA example_externals (identity_matrix 4) 2 = Raise LinAlgError /\
  Root.PPCA example_externals (identity_matrix 4) 2 false
  = Raise LinAlgError.
Proof.
  split.
  - unfold Dreimac.PPCA, Dreimac.ppca_body, ppca_reduce. np_eval_num.
    reflexivity.
  - unfold Root.PPCA, variance_step, coordinates_step, ppca_reduce.
    np_eval_num. reflexivity.
Qed.

(** The first version returns the working matrix itself: one row per
    kept coordinate, one column per data point. *)
Lemma Root_PPCA_not_transposed :
  exists rr,
    Root.PPCA example_externals
      [[Fin 0; Fin 1]; [Fin 0; Fin 1]; [Fin 0; Fin 1]] 1 false = Ok rr /\
    Root.X rr = [[Fin 0; Fin 0; Fin 0]; [Fin 1; Fin 1; Fin 1]].
Proof.
  eexists. split; [reflexivity|]. reflexivity.
Qed.

(** C2, counterexample.  With [proj_dim = L - 1 < L] the later [PPCA]
    returns nothing: it raises [AttributeError].  On the class map of
    two points that are orthogonal unit vectors, with [proj_dim = 0 < 2],
    the first returned row is [NaN], of norm NaN and not 1.  On the four
    unit vectors of dimension 4, with [proj_dim = 2 < 4], both versions
    raise [LinAlgError].  And on a class map of three points with two
    classes and [proj_dim = 1], the first [PPCA] returns a matrix with two
    rows and three columns. *)
Lemma PPCA_result_missing_or_not_unit :
  Dreimac.PPCA example_externals [[Fin 1]] 0 = Raise AttributeError /\
  Forall (fun row => fnorm row = Fin 1) [[Fin 1; Fin 0]; [Fin 0; Fin 1]] /\
  (exists v x,
     Dreimac.PPCA example_externals [[Fin 1; Fin 0]; [Fin 0; Fin 1]] 0
     = Ok {| Dreimac.variance := [v]; Dreimac.X := [[NaN]; [x]] |}) /\
  fnorm [NaN] <> Fin 1 /\
  (Dreimac.PPCA example_externals (identity_matrix 4) 2 = Raise LinAlgError /\
   Root.PPCA example_externals (identity_matrix 4) 2 false
   = Raise LinAlgError) /\
  (exists rr,
     Root.PPCA example_externals
       [[Fin 0; Fin 1]; [Fin 0; Fin 1]; [Fin 0; Fin 1]] 1 false = Ok rr /\
     Root.X rr = [[Fin 0; Fin 0; Fin 0]; [Fin 1; Fin 1; Fin 1]]).
Proof.
  split; [reflexivity|].
  split.
  - repeat constructor; apply fnorm_unit; simpl; f_equal; lra.
  - split; [exact PPCA_aligned_points|].
    split; [discriminate|].
    split; [exact PPCA_aligned_points_eigh_error
           | exact Root_PPCA_not_transposed].
Qed.

(** ** Further properties of [PPCA] *)

(** X9. Both versions of [PPCA], whenever they return, have run
    [n_dim - 1] reduction steps on the transposed class map, and the
    variance array lists the variances measured at these steps in reverse
    order: the variance of step [i] is [variance[-i-1]].  The first
    version's [Z] is the matrix left after the last step. *)
Theorem PPCA_variance_lists_steps_in_reverse (ext : externals)
  (cm : list (list float64)) (proj_dim : nat) :
  (forall res, Dreimac.PPCA ext cm proj_dim = Ok res ->
     exists vs Xend,
       ppca_trace ext (ncols cm - 1) (transpose cm) = Ok (vs, Xend) /\
       length vs = (ncols cm - 1)%nat /\
       Dreimac.variance res = rev vs) /\
  (forall verbose res, Root.PPCA ext cm proj_dim verbose = Ok res ->
     exists vs,
       ppca_trace ext (ncols cm - 1) (transpose cm) = Ok (vs, Root.Z res) /\
       length vs = (ncols cm - 1)%nat /\
       Root.variance res = rev vs).
Proof.
  split.
  - intros res Hres.
    destruct (Dreimac_PPCA_Ok_trace ext cm proj_dim res Hres)
      as (vs & Xend & XK & Htr & _ & _ & ->).
    destruct (ppca_trace_iterate ext _ _ _ _ Htr) as [_ Hlen].
    exists vs, Xend. auto.
  - intros verbose res Hres. apply Root_PPCA_Ok_silent in Hres.
    destruct (Root_PPCA_Ok_trace ext cm proj_dim res Hres)
      as (vs1 & XK & vs2 & Z & _ & _ & _ & Htr & ->).
    destruct (ppca_trace_iterate ext _ _ _ _ Htr) as [_ Hlen].
    exists (vs1 ++ vs2). auto.
Qed.

Lemma PPCA_variance_lists_steps_in_reverse_witness :
  (exists res vs Xend,
     Dreimac.PPCA example_externals example_class_map 1 = Ok res /\
     ppca_trace example_externals (3 - 1) (transpose example_class_map)
       = Ok (vs, Xend) /\
     length vs = (3 - 1)%nat /\
     Dreimac.variance res = rev vs) /\
  (exists res vs,
     Root.PPCA example_externals example_class_map 1 false = Ok res /\
     ppca_trace example_externals (3 - 1) (transpose example_class_map)
       = Ok (vs, Root.Z res) /\
     length vs = (3 - 1)%nat /\
     Root.variance res = rev vs).
Proof.
  destruct example_PPCA_runs as (rd & rr & Hrd & Hrr).
  destruct (PPCA_variance_lists_steps_in_reverse example_externals
              example_class_map 1) as [HD HR].
  split.
  - destruct (HD rd Hrd) as (vs & Xend & H1 & H2 & H3).
    exists rd, vs, Xend. auto.
  - destruct (HR false rr Hrr) as (vs & H1 & H2 & H3).
    exists rr, vs. auto.
Defined.

(** X10. When the target dimension is at most [n_dim - 2] and the
    progress report of the first version is off (or [n_dim >= 20]), the
    two versions of [PPCA] agree: either both return, with the same
    variance array and with the later version's [X] the transpose of the
    first version's [X], or both raise the same exception. *)
Theorem PPCA_versions_agree (ext : externals) (cm : list (list float64))
  (proj_dim : nat) (verbose : bool) :
  (proj_dim + 2 <= ncols cm)%nat ->
  verbose = false \/ (20 <= ncols cm)%nat ->
  (forall rd, Dreimac.PPCA ext cm proj_dim = Ok rd ->
     exists rr, Root.PPCA ext cm proj_dim verbose = Ok rr /\
       Root.variance rr = Dreimac.variance rd /\
       Dreimac.X rd = transpose (Root.X rr)) /\
  (forall rr, Root.PPCA ext cm proj_dim verbose = Ok rr ->
     exists rd, Dreimac.PPCA ext cm proj_dim = Ok rd /\
       Root.variance rr = Dreimac.variance rd /\
       Dreimac.X rd = transpose (Root.X rr)) /\
  (forall e, Dreimac.PPCA ext cm proj_dim = Raise e <->
             Root.PPCA ext cm proj_dim verbose = Raise e).
Proof.
  intros Hpd Hv.
  assert (Hsilent : Root.PPCA ext cm proj_dim verbose
                    = Root.PPCA ext cm proj_dim false).
  { destruct Hv as [->|H20]; [reflexivity|].
    destruct verbose; [now apply Root_PPCA_reporting | reflexivity]. }
  rewrite Hsilent. clear Hsilent Hv verbose.
  pose proof (Dreimac_PPCA_cases ext cm proj_dim ltac:(lia)) as Hcases.
  rewrite Root_PPCA_trace by lia.
  replace (ncols cm - 1)%nat
    with (ncols cm - proj_dim - 1 + proj_dim)%nat in Hcases by lia.
  rewrite ppca_trace_app in Hcases.
  destruct (ppca_trace ext (ncols cm - proj_dim - 1) (transpose cm))
    as [[vs1 XK]|e1] eqn:E1; cbn [bind fst snd] in Hcases.
  2:{ rewrite Hcases.
      split; [intros; discriminate|]. split; [intros; discriminate|].
      intros e. split; intros H; f_equal; congruence. }
  destruct (ppca_trace ext proj_dim XK) as [[vs2 Z]|e2] eqn:E2;
    cbn [bind fst snd] in Hcases.
  2:{ rewrite Hcases.
      split; [intros; discriminate|]. split; [intros; discriminate|].
      intros e. split; intros H; f_equal; congruence. }
  destruct Hcases as [Hin _]. destruct (Hin Hpd) as (XK' & HXK' & Hrun).
  destruct (ppca_trace_iterate ext _ _ _ _ E1) as [Hit _].
  assert (XK' = XK) by congruence. subst XK'. rewrite Hrun.
  split; [|split].
  - intros rd Hrd. eexists. split; [reflexivity|].
    assert (rd = {| Dreimac.variance := rev (vs1 ++ vs2);
                    Dreimac.X := transpose XK |}) by congruence.
    subst rd. split; reflexivity.
  - intros rr Hrr. eexists. split; [reflexivity|].
    assert (rr = {| Root.variance := rev (vs1 ++ vs2);
                    Root.X := XK; Root.Z := Z |}) by congruence.
    subst rr. split; reflexivity.
  - intros e. split; discriminate.
Qed.

Lemma PPCA_versions_agree_witness :
  exists rd rr,
    Dreimac.PPCA example_externals example_class_map 1 = Ok rd /\
    Root.PPCA example_externals example_class_map 1 false = Ok rr /\
    Root.variance rr = Dreimac.variance rd /\
    Dreimac.X rd = transpose (Root.X rr).
Proof.
  destruct example_PPCA_runs as (rd & _ & Hrd & _).
  destruct (PPCA_versions_agree example_externals example_class_map 1 false)
    as (HD & _ & _).
  - simpl. lia.
  - now left.
  - destruct (HD rd Hrd) as (rr & Hrr & H1 & H2).
    exists rd, rr. auto.
Defined.

(** X11. Target dimensions the class map cannot support.  A class map
    without columns makes both versions raise [ValueError] when the
    variance array is allocated.  On a class map with [L >= 1] columns
    and unit rows on which the reduction steps return (an [eigh] that
    returns orthogonal matrices, no coordinate of magnitude 1 dropped
    before the last step), the later version raises [AttributeError] for
    every [proj_dim > L - 2] (the matrix to return is never kept aside),
    and the first version raises [IndexError] for every [proj_dim >= L]
    with the progress report off; with the report on it raises
    [UnboundLocalError] for every [proj_dim >= max(1, L - 1)]. *)
Theorem PPCA_rejects_large_target_dimension (ext : externals) (N L : nat)
  (cm : list (list float64)) (proj_dim : nat) :
  (ncols cm = 0%nat ->
   forall verbose,
     Dreimac.PPCA ext cm proj_dim = Raise ValueError /\
     Root.PPCA ext cm proj_dim verbose = Raise ValueError) /\
  (eigh_orthogonal ext -> shape N L cm -> ncols cm = L -> (1 <= L)%nat ->
   Forall (fun row => fnorm row = Fin 1) cm ->
   nondegenerate ext (L - 2) (transpose cm) ->
   ((L < proj_dim + 2)%nat ->
    Dreimac.PPCA ext cm proj_dim = Raise AttributeError) /\
   ((L <= proj_dim)%nat ->
    Root.PPCA ext cm proj_dim false = Raise IndexError) /\
   ((L <= proj_dim + 1)%nat -> (1 <= proj_dim)%nat ->
    Root.PPCA ext cm proj_dim true = Raise UnboundLocalError)).
Proof.
  split.
  { intros H0 verbose. now apply PPCA_no_columns. }
  intros Horth Hcm Hcols HL Hrows Hnd.
  pose proof (ncols_rows N L cm Hcm Hcols HL) as HN.
  pose proof (transpose_shape N L cm Hcm ltac:(lia)) as HX0.
  pose proof (unit_rows_columns N L cm Hcm ltac:(lia) Hrows) as Hunit0.
  split; [|split].
  - intros Hpd.
    pose proof (Dreimac_PPCA_cases ext cm proj_dim ltac:(lia)) as Hcases.
    destruct (ppca_trace_runs ext N Horth HN (L - 1) (L - 2) L (transpose cm))
      as (vs & Xend & E & _); [lia | lia | exact HX0 | exact Hunit0
                               | exact Hnd |].
    rewrite Hcols, E in Hcases. apply Hcases. exact Hpd.
  - intros Hpd. rewrite Root_PPCA_out_of_range by lia.
    destruct (ppca_reduce_unit ext L N (transpose cm) Horth HX0 HL HN Hunit0)
      as (v & X1 & y & Hred & _).
    now rewrite Hred.
  - intros Hpd Hpd1. apply Root_PPCA_stale_index; lia.
Qed.

Lemma PPCA_rejects_large_target_dimension_witness :
  (Dreimac.PPCA example_externals [[]] 0 = Raise ValueError /\
   Root.PPCA example_externals [[]] 0 false = Raise ValueError) /\
  Dreimac.PPCA example_externals example_class_map 2 = Raise AttributeError /\
  Root.PPCA example_externals example_class_map 3 false = Raise IndexError /\
  Root.PPCA example_externals example_class_map 2 true
  = Raise UnboundLocalError.
Proof.
  split; [|split; [|split]].
  - apply (proj1 (PPCA_rejects_large_target_dimension example_externals
                    0 0 [[]] 0)).
    reflexivity.
  - apply (proj2 (PPCA_rejects_large_target_dimension example_externals
                    2 3 example_class_map 2)
             example_eigh_orthogonal example_class_map_shape eq_refl
             ltac:(lia) example_class_map_unit
             example_class_map_nondegenerate).
    lia.
  - apply (proj2 (PPCA_rejects_large_target_dimension example_externals
                    2 3 example_class_map 3)
             example_eigh_orthogonal example_class_map_shape eq_refl
             ltac:(lia) example_class_map_unit
             example_class_map_nondegenerate).
    lia.
  - apply (proj2 (PPCA_rejects_large_target_dimension example_externals
                    2 3 example_class_map 2)
             example_eigh_orthogonal example_class_map_shape eq_refl
             ltac:(lia) example_class_map_unit
             example_class_map_nondegenerate); lia.
Defined.

(** X12. On an [N] by [L] class map with unit rows on which the reduction
    steps return (an [eigh] that returns orthogonal matrices, no
    coordinate of magnitude 1 dropped before the last step), the first
    version of [PPCA], with the progress report off, returns for every
    target dimension up to [L - 1].  Its [X] is the working matrix after
    [L - proj_dim - 1] steps, with [proj_dim + 1] rows and one column per
    data point (it is not transposed), its [Z] is what [proj_dim] further
    steps leave, a single row, and the variance array has [L - 1]
    entries. *)
Theorem Root_PPCA_returns_working_matrices (ext : externals) (N L : nat)
  (cm : list (list float64)) (proj_dim : nat) :
  eigh_orthogonal ext -> shape N L cm -> ncols cm = L ->
  (proj_dim + 1 <= L)%nat ->
  Forall (fun row => fnorm row = Fin 1) cm ->
  nondegenerate ext (L - 2) (transpose cm) ->
  exists res,
    Root.PPCA ext cm proj_dim false = Ok res /\
    ppca_iterate ext (L - proj_dim - 1) (transpose cm) = Ok (Root.X res) /\
    ppca_iterate ext proj_dim (Root.X res) = Ok (Root.Z res) /\
    shape (proj_dim + 1) N (Root.X res) /\
    shape 1 N (Root.Z res) /\
    length (Root.variance res) = (L - 1)%nat.
Proof.
  intros Horth Hcm Hcols Hpd Hrows Hnd.
  pose proof (ncols_rows N L cm Hcm Hcols ltac:(lia)) as HN.
  pose proof (transpose_shape N L cm Hcm ltac:(lia)) as HX0.
  pose proof (unit_rows_columns N L cm Hcm ltac:(lia) Hrows) as Hunit0.
  destruct (ppca_trace_runs ext N Horth HN (L - 1) (L - 2) L (transpose cm))
    as (vs & Xend & E & HXend & _);
    [lia | lia | exact HX0 | exact Hunit0 | exact Hnd |].
  destruct (ppca_trace_runs ext N Horth HN (L - proj_dim - 1) (L - 2) L
              (transpose cm))
    as (vs1 & XK & E1 & HXK & _);
    [lia | lia | exact HX0 | exact Hunit0 | exact Hnd |].
  replace (L - 1)%nat with (L - proj_dim - 1 + proj_dim)%nat in E by lia.
  rewrite ppca_trace_app, E1 in E. cbn [bind fst snd] in E.
  destruct (ppca_trace ext proj_dim XK) as [[vs2 Z]|e] eqn:E2;
    cbn [bind fst snd] in E; [|discriminate].
  assert (vs = vs1 ++ vs2 /\ Xend = Z) as [-> ->] by (split; congruence).
  destruct (ppca_trace_iterate ext _ _ _ _ E1) as [Hit1 Hl1].
  destruct (ppca_trace_iterate ext _ _ _ _ E2) as [Hit2 Hl2].
  eexists. split.
  { rewrite Root_PPCA_trace by lia. rewrite Hcols, E1, E2. reflexivity. }
  cbn [Root.X Root.Z Root.variance].
  split; [exact Hit1|]. split; [exact Hit2|].
  split; [replace (proj_dim + 1)%nat with (L - (L - proj_dim - 1))%nat by lia;
          exact HXK|].
  split; [replace 1%nat with (L - (L - 1))%nat by lia; exact HXend|].
  rewrite length_rev, length_app. lia.
Qed.

Lemma Root_PPCA_returns_working_matrices_witness :
  exists res,
    Root.PPCA example_externals example_class_map 1 false = Ok res /\
    ppca_iterate example_externals (3 - 1 - 1) (transpose example_class_map)
      = Ok (Root.X res) /\
    ppca_iterate example_externals 1 (Root.X res) = Ok (Root.Z res) /\
    shape (1 + 1) 2 (Root.X res) /\
    shape 1 2 (Root.Z res) /\
    length (Root.variance res) = (3 - 1)%nat.
Proof.
  apply (Root_PPCA_returns_working_matrices example_externals 2 3
           example_class_map 1).
  - exact example_eigh_orthogonal.
  - exact example_class_map_shape.
  - reflexivity.
  - lia.
  - exact example_class_map_unit.
  - exact example_class_map_nondegenerate.
Defined.

(** X13. On a class map whose rows have unit norm, with an [eigh] that
    returns orthogonal matrices and as long as no point is aligned with an
    eliminated axis during the first [L - 2] steps, every entry of the
    variance array either version of [PPCA] returns is a finite number
    between [0] and [(pi/2)^2]. *)
Theorem PPCA_variances_between_zero_and_quarter_turn_squared
  (ext : externals) (N L : nat) (cm : list (list float64)) (proj_dim : nat) :
  eigh_orthogonal ext -> shape N L cm -> (1 <= N)%nat ->
  Forall (fun row => fnorm row = Fin 1) cm ->
  nondegenerate ext (L - 2) (transpose cm) ->
  (forall res, Dreimac.PPCA ext cm proj_dim = Ok res ->
     Forall bounded_variance (Dreimac.variance res)) /\
  (forall verbose res, Root.PPCA ext cm proj_dim verbose = Ok res ->
     Forall bounded_variance (Root.variance res)).
Proof.
  intros Horth Hcm HN Hrows Hnd.
  pose proof (ncols_positive_shape N L cm Hcm HN) as Hcols.
  assert (Hbound : forall vs Xend,
            ppca_trace ext (L - 1) (transpose cm) = Ok (vs, Xend) ->
            Forall bounded_variance (rev vs)).
  { intros vs Xend Htr.
    destruct (decide (L = 0)%nat) as [->|HL].
    { cbn [Nat.sub ppca_trace] in Htr. assert (vs = []) by congruence.
      subst vs. constructor. }
    apply Forall_rev.
    destruct (ppca_trace_runs ext N Horth HN (L - 1) (L - 2) L
                (transpose cm)) as (vs' & Xend' & Htr' & _ & Hvs & _);
      [lia | lia | | | exact Hnd |].
    - apply transpose_shape; [exact Hcm | lia].
    - apply (unit_rows_columns N L cm Hcm ltac:(lia) Hrows).
    - assert (vs' = vs) by congruence. subst vs'. exact Hvs. }
  split.
  - intros res Hres.
    destruct (Dreimac_PPCA_Ok_trace ext cm proj_dim res Hres)
      as (vs & Xend & XK & Htr & _ & _ & ->).
    rewrite Hcols in Htr. exact (Hbound vs Xend Htr).
  - intros verbose res Hres. apply Root_PPCA_Ok_silent in Hres.
    destruct (Root_PPCA_Ok_trace ext cm proj_dim res Hres)
      as (vs1 & XK & vs2 & Z & _ & _ & _ & Htr & ->).
    rewrite Hcols in Htr. exact (Hbound _ Z Htr).
Qed.

Lemma PPCA_variances_between_zero_and_quarter_turn_squared_witness :
  exists rd rr,
    Dreimac.PPCA example_externals example_class_map 1 = Ok rd /\
    Forall bounded_variance (Dreimac.variance rd) /\
    Root.PPCA example_externals example_class_map 1 false = Ok rr /\
    Forall bounded_variance (Root.variance rr).
Proof.
  destruct example_PPCA_runs as (rd & rr & Hrd & Hrr).
  destruct (PPCA_variances_between_zero_and_quarter_turn_squared
              example_externals 2 3 example_class_map 1
              example_eigh_orthogonal example_class_map_shape ltac:(lia)
              example_class_map_unit example_class_map_nondegenerate)
    as [HD HR].
  exists rd, rr. split; [exact Hrd|]. split; [exact (HD rd Hrd)|].
  split; [exact Hrr | exact (HR false rr Hrr)].
Defined.

(** X22. The progress report of the first [PPCA].  With [verbose] on,
    when the main loop makes a step ([proj_dim + 2 <= n_dim]): for
    [n_dim < 20] the first step raises [ZeroDivisionError], and for
    [n_dim >= 20] the result is the one of a silent run.  When the main
    loop is empty and [proj_dim >= 1], the coordinates loop raises
    [UnboundLocalError] on the index the main loop never set.
    Nothing here depends on [eigh]: the report comes first in the body
    of both loops. *)
Theorem Root_PPCA_progress_report (ext : externals)
  (cm : list (list float64)) (proj_dim : nat) :
  ((proj_dim + 2 <= ncols cm)%nat -> (ncols cm < 20)%nat ->
   Root.PPCA ext cm proj_dim true = Raise ZeroDivisionError) /\
  ((proj_dim + 2 <= ncols cm)%nat -> (20 <= ncols cm)%nat ->
   Root.PPCA ext cm proj_dim true = Root.PPCA ext cm proj_dim false) /\
  ((1 <= ncols cm)%nat -> (ncols cm <= proj_dim + 1)%nat ->
   (1 <= proj_dim)%nat ->
   Root.PPCA ext cm proj_dim true = Raise UnboundLocalError).
Proof.
  split; [|split].
  - intros Hpd H20. now apply Root_PPCA_progress_error.
  - intros Hpd H20. now apply Root_PPCA_reporting.
  - intros HL Hpd Hpd1. now apply Root_PPCA_stale_index.
Qed.

Lemma Root_PPCA_progress_report_witness :
  Root.PPCA example_externals example_class_map 1 true
  = Raise ZeroDivisionError /\
  Root.PPCA example_externals example_class_map 2 true
  = Raise UnboundLocalError.
Proof.
  split.
  - apply (proj1 (Root_PPCA_progress_report example_externals
                    example_class_map 1)); simpl; lia.
  - apply (proj2 (proj2 (Root_PPCA_progress_report example_externals
                           example_class_map 2))); simpl; lia.
Defined.

(** ** What the pipeline passes from one step to the next *)

Lemma getGreedyPermDM_lengths (D : list (list R)) (M : nat) (verbose : bool)
  (res : greedy_perm_dm) :
  getGreedyPermDM D M verbose = Ok res ->
  (0 < length D)%nat /\ length (gd_perm res) = M /\
  length (gd_DLandmarks res) = M.
Proof.
  intros Hrun.
  pose proof (getGreedyPermDM_rows D M verbose res Hrun) as Hrows.
  unfold getGreedyPermDM in Hrun.
  apply bind_Ok in Hrun as (ds & Hds & Hrun). apply index_Ok in Hds.
  apply bind_Ok in Hrun as (st & Hst & Hrun).
  apply bind_Ok in Hrun as (DL & _ & Hrun).
  assert (Hperm : gd_perm res = gs_perm st) by (inversion Hrun; reflexivity).
  assert (Hlen : length (gs_perm st) = M).
  { apply (foldR_invariant (fun s => length (gs_perm s) = M)
             (greedy_dm_body D M verbose) (seq 1 (M - 1)))
      with (s := {| gs_perm := replicate M 0%nat;
                    gs_lambdas := replicate M 0; gs_ds := ds; gs_D := [] |});
      [| apply length_replicate | exact Hst].
    intros s i s' Hs Hbody. unfold greedy_dm_body in Hbody.
    apply bind_Ok in Hbody as (idx & _ & Hbody).
    apply bind_Ok in Hbody as (lam & _ & Hbody).
    apply bind_Ok in Hbody as (row & _ & Hbody).
    apply bind_Ok in Hbody as ([] & _ & Hbody).
    inversion Hbody; subst s'. simpl. now rewrite length_insert. }
  split; [apply lookup_lt_is_Some; eauto|].
  split; [congruence|].
  rewrite (mapR_Ok_length _ _ _ Hrows). congruence.
Qed.

Lemma coverage_nonempty (dist : list (list R)) (cov : R) :
  coverage dist = Ok cov -> dist <> [].
Proof. intros H ->. discriminate. Qed.

Lemma radius_formula_Fin (perc b d cov : R) :
  radius_formula perc (Fin b) (Fin d) cov
  = Fin ((1 - perc) * Rmax b cov + perc * d).
Proof. unfold radius_formula. now rewrite py_max_Fin. Qed.

(** The later version, from the landmarks and the radius on. *)
Lemma Dreimac_ProjCoords_steps (ext : externals) (P : list (list R))
  (n_landmarks : nat) (distance_matrix : bool) (perc : R) (maxdim : nat)
  (cidx : list nat) (proj_dim : nat) (verbose : bool) (perm : list nat)
  (dld dll : list (list R)) (dgm1 : list (R * R)) (idx_p1 : list nat)
  (c : cocycle) (r : float64) :
  Dreimac.sample_landmarks ext P n_landmarks distance_matrix verbose
    = Ok (perm, dld, dll) ->
  Dreimac.cover_radius ext (fst (rips_fit ext maxdim dll))
    (snd (rips_fit ext maxdim dll)) dld perc cidx = Ok (dgm1, idx_p1, c, r) ->
  Dreimac.ProjCoords ext P n_landmarks distance_matrix perc maxdim cidx
    proj_dim verbose
  = (cm <- build_class_map (length P) n_landmarks dld r c ;;
     res <- Dreimac.PPCA ext cm proj_dim ;;
     Ok {| Dreimac.res_variance := Dreimac.variance res;
           Dreimac.res_X := Dreimac.X res;
           Dreimac.res_cocycle := map fst c;
           Dreimac.res_dist_land_land := dll;
           Dreimac.res_dist_land_data := dld;
           Dreimac.res_dgm1 :=
             map (fun bd : R * R => (fst bd * 2, snd bd * 2)) dgm1;
           Dreimac.res_idx_p1 := idx_p1;
           Dreimac.res_perm := perm |}).
Proof.
  intros Hs Hrc. unfold Dreimac.ProjCoords. rewrite Hs. cbn [bind fst snd].
  rewrite Hrc. reflexivity.
Qed.

(** The first version, from the landmarks and the radius on. *)
Lemma Root_ProjCoords_steps (fo : float_ops) (ext : externals)
  (P : list (list R)) (n_landmarks : nat) (distance_matrix : bool)
  (perc : R) (proj_dim : nat) (verbose : bool) (dld dll : list (list R))
  (c : cocycle) (r : float64) :
  Root.sample_landmarks fo P n_landmarks distance_matrix verbose
    = Ok (dld, dll) ->
  Root.birth_radius (fst (rips_fit ext 1 dll)) (snd (rips_fit ext 1 dll))
    dld perc = Ok (c, r) ->
  Root.ProjCoords fo ext P n_landmarks distance_matrix perc proj_dim verbose
  = (cm <- build_class_map (length P) n_landmarks dld r c ;;
     res <- Root.PPCA ext cm proj_dim verbose ;;
     Ok {| Root.r_birth := r; Root.class_map := cm; Root.ppca := res |}).
Proof.
  intros Hs Hbr. unfold Root.ProjCoords. rewrite Hs. cbn [bind fst snd].
  rewrite Hbr. reflexivity.
Qed.

(** The first version takes the first class of maximal persistence and
    uses its birth and death as the persistence engine reports them. *)
Lemma birth_radius_spec (dgm1 : list (R * R)) (cocycles : list cocycle)
  (dld : list (list R)) (perc : R) (c : cocycle) (r : float64) :
  Root.birth_radius dgm1 cocycles dld perc = Ok (c, r) ->
  exists idx bd cov,
    dgm1 !! idx = Some bd /\ cocycles !! idx = Some c /\
    (forall k bd', dgm1 !! k = Some bd' ->
       snd bd' - fst bd' <= snd bd - fst bd) /\
    (forall k bd', (k < idx)%nat -> dgm1 !! k = Some bd' ->
       snd bd' - fst bd' < snd bd - fst bd) /\
    coverage dld = Ok cov /\
    r = Fin ((1 - perc) * Rmax (fst bd) cov + perc * snd bd).
Proof.
  unfold Root.birth_radius. intros H.
  apply bind_Ok in H as (idx & Hidx & H).
  apply bind_Ok in H as (c' & Hc & H).
  apply bind_Ok in H as (cov & Hcov & H).
  apply bind_Ok in H as (bd & Hbd & H).
  assert (c' = c /\ r = radius_formula perc (Fin (fst bd)) (Fin (snd bd)) cov)
    as [-> ->] by (split; congruence).
  clear H. apply index_Ok in Hbd, Hc.
  destruct (argmax_first _ _ Hidx) as (v & Hv & Hmax & Hfirst).
  rewrite lookup_map, Hbd in Hv. cbn [fmap option_fmap option_map] in Hv.
  assert (v = snd bd - fst bd) by congruence. subst v.
  exists idx, bd, cov. split; [exact Hbd|]. split; [exact Hc|].
  split; [|split; [|split; [exact Hcov | apply radius_formula_Fin]]].
  - intros k bd' Hk. apply (Hmax k). now rewrite lookup_map, Hk.
  - intros k bd' Hlt Hk. apply (Hfirst k); [exact Hlt|].
    now rewrite lookup_map, Hk.
Qed.

(** ** The worked example through both versions *)

Lemma five_points_shape : shape 5 5 five_points.
Proof. split; [reflexivity | repeat constructor]. Qed.

Lemma five_points_separated : separated five_points.
Proof.
  intros a b ra v Ha Hb. unfold five_points in Ha.
  do 5 (destruct a as [|a];
        [simpl in Ha; injection Ha as <-;
         do 5 (destruct b as [|b];
               [simpl in Hb; injection Hb as <-;
                split; [lra | split; intros E;
                              first [reflexivity | lra | discriminate
                                    | exfalso; lra]]
               |]);
         simpl in Hb; discriminate
        |]).
  simpl in Ha. discriminate.
Qed.

Lemma five_points_Dreimac_sampled :
  Dreimac.sample_landmarks example_externals five_points 4 true false
  = Ok ([0; 2; 1; 3]%nat, five_points_landmarks,
        [[0; 12; 8; 8]; [12; 0; 8; 8]; [8; 8; 0; 12]; [8; 8; 12; 0]]).
Proof.
  unfold Dreimac.sample_landmarks.
  cbn [csm_getGreedyPermDM example_externals].
  rewrite five_points_sampled. cbn [bind gd_perm gd_DLandmarks].
  change (mapR (index five_points) [0; 2; 1; 3]%nat)
    with (Ok five_points_landmarks).
  cbn [bind]. rewrite five_points_landmark_distances. reflexivity.
Qed.

Lemma five_points_Root_sampled :
  Root.sample_landmarks exact_ops five_points 4 true false
  = Ok (five_points_landmarks,
        [[0; 12; 8; 8]; [12; 0; 8; 8]; [8; 8; 0; 12]; [8; 8; 12; 0]]).
Proof.
  unfold Root.sample_landmarks.
  rewrite five_points_sampled. cbn [bind gd_perm gd_DLandmarks].
  change (mapR (index five_points) [0; 2; 1; 3]%nat)
    with (Ok five_points_landmarks).
  cbn [bind]. rewrite five_points_landmark_distances. reflexivity.
Qed.

Lemma five_points_cover_radius :
  Dreimac.cover_radius example_externals [(8, 12)]
    [[(2%nat, 0%nat, 1%nat)]] five_points_landmarks (1 / 2) [0%nat]
  = Ok ([(8 / 2, 12 / 2)], [0%nat], [(2%nat, 0%nat, 1%nat)], Fin 5).
Proof.
  destruct five_points_radius as (r & Hr & ->). exact Hr.
Qed.

Lemma five_points_birth_radius :
  Root.birth_radius [(8, 12)] [[(2%nat, 0%nat, 1%nat)]]
    five_points_landmarks (1 / 2)
  = Ok ([(2%nat, 0%nat, 1%nat)], Fin 10).
Proof.
  unfold Root.birth_radius.
  cbn [map argmax argmax_from bind index lookup list_lookup fst snd].
  rewrite (proj1 five_points_coverage). cbn [bind].
  rewrite radius_formula_Fin. do 3 f_equal.
  rewrite Rmax_left by lra. lra.
Qed.

(** The fifth point is at distance 5 or more from every landmark. *)
Lemma five_points_uncovered :
  Forall (fun d => 5 <= d) (col 4 five_points_landmarks).
Proof.
  change (col 4 five_points_landmarks) with [5; 12; 8; 8].
  repeat constructor; lra.
Qed.

(** ** A class map with a NaN row *)

Lemma fsum_nan (l : list float64) : NaN ∈ l -> fsum l = NaN.
Proof.
  induction l as [|a l IH]; intros H; [inversion H|].
  change (fsum (a :: l)) with (fadd a (fsum l)).
  apply elem_of_cons in H as [<- | H]; [reflexivity|].
  rewrite (IH H). now destruct a.
Qed.

Lemma fdot_nan (u v : list float64) (j : nat) :
  u !! j = Some NaN -> v !! j = Some NaN -> fdot u v = NaN.
Proof.
  intros Hu Hv. unfold fdot. apply fsum_nan.
  apply list_elem_of_lookup. exists j.
  rewrite lookup_zip_with, Hu. simpl. now rewrite Hv.
Qed.

(** With a NaN row in the class map, every entry of the matrix
    [X.dot(X.T)] that the first reduction step hands to [eigh] is NaN. *)
Lemma nan_row_gram (N L j : nat) (cm : list (list float64)) :
  shape N L cm -> (1 <= L)%nat -> cm !! j = Some (replicate L NaN) ->
  matmul (transpose cm) (transpose (transpose cm))
  = replicate L (replicate L NaN).
Proof.
  intros Hcm HL Hj.
  assert (HjN : (j < N)%nat).
  { destruct Hcm as [<- _]. apply lookup_lt_is_Some. eauto. }
  pose proof (transpose_shape N L cm Hcm ltac:(lia)) as HX.
  pose proof (transpose_shape L N (transpose cm) HX ltac:(lia)) as HXT.
  assert (Hrow : forall i, (i < L)%nat ->
            exists xi, transpose cm !! i = Some xi /\ xi !! j = Some NaN).
  { intros i Hi. exists (col i cm).
    split; [exact (transpose_lookup N L i cm Hcm ltac:(lia) Hi)|].
    rewrite (col_lookup N L i cm j Hcm Hi), Hj. simpl.
    now apply lookup_replicate_2. }
  unfold matmul. rewrite (ncols_shape N L _ HXT ltac:(lia)).
  apply list_eq. intros i.
  destruct (decide (i < L)%nat) as [Hi|Hi].
  - destruct (Hrow i Hi) as (xi & Hxi & Hxij).
    rewrite lookup_map, Hxi, lookup_replicate_2 by exact Hi. simpl.
    f_equal. apply list_eq. intros k.
    destruct (decide (k < L)%nat) as [Hk|Hk].
    + destruct (Hrow k Hk) as (xk & Hxk & Hxkj).
      rewrite lookup_map, lookup_seq_lt, lookup_replicate_2 by exact Hk.
      simpl. f_equal.
      rewrite (col_transpose L N k (transpose cm) xk HX ltac:(lia) Hxk).
      exact (fdot_nan xi xk j Hxij Hxkj).
    + rewrite !lookup_ge_None_2; [reflexivity| |].
      * rewrite length_replicate. lia.
      * rewrite length_map, length_seq. lia.
  - rewrite !lookup_ge_None_2; [reflexivity| |].
    + rewrite length_replicate. lia.
    + rewrite length_map. destruct HX as [-> _]. lia.
Qed.

Lemma nan_row_reduce (ext : externals) (N L j : nat)
  (cm : list (list float64)) :
  eigh_rejects_nan ext -> (3 <= L)%nat ->
  shape N L cm -> cm !! j = Some (replicate L NaN) ->
  ppca_reduce ext (transpose cm) = Raise LinAlgError.
Proof.
  intros Hrej HL Hcm Hj. unfold ppca_reduce.
  rewrite (nan_row_gram N L j cm Hcm ltac:(lia) Hj).
  now rewrite (Hrej L HL).
Qed.

(** Both versions of [PPCA] then stop at the first call of [eigh]. *)
Lemma nan_row_PPCA (ext : externals) (N L j : nat)
  (cm : list (list float64)) (proj_dim : nat) :
  eigh_rejects_nan ext -> (3 <= L)%nat ->
  shape N L cm -> cm !! j = Some (replicate L NaN) ->
  Dreimac.PPCA ext cm proj_dim = Raise LinAlgError /\
  Root.PPCA ext cm proj_dim false = Raise LinAlgError.
Proof.
  intros Hrej HL Hcm Hj.
  pose proof (nan_row_reduce ext N L j cm Hrej HL Hcm Hj) as Hred.
  assert (HN : (1 <= N)%nat).
  { destruct Hcm as [<- _]. apply lookup_lt_Some in Hj. lia. }
  pose proof (ncols_positive_shape N L cm Hcm HN) as Hcols.
  assert (Htrace : forall k, ppca_trace ext (S k) (transpose cm)
                             = Raise LinAlgError).
  { intros k. now rewrite ppca_trace_S, Hred. }
  split.
  - pose proof (Dreimac_PPCA_cases ext cm proj_dim ltac:(lia)) as Hcases.
    rewrite Hcols in Hcases.
    replace (L - 1)%nat with (S (L - 2)) in Hcases by lia.
    now rewrite Htrace in Hcases.
  - destruct (le_lt_dec L proj_dim) as [Hpd|Hpd].
    + rewrite Root_PPCA_out_of_range by lia. now rewrite Hred.
    + rewrite Root_PPCA_trace by lia. rewrite Hcols.
      destruct (L - proj_dim - 1)%nat as [|k] eqn:Ek.
      * cbn [ppca_trace]. destruct proj_dim as [|pd]; [lia|].
        now rewrite Htrace.
      * now rewrite Htrace.
Qed.

(** The class map of a cover that leaves point [j] out, and what both
    versions do with it. *)
Lemma uncovered_point_pipeline (L N j : nat) (dist : list (list R))
  (rc : R) (c : cocycle) (signs : list (list float64)) :
  shape L N dist -> (0 < L)%nat -> (j < N)%nat ->
  Forall (fun d => rc <= d) (col j dist) ->
  cocycle_matrix L c = Ok signs ->
  exists cm,
    build_class_map N L dist (Fin rc) c = Ok cm /\
    shape N L cm /\
    cm !! j = Some (replicate L NaN) /\
    (forall ext proj_dim, eigh_rejects_nan ext -> (3 <= L)%nat ->
       Dreimac.PPCA ext cm proj_dim = Raise LinAlgError /\
       Root.PPCA ext cm proj_dim false = Raise LinAlgError) /\
    (forall ext P distance_matrix perc maxdim cidx proj_dim verbose
            perm dll dgm1 idx_p1,
       eigh_rejects_nan ext -> (3 <= L)%nat -> length P = N ->
       Dreimac.sample_landmarks ext P L distance_matrix verbose
         = Ok (perm, dist, dll) ->
       Dreimac.cover_radius ext (fst (rips_fit ext maxdim dll))
         (snd (rips_fit ext maxdim dll)) dist perc cidx
         = Ok (dgm1, idx_p1, c, Fin rc) ->
       Dreimac.ProjCoords ext P L distance_matrix perc maxdim cidx proj_dim
         verbose = Raise LinAlgError) /\
    (forall fo ext P distance_matrix perc proj_dim dll,
       eigh_rejects_nan ext -> (3 <= L)%nat -> length P = N ->
       Root.sample_landmarks fo P L distance_matrix false = Ok (dist, dll) ->
       Root.birth_radius (fst (rips_fit ext 1 dll))
         (snd (rips_fit ext 1 dll)) dist perc = Ok (c, Fin rc) ->
       Root.ProjCoords fo ext P L distance_matrix perc proj_dim false
       = Raise LinAlgError).
Proof.
  intros Hdist HL Hj Hfar Hsigns.
  pose proof (cocycle_matrix_sign_matrix _ _ _ Hsigns) as Hsm.
  destruct (uncovered_row_nan L N j dist rc signs Hdist HL Hj Hfar Hsm)
    as (cm & Hcm & Hlen & Hrow).
  pose proof (classifying_map_shape L N dist (Fin rc) signs cm Hdist HL Hsm
                Hcm) as Hshape.
  assert (Hbuild : build_class_map N L dist (Fin rc) c = Ok cm).
  { unfold build_class_map. rewrite Hsigns. exact Hcm. }
  exists cm. split; [exact Hbuild|]. split; [exact Hshape|].
  split; [exact Hrow|]. split; [|split].
  - intros ext proj_dim Hrej HL3.
    exact (nan_row_PPCA ext N L j cm proj_dim Hrej HL3 Hshape Hrow).
  - intros ext P dm perc maxdim cidx proj_dim verbose perm dll dgm1 idx_p1
      Hrej HL3 HP Hs Hrc.
    rewrite (Dreimac_ProjCoords_steps _ _ _ _ _ _ _ _ _ _ _ _ _ _ _ _ Hs Hrc).
    rewrite HP, Hbuild. cbn [bind].
    now rewrite (proj1 (nan_row_PPCA ext N L j cm proj_dim Hrej HL3 Hshape
                          Hrow)).
  - intros fo ext P dm perc proj_dim dll Hrej HL3 HP Hs Hbr.
    rewrite (Root_ProjCoords_steps _ _ _ _ _ _ _ _ _ _ _ _ Hs Hbr).
    rewrite HP, Hbuild. cbn [bind].
    now rewrite (proj2 (nan_row_PPCA ext N L j cm proj_dim Hrej HL3 Hshape
                          Hrow)).
Qed.

(** C7 (as amended).  When no landmark ball of radius [rc] contains data
    point [j], no coverage failure is reported: the class map is built,
    with NaN in every entry of row [j] (each entry of that column of the
    partition of unity is [0/0]), and handed to [PPCA]; with three
    landmarks or more and an [eigh] that does not converge on a matrix of
    NaN, both versions of [PPCA], and with them both versions of
    [ProjCoords], end with the [LinAlgError] of [eigh] (the first version
    with its progress report off). *)
Theorem uncovered_point_yields_nan (L N j : nat) (dist : list (list R))
  (rc : R) (c : cocycle) (signs : list (list float64)) :
  shape L N dist -> (0 < L)%nat -> (j < N)%nat ->
  Forall (fun d => rc <= d) (col j dist) ->
  cocycle_matrix L c = Ok signs ->
  exists cm,
    build_class_map N L dist (Fin rc) c = Ok cm /\
    shape N L cm /\
    cm !! j = Some (replicate L NaN) /\
    (forall ext proj_dim, eigh_rejects_nan ext -> (3 <= L)%nat ->
       Dreimac.PPCA ext cm proj_dim = Raise LinAlgError /\
       Root.PPCA ext cm proj_dim false = Raise LinAlgError) /\
    (forall ext P distance_matrix perc maxdim cidx proj_dim verbose
            perm dll dgm1 idx_p1,
       eigh_rejects_nan ext -> (3 <= L)%nat -> length P = N ->
       Dreimac.sample_landmarks ext P L distance_matrix verbose
         = Ok (perm, dist, dll) ->
       Dreimac.cover_radius ext (fst (rips_fit ext maxdim dll))
         (snd (rips_fit ext maxdim dll)) dist perc cidx
         = Ok (dgm1, idx_p1, c, Fin rc) ->
       Dreimac.ProjCoords ext P L distance_matrix perc maxdim cidx proj_dim
         verbose = Raise LinAlgError) /\
    (forall fo ext P distance_matrix perc proj_dim dll,
       eigh_rejects_nan ext -> (3 <= L)%nat -> length P = N ->
       Root.sample_landmarks fo P L distance_matrix false = Ok (dist, dll) ->
       Root.birth_radius (fst (rips_fit ext 1 dll))
         (snd (rips_fit ext 1 dll)) dist perc = Ok (c, Fin rc) ->
       Root.ProjCoords fo ext P L distance_matrix perc proj_dim false
       = Raise LinAlgError).
Proof. exact (uncovered_point_pipeline L N j dist rc c signs). Qed.

Lemma uncovered_point_yields_nan_witness :
  exists cm,
    build_class_map 5 4 five_points_landmarks (Fin 5)
      [(2%nat, 0%nat, 1%nat)] = Ok cm /\
    shape 5 4 cm /\
    cm !! 4%nat = Some (replicate 4 NaN) /\
    Dreimac.PPCA example_externals cm 2 = Raise LinAlgError /\
    Root.PPCA example_externals cm 2 false = Raise LinAlgError /\
    Dreimac.ProjCoords example_externals five_points 4 true (1 / 2) 1
      [0%nat] 2 false = Raise LinAlgError.
Proof.
  destruct (uncovered_point_yields_nan 4 5 4 five_points_landmarks 5
              [(2%nat, 0%nat, 1%nat)] _ five_points_landmarks_shape
              ltac:(lia) ltac:(lia) five_points_uncovered five_points_signs)
    as (cm & Hcm & Hshape & Hrow & HPPCA & HD & _).
  exists cm. split; [exact Hcm|]. split; [exact Hshape|].
  split; [exact Hrow|].
  split; [exact (proj1 (HPPCA example_externals 2%nat
                          example_eigh_rejects_nan ltac:(lia)))|].
  split; [exact (proj2 (HPPCA example_externals 2%nat
                          example_eigh_rejects_nan ltac:(lia)))|].
  apply (HD example_externals five_points true (1 / 2) 1%nat [0%nat] 2%nat
           false [0; 2; 1; 3]%nat
           [[0; 12; 8; 8]; [12; 0; 8; 8]; [8; 8; 0; 12]; [8; 8; 12; 0]]
           [(8 / 2, 12 / 2)] [0%nat]).
  - exact example_eigh_rejects_nan.
  - lia.
  - reflexivity.
  - exact five_points_Dreimac_sampled.
  - exact five_points_cover_radius.
Defined.

(** C7, counterexample.  Five points, four landmarks, [perc = 1/2]: the
    radius is 5, the fifth point is at distance 5 from the nearest
    landmark and is left out.  The run reports no coverage failure: it
    builds a class map whose fifth row is NaN and ends in [eigh] with
    [LinAlgError]. *)
Lemma uncovered_point_gives_nan_then_eigh_error :
  (exists cm,
     build_class_map 5 4 five_points_landmarks (Fin 5)
       [(2%nat, 0%nat, 1%nat)] = Ok cm /\
     cm !! 4%nat = Some [NaN; NaN; NaN; NaN]) /\
  Dreimac.ProjCoords example_externals five_points 4 true (1 / 2) 1
    [0%nat] 2 false = Raise LinAlgError.
Proof.
  destruct (uncovered_point_pipeline 4 5 4 five_points_landmarks 5
              [(2%nat, 0%nat, 1%nat)] _ five_points_landmarks_shape
              ltac:(lia) ltac:(lia) five_points_uncovered five_points_signs)
    as (cm & Hcm & Hshape & Hrow & _ & HD & _).
  split; [exists cm; split; [exact Hcm | exact Hrow]|].
  apply (HD example_externals five_points true (1 / 2) 1%nat [0%nat] 2%nat
           false [0; 2; 1; 3]%nat
           [[0; 12; 8; 8]; [12; 0; 8; 8]; [8; 8; 0; 12]; [8; 8; 12; 0]]
           [(8 / 2, 12 / 2)] [0%nat]).
  - exact example_eigh_rejects_nan.
  - lia.
  - reflexivity.
  - exact five_points_Dreimac_sampled.
  - exact five_points_cover_radius.
Qed.

(** ** Which scale the radius is computed at *)

Lemma Dreimac_radius_from_halved_diagram (ext : externals)
  (P : list (list R)) (n_landmarks : nat) (distance_matrix verbose : bool)
  (perc : R) (proj_dim maxdim : nat) (cidx perm : list nat)
  (dld dll : list (list R)) (dgm1 : list (R * R)) (idx_p1 : list nat)
  (c : cocycle) (r : float64) :
  Dreimac.sample_landmarks ext P n_landmarks distance_matrix verbose
    = Ok (perm, dld, dll) ->
  Dreimac.cover_radius ext (fst (rips_fit ext maxdim dll))
    (snd (rips_fit ext maxdim dll)) dld perc cidx
    = Ok (dgm1, idx_p1, c, r) ->
  dgm1 = map (fun bd : R * R => (fst bd / 2, snd bd / 2))
             (fst (rips_fit ext maxdim dll)) /\
  (exists raw cov bmax dmin,
     selected_pairs (fst (rips_fit ext maxdim dll)) idx_p1 cidx = Ok raw /\
     coverage dld = Ok cov /\
     amax (map (fun bd : R * R => fst bd / 2) raw) = Ok bmax /\
     amin (map (fun bd : R * R => snd bd / 2) raw) = Ok dmin /\
     r = Fin ((1 - perc) * Rmax bmax cov + perc * dmin)) /\
  Dreimac.ProjCoords ext P n_landmarks distance_matrix perc maxdim cidx
    proj_dim verbose
  = (cm <- build_class_map (length P) n_landmarks dld r c ;;
     res <- Dreimac.PPCA ext cm proj_dim ;;
     Ok {| Dreimac.res_variance := Dreimac.variance res;
           Dreimac.res_X := Dreimac.X res;
           Dreimac.res_cocycle := map fst c;
           Dreimac.res_dist_land_land := dll;
           Dreimac.res_dist_land_data := dld;
           Dreimac.res_dgm1 := fst (rips_fit ext maxdim dll);
           Dreimac.res_idx_p1 := idx_p1;
           Dreimac.res_perm := perm |}).
Proof.
  intros Hs Hrc.
  destruct (cover_radius_spec _ _ _ _ _ _ _ _ _ _ Hrc) as [Hd Hr].
  split; [exact Hd|]. split; [exact Hr|].
  rewrite (Dreimac_ProjCoords_steps _ _ _ _ _ _ _ _ _ _ _ _ _ _ _ _ Hs Hrc).
  now rewrite Hd, double_halved.
Qed.

Lemma Root_radius_from_raw_diagram (fo : float_ops) (ext : externals)
  (P : list (list R)) (n_landmarks : nat) (distance_matrix verbose : bool)
  (perc : R) (proj_dim : nat) (dld dll : list (list R)) (c : cocycle)
  (r : float64) :
  Root.sample_landmarks fo P n_landmarks distance_matrix verbose
    = Ok (dld, dll) ->
  Root.birth_radius (fst (rips_fit ext 1 dll)) (snd (rips_fit ext 1 dll))
    dld perc = Ok (c, r) ->
  (exists idx bd cov,
     fst (rips_fit ext 1 dll) !! idx = Some bd /\
     coverage dld = Ok cov /\
     r = Fin ((1 - perc) * Rmax (fst bd) cov + perc * snd bd)) /\
  Root.ProjCoords fo ext P n_landmarks distance_matrix perc proj_dim verbose
  = (cm <- build_class_map (length P) n_landmarks dld r c ;;
     res <- Root.PPCA ext cm proj_dim verbose ;;
     Ok {| Root.r_birth := r; Root.class_map := cm; Root.ppca := res |}).
Proof.
  intros Hs Hbr. split.
  - destruct (birth_radius_spec _ _ _ _ _ _ Hbr)
      as (idx & bd & cov & Hbd & _ & _ & _ & Hcov & Hr).
    exists idx, bd, cov. auto.
  - exact (Root_ProjCoords_steps _ _ _ _ _ _ _ _ _ _ _ _ Hs Hbr).
Qed.

(** C3 (as amended).  In the later version every birth and death of the
    diagram is halved before the radius is computed: the radius
    interpolates between the largest halved birth of the selected classes
    (or the coverage, when larger) and their smallest halved death, the
    partition of unity and the class map are built from that radius, and
    the diagram of a run that returns is the one the persistence engine
    produced, doubled back.  The first version computes its radius from
    the birth and death of one class as the engine reports them, and
    returns no diagram. *)
Theorem diagram_halved_for_radius_and_restored (fo : float_ops)
  (ext : externals) (P : list (list R)) (n_landmarks : nat)
  (distance_matrix verbose : bool) (perc : R) (proj_dim : nat) :
  (forall maxdim cidx perm dld dll dgm1 idx_p1 c r,
     Dreimac.sample_landmarks ext P n_landmarks distance_matrix verbose
       = Ok (perm, dld, dll) ->
     Dreimac.cover_radius ext (fst (rips_fit ext maxdim dll))
       (snd (rips_fit ext maxdim dll)) dld perc cidx
       = Ok (dgm1, idx_p1, c, r) ->
     dgm1 = map (fun bd : R * R => (fst bd / 2, snd bd / 2))
                (fst (rips_fit ext maxdim dll)) /\
     (exists raw cov bmax dmin,
        selected_pairs (fst (rips_fit ext maxdim dll)) idx_p1 cidx = Ok raw /\
        coverage dld = Ok cov /\
        amax (map (fun bd : R * R => fst bd / 2) raw) = Ok bmax /\
        amin (map (fun bd : R * R => snd bd / 2) raw) = Ok dmin /\
        r = Fin ((1 - perc) * Rmax bmax cov + perc * dmin)) /\
     Dreimac.ProjCoords ext P n_landmarks distance_matrix perc maxdim cidx
       proj_dim verbose
     = (cm <- build_class_map (length P) n_landmarks dld r c ;;
        res <- Dreimac.PPCA ext cm proj_dim ;;
        Ok {| Dreimac.res_variance := Dreimac.variance res;
              Dreimac.res_X := Dreimac.X res;
              Dreimac.res_cocycle := map fst c;
              Dreimac.res_dist_land_land := dll;
              Dreimac.res_dist_land_data := dld;
              Dreimac.res_dgm1 := fst (rips_fit ext maxdim dll);
              Dreimac.res_idx_p1 := idx_p1;
              Dreimac.res_perm := perm |})) /\
  (forall dld dll c r,
     Root.sample_landmarks fo P n_landmarks distance_matrix verbose
       = Ok (dld, dll) ->
     Root.birth_radius (fst (rips_fit ext 1 dll)) (snd (rips_fit ext 1 dll))
       dld perc = Ok (c, r) ->
     (exists idx bd cov,
        fst (rips_fit ext 1 dll) !! idx = Some bd /\
        coverage dld = Ok cov /\
        r = Fin ((1 - perc) * Rmax (fst bd) cov + perc * snd bd)) /\
     Root.ProjCoords fo ext P n_landmarks distance_matrix perc proj_dim
       verbose
     = (cm <- build_class_map (length P) n_landmarks dld r c ;;
        res <- Root.PPCA ext cm proj_dim verbose ;;
        Ok {| Root.r_birth := r; Root.class_map := cm; Root.ppca := res |})).
Proof.
  split.
  - intros maxdim cidx perm dld dll dgm1 idx_p1 c r Hs Hrc.
    exact (Dreimac_radius_from_halved_diagram ext P n_landmarks
             distance_matrix verbose perc proj_dim maxdim cidx perm dld dll
             dgm1 idx_p1 c r Hs Hrc).
  - intros dld dll c r Hs Hbr.
    exact (Root_radius_from_raw_diagram fo ext P n_landmarks distance_matrix
             verbose perc proj_dim dld dll c r Hs Hbr).
Qed.

Lemma diagram_halved_for_radius_and_restored_witness :
  ([(8 / 2, 12 / 2)]
   = map (fun bd : R * R => (fst bd / 2, snd bd / 2)) [(8, 12)] /\
   (exists raw cov bmax dmin,
      selected_pairs [(8, 12)] [0%nat] [0%nat] = Ok raw /\
      coverage five_points_landmarks = Ok cov /\
      amax (map (fun bd : R * R => fst bd / 2) raw) = Ok bmax /\
      amin (map (fun bd : R * R => snd bd / 2) raw) = Ok dmin /\
      Fin 5 = Fin ((1 - 1 / 2) * Rmax bmax cov + 1 / 2 * dmin)) /\
   Dreimac.ProjCoords example_externals five_points 4 true (1 / 2) 1
     [0%nat] 2 false
   = (cm <- build_class_map 5 4 five_points_landmarks (Fin 5)
              [(2%nat, 0%nat, 1%nat)] ;;
      res <- Dreimac.PPCA example_externals cm 2 ;;
      Ok {| Dreimac.res_variance := Dreimac.variance res;
            Dreimac.res_X := Dreimac.X res;
            Dreimac.res_cocycle := [(2%nat, 0%nat)];
            Dreimac.res_dist_land_land :=
              [[0; 12; 8; 8]; [12; 0; 8; 8]; [8; 8; 0; 12]; [8; 8; 12; 0]];
            Dreimac.res_dist_land_data := five_points_landmarks;
            Dreimac.res_dgm1 := [(8, 12)];
            Dreimac.res_idx_p1 := [0%nat];
            Dreimac.res_perm := [0; 2; 1; 3]%nat |})) /\
  ((exists idx bd cov,
      [(8, 12)] !! idx = Some bd /\
      coverage five_points_landmarks = Ok cov /\
      Fin 10 = Fin ((1 - 1 / 2) * Rmax (fst bd) cov + 1 / 2 * snd bd)) /\
   Root.ProjCoords exact_ops example_externals five_points 4 true (1 / 2) 2
     false
   = (cm <- build_class_map 5 4 five_points_landmarks (Fin 10)
              [(2%nat, 0%nat, 1%nat)] ;;
      res <- Root.PPCA example_externals cm 2 false ;;
      Ok {| Root.r_birth := Fin 10; Root.class_map := cm;
            Root.ppca := res |})).
Proof.
  destruct (diagram_halved_for_radius_and_restored exact_ops
              example_externals five_points 4 true false (1 / 2) 2)
    as [HD HR].
  split.
  - exact (HD 1%nat [0%nat] _ _ _ _ _ _ _ five_points_Dreimac_sampled
              five_points_cover_radius).
  - exact (HR _ _ _ _ five_points_Root_sampled five_points_birth_radius).
Defined.

(** C3, counterexample.  On [five_points] with four landmarks and
    [perc = 1/2] the first version computes its radius from the class
    [(8, 12)] as it is: [10], where the halved values give [5]. *)
Lemma first_version_does_not_halve :
  Root.sample_landmarks exact_ops five_points 4 true false
  = Ok (five_points_landmarks,
        [[0; 12; 8; 8]; [12; 0; 8; 8]; [8; 8; 0; 12]; [8; 8; 12; 0]]) /\
  Root.birth_radius [(8, 12)] [[(2%nat, 0%nat, 1%nat)]]
    five_points_landmarks (1 / 2)
  = Ok ([(2%nat, 0%nat, 1%nat)], Fin 10) /\
  radius_formula (1 / 2) (Fin (8 / 2)) (Fin (12 / 2)) 0 = Fin 5 /\
  Fin 10 <> Fin 5 /\
  Root.ProjCoords exact_ops example_externals five_points 4 true (1 / 2) 2
    false
  = (cm <- build_class_map 5 4 five_points_landmarks (Fin 10)
             [(2%nat, 0%nat, 1%nat)] ;;
     res <- Root.PPCA example_externals cm 2 false ;;
     Ok {| Root.r_birth := Fin 10; Root.class_map := cm;
           Root.ppca := res |}).
Proof.
  split; [exact five_points_Root_sampled|].
  split; [exact five_points_birth_radius|].
  split; [|split].
  - rewrite radius_formula_Fin. f_equal. rewrite Rmax_left by lra. lra.
  - intros H. inversion H. lra.
  - exact (proj2 (Root_radius_from_raw_diagram exact_ops example_externals
                    five_points 4 true false (1 / 2) 2 _ _ _ _
                    five_points_Root_sampled five_points_birth_radius)).
Qed.

(** X14. The first version of [ProjCoords] on a distance matrix,
    whenever it gets as far as the radius, uses one class of the diagram:
    the first one of maximal persistence [death - birth].  Its landmarks
    being data points, the coverage term is 0 when the matrix is square,
    non-negative and zero exactly on the diagonal, so that the radius is
    [(1 - perc) * max(birth, 0) + perc * death], with the birth and death
    of that class as the persistence engine returns them, not halved;
    the class map is built from that radius and the cocycle of that
    class. *)
Theorem Root_ProjCoords_radius_of_most_persistent_class (fo : float_ops)
  (ext : externals) (N : nat) (P : list (list R)) (n_landmarks : nat)
  (verbose : bool) (perc : R) (dld dll : list (list R)) (c : cocycle)
  (r : float64) :
  shape N N P -> separated P ->
  Root.sample_landmarks fo P n_landmarks true verbose = Ok (dld, dll) ->
  Root.birth_radius (fst (rips_fit ext 1 dll)) (snd (rips_fit ext 1 dll))
    dld perc = Ok (c, r) ->
  exists idx bd,
    fst (rips_fit ext 1 dll) !! idx = Some bd /\
    snd (rips_fit ext 1 dll) !! idx = Some c /\
    (forall k bd', fst (rips_fit ext 1 dll) !! k = Some bd' ->
       snd bd' - fst bd' <= snd bd - fst bd) /\
    (forall k bd', (k < idx)%nat ->
       fst (rips_fit ext 1 dll) !! k = Some bd' ->
       snd bd' - fst bd' < snd bd - fst bd) /\
    r = Fin ((1 - perc) * Rmax (fst bd) 0 + perc * snd bd) /\
    forall proj_dim,
      Root.ProjCoords fo ext P n_landmarks true perc proj_dim verbose
      = (cm <- build_class_map (length P) n_landmarks dld r c ;;
         res <- Root.PPCA ext cm proj_dim verbose ;;
         Ok {| Root.r_birth := r; Root.class_map := cm; Root.ppca := res |}).
Proof.
  intros HP Hsep Hs Hbr.
  destruct (birth_radius_spec _ _ _ _ _ _ Hbr)
    as (idx & bd & cov & Hbd & Hc & Hmax & Hfirst & Hcov & Hr).
  assert (Hzero : cov = 0).
  { unfold Root.sample_landmarks in Hs.
    apply bind_Ok in Hs as (res0 & Hres0 & Hs).
    apply bind_Ok in Hs as (rows & _ & Hs).
    apply bind_Ok in Hs as (dll' & _ & Hs).
    assert (dld = gd_DLandmarks res0) by congruence. subst dld.
    destruct (getGreedyPermDM_lengths P n_landmarks verbose res0 Hres0)
      as (_ & _ & HlenDL).
    assert (HM : (1 <= n_landmarks)%nat).
    { destruct n_landmarks as [|n]; [|lia].
      apply length_zero_iff_nil in HlenDL.
      now destruct (coverage_nonempty _ _ Hcov). }
    pose proof (coverage_of_sampled_landmarks N n_landmarks verbose P res0
                  HP HM Hsep Hres0) as H0.
    congruence. }
  subst cov. exists idx, bd.
  split; [exact Hbd|]. split; [exact Hc|]. split; [exact Hmax|].
  split; [exact Hfirst|]. split; [exact Hr|].
  intros proj_dim.
  exact (Root_ProjCoords_steps _ _ _ _ _ _ _ _ _ _ _ _ Hs Hbr).
Qed.

Lemma Root_ProjCoords_radius_of_most_persistent_class_witness :
  exists idx bd,
    [(8, 12)] !! idx = Some bd /\
    [[(2%nat, 0%nat, 1%nat)]] !! idx = Some [(2%nat, 0%nat, 1%nat)] /\
    (forall k bd', [(8, 12)] !! k = Some bd' ->
       snd bd' - fst bd' <= snd bd - fst bd) /\
    (forall k bd', (k < idx)%nat -> [(8, 12)] !! k = Some bd' ->
       snd bd' - fst bd' < snd bd - fst bd) /\
    Fin 10 = Fin ((1 - 1 / 2) * Rmax (fst bd) 0 + 1 / 2 * snd bd) /\
    forall proj_dim,
      Root.ProjCoords exact_ops example_externals five_points 4 true
        (1 / 2) proj_dim false
      = (cm <- build_class_map 5 4 five_points_landmarks (Fin 10)
                 [(2%nat, 0%nat, 1%nat)] ;;
         res <- Root.PPCA example_externals cm proj_dim false ;;
         Ok {| Root.r_birth := Fin 10; Root.class_map := cm;
               Root.ppca := res |}).
Proof.
  exact (Root_ProjCoords_radius_of_most_persistent_class exact_ops
           example_externals 5 five_points 4 false (1 / 2) _ _ _ _
           five_points_shape five_points_separated five_points_Root_sampled
           five_points_birth_radius).
Defined.

(** ** Tabulated vectors and matrices *)

Lemma zip_with_map_same {A B C D : Type} (h : B -> C -> D) (f : A -> B)
  (g : A -> C) (l : list A) :
  zip_with h (map f l) (map g l) = map (fun x => h (f x) (g x)) l.
Proof. induction l as [|x l IH]; simpl; [reflexivity | now rewrite IH]. Qed.

Lemma map_ext_seq {A : Type} (f g : nat -> A) (d : nat) :
  (forall i, (i < d)%nat -> f i = g i) -> map f (seq 0 d) = map g (seq 0 d).
Proof.
  intros H. apply map_ext_in. intros i Hi. apply in_seq in Hi. apply H. lia.
Qed.

Lemma tab_ext (d : nat) (f g : nat -> R) :
  (forall i, (i < d)%nat -> f i = g i) -> tab d f = tab d g.
Proof. intros H. apply map_ext_seq. intros i Hi. now rewrite H. Qed.

Lemma tab2_ext (d : nat) (F G : nat -> nat -> R) :
  (forall i k, (i < d)%nat -> (k < d)%nat -> F i k = G i k) ->
  tab2 d F = tab2 d G.
Proof.
  intros H. apply map_ext_seq. intros i Hi. apply tab_ext. intros k Hk.
  now apply H.
Qed.

Lemma tab_length (d : nat) (f : nat -> R) : length (tab d f) = d.
Proof. unfold tab. now rewrite length_map, length_seq. Qed.

Lemma tab_lookup (d : nat) (f : nat -> R) (i : nat) :
  (i < d)%nat -> tab d f !! i = Some (Fin (f i)).
Proof. intros Hi. unfold tab. now rewrite lookup_map, lookup_seq_lt. Qed.

Lemma tab_real (d : nat) (f : nat -> R) :
  tab d f = map Fin (map f (seq 0 d)).
Proof. unfold tab. now rewrite map_map. Qed.

Lemma tab2_real (d : nat) (F : nat -> nat -> R) :
  tab2 d F = map (map Fin) (map (fun i => map (F i) (seq 0 d)) (seq 0 d)).
Proof.
  unfold tab2. rewrite map_map. apply map_ext. intros i. apply tab_real.
Qed.

Lemma tab_nth (d : nat) (l : list R) :
  length l = d -> map Fin l = tab d (fun i => nth i l 0).
Proof.
  intros Hl. apply list_eq. intros i. unfold tab. rewrite !lookup_map.
  destruct (decide (i < d)%nat) as [Hi|Hi].
  - rewrite lookup_seq_lt by exact Hi.
    destruct (lookup_lt_is_Some_2 l i) as [x Hx]; [lia|].
    cbn [fmap option_fmap option_map Nat.add].
    rewrite nth_lookup, Hx. reflexivity.
  - rewrite lookup_ge_None_2 by lia.
    rewrite lookup_seq_ge by lia. reflexivity.
Qed.

Lemma tab2_shape (d : nat) (F : nat -> nat -> R) : shape d d (tab2 d F).
Proof.
  split; [unfold tab2; now rewrite length_map, length_seq|].
  apply Forall_map, Forall_forall. intros i _. apply tab_length.
Qed.

Lemma tab2_entry (d : nat) (F : nat -> nat -> R) (i k : nat) :
  (i < d)%nat -> (k < d)%nat -> entry (tab2 d F) i k = Some (Fin (F i k)).
Proof.
  intros Hi Hk. unfold entry, tab2.
  rewrite lookup_map, lookup_seq_lt by exact Hi. simpl.
  now apply tab_lookup.
Qed.

Lemma tab_sum (d : nat) (f : nat -> R) : fsum (tab d f) = Fin (Rsum d f).
Proof. rewrite tab_real. apply fsum_Fin. Qed.

Lemma tab_squares (d : nat) (f : nat -> R) :
  map (fun x => fmul x x) (tab d f) = tab d (fun i => f i * f i).
Proof. unfold tab. now rewrite map_map. Qed.

Lemma Rsum_nonneg (d : nat) (f : nat -> R) :
  (forall i, 0 <= f i) -> 0 <= Rsum d f.
Proof.
  intros H. unfold Rsum. apply sum_list_nonneg.
  apply Forall_map, Forall_forall. intros i _. apply H.
Qed.

Lemma Rsum_squares_nonneg (d : nat) (f : nat -> R) :
  0 <= Rsum d (fun i => f i * f i).
Proof. apply Rsum_nonneg. intros i. apply Rle_0_sqr. Qed.

Lemma fnorm_tab (d : nat) (f : nat -> R) :
  fnorm (tab d f) = Fin (sqrt (Rsum d (fun i => f i * f i))).
Proof.
  unfold fnorm. rewrite tab_squares, tab_sum. unfold fsqrt.
  now rewrite (proj2 (Rltb_false _ 0) (Rsum_squares_nonneg d f)).
Qed.

Lemma normalise_tab (d : nat) (f : nat -> R) :
  0 < Rsum d (fun i => f i * f i) ->
  normalise (tab d f)
  = tab d (fun i => f i / sqrt (Rsum d (fun i => f i * f i))).
Proof.
  intros Hpos. unfold normalise. rewrite fnorm_tab. unfold tab.
  rewrite map_map. apply map_ext. intros i.
  apply fdiv_Fin. pose proof (sqrt_lt_R0 _ Hpos). lra.
Qed.

Lemma fdot_tab (d : nat) (f g : nat -> R) :
  fdot (tab d f) (tab d g) = Fin (Rsum d (fun i => f i * g i)).
Proof.
  unfold fdot, tab. rewrite zip_with_map_same.
  change (fsum (tab d (fun i => f i * g i)) = Fin (Rsum d (fun i => f i * g i))).
  apply tab_sum.
Qed.

Lemma scale_tab (s : R) (d : nat) (f : nat -> R) :
  map (fmul (Fin s)) (tab d f) = tab d (fun i => s * f i).
Proof. unfold tab. now rewrite map_map. Qed.

Lemma sub_tab (d : nat) (f g : nat -> R) :
  zip_with fsub (tab d f) (tab d g) = tab d (fun i => f i - g i).
Proof. unfold tab. now rewrite zip_with_map_same. Qed.

Lemma outer_tab (d : nat) (f g : nat -> R) :
  outer (tab d f) (tab d g) = tab2 d (fun i k => f i * g k).
Proof.
  unfold outer, matmul, tab2. cbn [ncols]. rewrite tab_length.
  pose proof (tab_lookup d g) as Hg. set (v := tab d g) in *.
  unfold tab. rewrite !map_map.
  apply map_ext. intros i. apply map_ext_seq. intros k Hk.
  rewrite (col_cons k v [] (Fin (g k)) (Hg k Hk)).
  cbn. f_equal. lra.
Qed.

Lemma mscale_tab2 (s : R) (d : nat) (F : nat -> nat -> R) :
  mscale (Fin s) (tab2 d F) = tab2 d (fun i k => s * F i k).
Proof.
  unfold mscale, tab2. rewrite map_map. apply map_ext. intros i.
  apply scale_tab.
Qed.

Lemma msub_tab2 (d : nat) (F G : nat -> nat -> R) :
  msub (tab2 d F) (tab2 d G) = tab2 d (fun i k => F i k - G i k).
Proof.
  unfold msub, tab2. rewrite zip_with_map_same. apply map_ext. intros i.
  apply sub_tab.
Qed.

Lemma madd_tab2 (d : nat) (F G : nat -> nat -> R) :
  madd (tab2 d F) (tab2 d G) = tab2 d (fun i k => F i k + G i k).
Proof.
  unfold madd, tab2. rewrite zip_with_map_same. apply map_ext. intros i.
  unfold tab. now rewrite zip_with_map_same.
Qed.

Lemma identity_tab2 (d : nat) : identity_matrix d = tab2 d delta.
Proof.
  unfold identity_matrix, tab2, tab, delta.
  apply map_ext. intros i. apply map_ext. intros k.
  now destruct (i =? k)%nat.
Qed.

Lemma north_pole_tab (d' : nat) :
  set_from_end (replicate (S d') (Fin 0)) 1 (Fin 1)
  = Ok (tab (S d') (fun i => delta i d')).
Proof.
  rewrite set_from_end_Ok by (rewrite length_replicate; lia).
  f_equal. rewrite length_replicate.
  replace (S d' - 1)%nat with d' by lia.
  apply list_eq. intros i.
  destruct (decide (i < S d')%nat) as [Hi|Hi].
  - rewrite tab_lookup by exact Hi. unfold delta.
    destruct (decide (i = d')) as [->|Hne].
    + rewrite list_lookup_insert_eq by (rewrite length_replicate; lia).
      now rewrite Nat.eqb_refl.
    + rewrite list_lookup_insert_ne by congruence.
      rewrite lookup_replicate_2 by exact Hi.
      now rewrite (proj2 (Nat.eqb_neq i d') Hne).
  - rewrite !lookup_ge_None_2; [reflexivity | |].
    + rewrite tab_length. lia.
    + rewrite length_insert, length_replicate. lia.
Qed.

(** ** Sums against Kronecker's delta *)

Lemma delta_sym (i k : nat) : delta i k = delta k i.
Proof. unfold delta. now rewrite Nat.eqb_sym. Qed.

Lemma delta_decide (i k : nat) :
  delta i k = if decide (i = k) then 1 else 0.
Proof.
  unfold delta. destruct (decide (i = k)) as [->|Hne].
  - now rewrite Nat.eqb_refl.
  - now rewrite (proj2 (Nat.eqb_neq i k) Hne).
Qed.

Lemma Rsum_delta_l (d i : nat) (f : nat -> R) :
  (i < d)%nat -> Rsum d (fun k => delta i k * f k) = f i.
Proof.
  intros Hi. rewrite <- (Rsum_delta d i f Hi).
  apply Rsum_ext. intros k _. now rewrite delta_decide.
Qed.

Lemma Rsum_delta_r (d i : nat) (f : nat -> R) :
  (i < d)%nat -> Rsum d (fun k => delta k i * f k) = f i.
Proof.
  intros Hi. rewrite <- (Rsum_delta_l d i f Hi).
  apply Rsum_ext. intros k _. now rewrite delta_sym.
Qed.

Lemma Rsum_delta_delta (d i j : nat) :
  (i < d)%nat -> Rsum d (fun k => delta k i * delta k j) = delta i j.
Proof. intros Hi. exact (Rsum_delta_r d i (fun k => delta k j) Hi). Qed.

Lemma Rsum_delta_squares (d i : nat) :
  (i < d)%nat -> Rsum d (fun k => delta k i * delta k i) = 1.
Proof.
  intros Hi. rewrite Rsum_delta_delta by exact Hi.
  unfold delta. now rewrite Nat.eqb_refl.
Qed.

(** The sum of a product of two combinations of three vectors. *)
Lemma Rsum_product3 (d : nat) (u v w u' v' w' : nat -> R) :
  Rsum d (fun k => (u k + v k + w k) * (u' k + v' k + w' k))
  = Rsum d (fun k => u k * u' k) + Rsum d (fun k => u k * v' k)
    + Rsum d (fun k => u k * w' k)
    + Rsum d (fun k => v k * u' k) + Rsum d (fun k => v k * v' k)
    + Rsum d (fun k => v k * w' k)
    + Rsum d (fun k => w k * u' k) + Rsum d (fun k => w k * v' k)
    + Rsum d (fun k => w k * w' k).
Proof.
  induction d as [|d IH]; [rewrite !Rsum_0; lra|].
  rewrite !Rsum_S, IH. ring.
Qed.

Lemma Rsum_scal_l (d : nat) (c : R) (f g : nat -> R) :
  Rsum d (fun k => f k * c * g k) = c * Rsum d (fun k => f k * g k).
Proof.
  induction d as [|d IH]; [rewrite !Rsum_0; lra|].
  rewrite !Rsum_S, IH. ring.
Qed.

Lemma Rsum_scal_r (d : nat) (c : R) (f g : nat -> R) :
  Rsum d (fun k => f k * (g k * c)) = c * Rsum d (fun k => f k * g k).
Proof.
  induction d as [|d IH]; [rewrite !Rsum_0; lra|].
  rewrite !Rsum_S, IH. ring.
Qed.

Lemma Rsum_scal_lr (d : nat) (c c' : R) (f g : nat -> R) :
  Rsum d (fun k => f k * c * (g k * c'))
  = c * c' * Rsum d (fun k => f k * g k).
Proof.
  induction d as [|d IH]; [rewrite !Rsum_0; lra|].
  rewrite !Rsum_S, IH. ring.
Qed.

Lemma Rsum_delta_l' (d i : nat) (f : nat -> R) :
  (i < d)%nat -> Rsum d (fun k => f k * delta i k) = f i.
Proof.
  intros Hi. rewrite <- (Rsum_delta_l d i f Hi).
  apply Rsum_ext. intros k _. apply Rmult_comm.
Qed.

Lemma Rsum_delta_r' (d i : nat) (f : nat -> R) :
  (i < d)%nat -> Rsum d (fun k => f k * delta k i) = f i.
Proof.
  intros Hi. rewrite <- (Rsum_delta_r d i f Hi).
  apply Rsum_ext. intros k _. apply Rmult_comm.
Qed.

Lemma Rsum_times_zero (d : nat) (f : nat -> R) :
  Rsum d (fun k => f k * 0) = 0.
Proof.
  rewrite (Rsum_ext d _ (fun _ => 0)); [apply Rsum_zero|].
  intros k _. lra.
Qed.

Lemma Rsum_comm (d : nat) (f g : nat -> R) :
  Rsum d (fun k => f k * g k) = Rsum d (fun k => g k * f k).
Proof. apply Rsum_ext. intros k _. apply Rmult_comm. Qed.

(** ** The rotation in the plane of two orthonormal vectors *)

Lemma rot_entry_columns (d : nat) (b c : nat -> R) (lam beta : R) :
  Rsum d (fun k => b k * b k) = 1 -> Rsum d (fun k => c k * c k) = 1 ->
  Rsum d (fun k => b k * c k) = 0 -> lam * lam + beta * beta = 1 ->
  forall i j, (i < d)%nat -> (j < d)%nat ->
    Rsum d (fun k => rot_entry b c lam beta k i * rot_entry b c lam beta k j)
    = delta i j.
Proof.
  intros Hbb Hcc Hbc Hlb i j Hi Hj.
  pose proof (Rsum_comm d b c) as Hcb. rewrite Hbc in Hcb.
  set (P := fun i => - (1 - lam) * c i - beta * b i).
  set (Q := fun i => - (1 - lam) * b i + beta * c i).
  rewrite (Rsum_ext d _
             (fun k => (delta k i + c k * P i + b k * Q i)
                       * (delta k j + c k * P j + b k * Q j))).
  2:{ intros k _. unfold rot_entry, P, Q. ring. }
  rewrite Rsum_product3.
  rewrite (Rsum_delta_delta d i j Hi).
  rewrite (Rsum_delta_r d i (fun k => c k * P j) Hi).
  rewrite (Rsum_delta_r d i (fun k => b k * Q j) Hi).
  rewrite (Rsum_delta_r' d j (fun k => c k * P i) Hj).
  rewrite (Rsum_delta_r' d j (fun k => b k * Q i) Hj).
  rewrite !Rsum_scal_lr, Hbb, Hcc, Hbc, <- Hcb.
  replace (delta i j + c i * P j + b i * Q j + c j * P i + P i * P j * 1
           + P i * Q j * 0 + b j * Q i + Q i * P j * 0 + Q i * Q j * 1)
    with (delta i j
          + (lam * lam + beta * beta - 1) * (c i * c j + b i * b j))
    by (unfold P, Q; ring).
  rewrite Hlb. ring.
Qed.

Lemma rot_entry_transpose (b c : nat -> R) (lam beta : R) (i k : nat) :
  rot_entry b c lam beta i k = rot_entry b c lam (- beta) k i.
Proof. unfold rot_entry. rewrite (delta_sym i k). ring. Qed.

Lemma rot_entry_rows (d : nat) (b c : nat -> R) (lam beta : R) :
  Rsum d (fun k => b k * b k) = 1 -> Rsum d (fun k => c k * c k) = 1 ->
  Rsum d (fun k => b k * c k) = 0 -> lam * lam + beta * beta = 1 ->
  forall i j, (i < d)%nat -> (j < d)%nat ->
    Rsum d (fun k => rot_entry b c lam beta i k * rot_entry b c lam beta j k)
    = delta i j.
Proof.
  intros Hbb Hcc Hbc Hlb i j Hi Hj.
  assert (Hlb' : lam * lam + - beta * - beta = 1) by lra.
  rewrite <- (rot_entry_columns d b c lam (- beta) Hbb Hcc Hbc Hlb' i j Hi Hj).
  apply Rsum_ext. intros k _.
  now rewrite (rot_entry_transpose b c lam beta i k),
              (rot_entry_transpose b c lam beta j k).
Qed.

Lemma rot_entry_apply (d : nat) (b c : nat -> R) (lam beta : R) :
  Rsum d (fun k => b k * b k) = 1 -> Rsum d (fun k => c k * c k) = 1 ->
  Rsum d (fun k => b k * c k) = 0 -> lam * lam + beta * beta = 1 ->
  forall i, (i < d)%nat ->
    Rsum d (fun k => rot_entry b c lam beta i k * (lam * b k + beta * c k))
    = b i.
Proof.
  intros Hbb Hcc Hbc Hlb i Hi.
  pose proof (Rsum_comm d b c) as Hcb. rewrite Hbc in Hcb.
  set (P := - (1 - lam) * c i + beta * b i).
  set (Q := - (1 - lam) * b i - beta * c i).
  rewrite (Rsum_ext d _
             (fun k => (delta i k + c k * P + b k * Q)
                       * (0 + c k * beta + b k * lam))).
  2:{ intros k _. unfold rot_entry, P, Q. ring. }
  rewrite Rsum_product3.
  rewrite (Rsum_times_zero d (fun k => delta i k)).
  rewrite (Rsum_delta_l d i (fun k => c k * beta) Hi).
  rewrite (Rsum_delta_l d i (fun k => b k * lam) Hi).
  rewrite (Rsum_times_zero d (fun k => c k * P)).
  rewrite (Rsum_times_zero d (fun k => b k * Q)).
  rewrite !Rsum_scal_lr, Hbb, Hcc, Hbc, <- Hcb.
  replace (0 + c i * beta + b i * lam + 0 + P * beta * 1 + P * lam * 0 + 0
           + Q * beta * 0 + Q * lam * 1)
    with (b i + (lam * lam + beta * beta - 1) * b i)
    by (unfold P, Q; ring).
  rewrite Hlb. ring.
Qed.

(** ** [rotmat] on a finite non-zero vector *)

Lemma Rsum_lin3 (d : nat) (x y z : R) (f g h : nat -> R) :
  Rsum d (fun k => x * f k + y * g k + z * h k)
  = x * Rsum d f + y * Rsum d g + z * Rsum d h.
Proof.
  induction d as [|d IH]; [rewrite !Rsum_0; lra|].
  rewrite !Rsum_S, IH. ring.
Qed.

Lemma Rsum_div (d : nat) (s : R) (f : nat -> R) :
  Rsum d (fun k => f k / s) = Rsum d f / s.
Proof.
  induction d as [|d IH]; [rewrite !Rsum_0; unfold Rdiv; lra|].
  rewrite !Rsum_S, IH. unfold Rdiv. ring.
Qed.

Lemma Rsum_unit (d : nat) (a : nat -> R) :
  0 < Rsum d (fun i => a i * a i) ->
  Rsum d (fun i => a i / sqrt (Rsum d (fun i => a i * a i))
                   * (a i / sqrt (Rsum d (fun i => a i * a i)))) = 1.
Proof.
  intros Hpos. set (s2 := Rsum d (fun i => a i * a i)) in *.
  pose proof (sqrt_lt_R0 _ Hpos) as Hs.
  pose proof (sqrt_sqrt s2 ltac:(lra)) as Hss.
  set (r := sqrt s2) in *.
  rewrite (Rsum_ext d _ (fun i => a i * a i / s2)).
  - rewrite Rsum_div. fold s2. field. lra.
  - intros i _. rewrite <- Hss. field. lra.
Qed.

Lemma normalise_north_pole (d' : nat) :
  normalise (tab (S d') (fun i => delta i d'))
  = tab (S d') (fun i => delta i d').
Proof.
  assert (H1 : Rsum (S d') (fun i => delta i d' * delta i d') = 1)
    by (apply Rsum_delta_squares; lia).
  rewrite normalise_tab by (rewrite H1; lra).
  apply tab_ext. intros i _. rewrite H1, sqrt_1. lra.
Qed.

(** What [rotmat] computes on the vector [(a 0, ..., a d')] when it is not
    the zero vector. *)
Lemma rotmat_tab (d' : nat) (a : nat -> R) :
  0 < Rsum (S d') (fun i => a i * a i) ->
  exists (ah c : nat -> R) (lam n : R),
    (forall i, ah i = a i / sqrt (Rsum (S d') (fun i => a i * a i))) /\
    normalise (tab (S d') a) = tab (S d') ah /\
    Rsum (S d') (fun i => ah i * ah i) = 1 /\
    lam = ah d' /\
    (forall i, ah i = lam * delta i d' + c i) /\
    n = sqrt (1 - lam * lam) /\ n * n = 1 - lam * lam /\
    Rsum (S d') (fun i => c i * c i) = n * n /\
    Rsum (S d') (fun i => delta i d' * c i) = 0 /\
    rotmat (tab (S d') a)
    = Ok (if Rltb n (1 / 10 ^ 15) then tab2 (S d') delta
          else tab2 (S d') (rot_entry (fun i => delta i d')
                                      (fun i => c i / n) lam n)).
Proof.
  intros Hpos.
  set (d := S d') in *.
  set (s := sqrt (Rsum d (fun i => a i * a i))).
  set (ah := fun i => a i / s).
  set (e := fun i => delta i d').
  set (lam := ah d').
  set (c := fun i => ah i - lam * e i).
  assert (Hee : Rsum d (fun i => e i * e i) = 1)
    by (apply Rsum_delta_squares; unfold d; lia).
  assert (Hah : Rsum d (fun i => ah i * ah i) = 1)
    by (apply Rsum_unit; exact Hpos).
  assert (Hea : Rsum d (fun i => e i * ah i) = lam)
    by (apply (Rsum_delta_r d d' ah); unfold d; lia).
  assert (Hcc : Rsum d (fun i => c i * c i) = 1 - lam * lam).
  { rewrite (Rsum_ext d _
               (fun i => 1 * (ah i * ah i) + (-2 * lam) * (e i * ah i)
                         + (lam * lam) * (e i * e i))).
    2:{ intros i _. unfold c. ring. }
    rewrite Rsum_lin3, Hah, Hea, Hee. ring. }
  assert (Hec : Rsum d (fun i => e i * c i) = 0).
  { rewrite (Rsum_ext d _
               (fun i => 1 * (e i * ah i) + (- lam) * (e i * e i)
                         + 0 * (e i * e i))).
    2:{ intros i _. unfold c. ring. }
    rewrite Rsum_lin3, Hea, Hee. ring. }
  assert (Hnn : 0 <= 1 - lam * lam).
  { rewrite <- Hcc. apply Rsum_squares_nonneg. }
  set (n := sqrt (1 - lam * lam)).
  assert (Hn2 : n * n = 1 - lam * lam) by (apply sqrt_sqrt; exact Hnn).
  exists ah, c, lam, n.
  assert (Hnorm : normalise (tab d a) = tab d ah).
  { rewrite normalise_tab by exact Hpos. reflexivity. }
  split; [reflexivity|]. split; [exact Hnorm|]. split; [exact Hah|].
  split; [reflexivity|].
  split; [intros i; unfold c, e; ring|].
  split; [reflexivity|]. split; [exact Hn2|].
  split; [rewrite Hcc; lra|]. split; [exact Hec|].
  unfold rotmat. rewrite Hnorm, tab_length.
  unfold d at 1. rewrite north_pole_tab. cbn [bind].
  rewrite normalise_north_pole. fold d. fold e.
  rewrite fdot_tab, Hea, scale_tab, sub_tab.
  change (fun i => ah i - lam * e i) with c.
  rewrite fnorm_tab, Hcc. fold n.
  change (fltb (Fin n) (Fin (1 / 10 ^ 15))) with (Rltb n (1 / 10 ^ 15)).
  destruct (Rltb n (1 / 10 ^ 15)) eqn:Hbranch.
  { now rewrite identity_tab2. }
  apply Rltb_false in Hbranch.
  assert (Hnpos : 0 < n).
  { assert (0 < 1 / 10 ^ 15) by (apply Rdiv_lt_0_compat; [lra|]; apply pow_lt; lra).
    lra. }
  f_equal.
  rewrite normalise_tab by (rewrite Hcc, <- Hn2; nra).
  rewrite Hcc. fold n.
  assert (Hbeta : fsqrt (fsub (Fin 1) (fmul (fabs (Fin lam)) (fabs (Fin lam))))
                  = Fin n).
  { cbn [fabs fmul fsub fadd fneg fsqrt]. rewrite Rabs_square.
    change (1 + - (lam * lam)) with (1 - lam * lam).
    now rewrite (proj2 (Rltb_false _ 0) Hnn). }
  rewrite Hbeta.
  change (fsub (Fin 1) (Fin lam)) with (Fin (1 - lam)).
  rewrite !outer_tab, identity_tab2.
  repeat first [rewrite mscale_tab2 | rewrite msub_tab2 | rewrite madd_tab2].
  apply tab2_ext. intros i k _ _. unfold rot_entry. fold (e i) (e k). ring.
Qed.

(** The two outcomes of [rotmat] on a non-zero vector: the identity when
    the normalised vector is within [1e-15] of the axis through the poles,
    a rotation in the plane of the north pole and the vector otherwise. *)
Lemma rotmat_tab_cases (d' : nat) (a : nat -> R) :
  0 < Rsum (S d') (fun i => a i * a i) ->
  exists (ah : nat -> R),
    (forall i, ah i = a i / sqrt (Rsum (S d') (fun i => a i * a i))) /\
    normalise (tab (S d') a) = tab (S d') ah /\
    Rsum (S d') (fun i => ah i * ah i) = 1 /\
    ((Rltb (sqrt (1 - ah d' * ah d')) (1 / 10 ^ 15) = true /\
      rotmat (tab (S d') a) = Ok (tab2 (S d') delta))
     \/
     (Rltb (sqrt (1 - ah d' * ah d')) (1 / 10 ^ 15) = false /\
      exists (c : nat -> R) (beta : R),
        Rsum (S d') (fun i => c i * c i) = 1 /\
        Rsum (S d') (fun i => delta i d' * c i) = 0 /\
        ah d' * ah d' + beta * beta = 1 /\
        (forall i, ah i = ah d' * delta i d' + beta * c i) /\
        rotmat (tab (S d') a)
        = Ok (tab2 (S d') (rot_entry (fun i => delta i d') c (ah d') beta)))).
Proof.
  intros Hpos.
  destruct (rotmat_tab d' a Hpos)
    as (ah & c & lam & n & Hah & Hnorm & Hunit & Hlam & Hdec & Hn & Hnn & Hcc
        & Hec & Hrot).
  exists ah. split; [exact Hah|]. split; [exact Hnorm|]. split; [exact Hunit|].
  subst lam. rewrite <- Hn.
  destruct (Rltb n (1 / 10 ^ 15)) eqn:Hbranch; [left; now split|].
  right. split; [reflexivity|].
  apply Rltb_false in Hbranch.
  assert (Hnpos : 0 < n).
  { assert (0 < 1 / 10 ^ 15)
      by (apply Rdiv_lt_0_compat; [lra|]; apply pow_lt; lra).
    lra. }
  exists (fun i => c i / n), n.
  split.
  { rewrite (Rsum_ext _ _ (fun i => 1 * (c i * c i) / (n * n))).
    - rewrite Rsum_div, Rsum_scal, Hcc. field. lra.
    - intros i _. field. lra. }
  split.
  { rewrite (Rsum_ext _ _ (fun i => delta i d' * c i / n)).
    - rewrite Rsum_div, Hec. field. lra.
    - intros i _. field. lra. }
  split; [lra|].
  split; [|exact Hrot].
  intros i. rewrite (Hdec i). field. lra.
Qed.

(** Tabulated matrices with orthonormal rows or columns. *)
Lemma tab2_lookup (d : nat) (F : nat -> nat -> R) (i : nat)
  (row : list float64) :
  tab2 d F !! i = Some row -> (i < d)%nat /\ row = tab d (F i).
Proof.
  intros H.
  assert (Hi : (i < d)%nat).
  { apply lookup_lt_Some in H. unfold tab2 in H.
    now rewrite length_map, length_seq in H. }
  split; [exact Hi|]. unfold tab2 in H.
  rewrite lookup_map, lookup_seq_lt in H by exact Hi.
  simpl in H. congruence.
Qed.

Lemma tab2_orthogonal (d : nat) (F : nat -> nat -> R) :
  (forall i j, (i < d)%nat -> (j < d)%nat ->
     Rsum d (fun k => F i k * F j k) = delta i j) ->
  orthogonal d (tab2 d F).
Proof.
  intros H. split; [apply tab2_shape|].
  intros i j ri rj Hi Hj.
  apply tab2_lookup in Hi as [Hi ->]. apply tab2_lookup in Hj as [Hj ->].
  now rewrite fdot_tab, (H i j Hi Hj), delta_decide.
Qed.

Lemma tab2_col (d : nat) (F : nat -> nat -> R) (j : nat) :
  (j < d)%nat -> col j (tab2 d F) = tab d (fun k => F k j).
Proof.
  intros Hj. unfold tab2, tab.
  exact (col_tabulate (fun k i => Fin (F k i)) (seq 0 d) d j Hj).
Qed.

Lemma delta_rows (d i j : nat) :
  (i < d)%nat -> (j < d)%nat ->
  Rsum d (fun k => delta i k * delta j k) = delta i j.
Proof.
  intros Hi Hj. rewrite (Rsum_delta_l d i (fun k => delta j k) Hi).
  apply delta_sym.
Qed.

(** Both outcomes of [rotmat] are tabulated matrices with orthonormal rows
    and orthonormal columns. *)
Lemma rotmat_tab_orthonormal (d' : nat) (a : nat -> R) :
  0 < Rsum (S d') (fun i => a i * a i) ->
  exists F : nat -> nat -> R,
    rotmat (tab (S d') a) = Ok (tab2 (S d') F) /\
    (forall i j, (i < S d')%nat -> (j < S d')%nat ->
       Rsum (S d') (fun k => F i k * F j k) = delta i j) /\
    (forall i j, (i < S d')%nat -> (j < S d')%nat ->
       Rsum (S d') (fun k => F k i * F k j) = delta i j).
Proof.
  intros Hpos.
  destruct (rotmat_tab_cases d' a Hpos)
    as (ah & _ & _ & _ & [[_ Hrot] | [_ (c & beta & Hcc & Hec & Hlb & _ & Hrot)]]).
  - exists delta. split; [exact Hrot|]. split.
    + intros i j Hi Hj. now apply delta_rows.
    + intros i j Hi Hj. now apply Rsum_delta_delta.
  - assert (Hee : Rsum (S d') (fun i => delta i d' * delta i d') = 1)
      by (apply Rsum_delta_squares; lia).
    exists (rot_entry (fun i => delta i d') c (ah d') beta).
    split; [exact Hrot|]. split.
    + intros i j Hi Hj.
      exact (rot_entry_rows (S d') (fun i => delta i d') c (ah d') beta
               Hee Hcc Hec Hlb i j Hi Hj).
    + intros i j Hi Hj.
      exact (rot_entry_columns (S d') (fun i => delta i d') c (ah d') beta
               Hee Hcc Hec Hlb i j Hi Hj).
Qed.

Lemma dot_self_Rsum (a : list R) (d : nat) :
  length a = d -> dot a a = Rsum d (fun i => nth i a 0 * nth i a 0).
Proof. intros <-. now apply dot_Rsum. Qed.

(** X16. On every non-zero vector of finite numbers [rotmat] returns a
    square matrix of the vector's size which is orthogonal: its rows are
    orthonormal, and so are its columns. *)
Theorem rotmat_returns_an_orthogonal_matrix (a : list R) (d' : nat) :
  length a = S d' -> 0 < dot a a ->
  exists rot,
    rotmat (map Fin a) = Ok rot /\
    orthogonal (S d') rot /\
    forall i j, (i < S d')%nat -> (j < S d')%nat ->
      fdot (col i rot) (col j rot) = Fin (if decide (i = j) then 1 else 0).
Proof.
  intros Hlen Hpos.
  rewrite (dot_self_Rsum a (S d') Hlen) in Hpos.
  destruct (rotmat_tab_orthonormal d' (fun i => nth i a 0) Hpos)
    as (F & Hrot & Hrows & Hcols).
  exists (tab2 (S d') F).
  split; [now rewrite (tab_nth (S d') a Hlen)|].
  split; [now apply tab2_orthogonal|].
  intros i j Hi Hj.
  rewrite !tab2_col by assumption.
  now rewrite fdot_tab, (Hcols i j Hi Hj), delta_decide.
Qed.

Lemma rotmat_returns_an_orthogonal_matrix_witness :
  exists rot,
    rotmat (map Fin [3; 4]) = Ok rot /\
    orthogonal 2 rot /\
    forall i j, (i < 2)%nat -> (j < 2)%nat ->
      fdot (col i rot) (col j rot) = Fin (if decide (i = j) then 1 else 0).
Proof.
  apply (rotmat_returns_an_orthogonal_matrix [3; 4] 1); [reflexivity|].
  unfold dot. simpl. lra.
Defined.

(** X17. [rotmat] takes the normalised argument to the north pole
    [(0, ..., 0, 1)], unless the last component [lam] of the normalised
    argument has [sqrt (1 - lam^2) < 1e-15]: then the identity is
    returned. *)
Theorem rotmat_takes_its_argument_to_the_north_pole (a : list R) (d' : nat) :
  length a = S d' -> 0 < dot a a ->
  exists rot,
    rotmat (map Fin a) = Ok rot /\
    let lam := nth d' a 0 / sqrt (dot a a) in
    if Rltb (sqrt (1 - lam * lam)) (1 / 10 ^ 15)
    then rot = identity_matrix (S d')
    else forall i row, rot !! i = Some row ->
           fdot row (normalise (map Fin a))
           = Fin (if decide (i = d') then 1 else 0).
Proof.
  intros Hlen Hpos.
  rewrite (dot_self_Rsum a (S d') Hlen) in *.
  rewrite (tab_nth (S d') a Hlen).
  destruct (rotmat_tab_cases d' (fun i => nth i a 0) Hpos)
    as (ah & Hah & Hnorm & _
        & [[Hb Hrot] | [Hb (c & beta & Hcc & Hec & Hlb & Hdec & Hrot)]]).
  - exists (tab2 (S d') delta). split; [exact Hrot|].
    cbv zeta. rewrite <- (Hah d'), Hb. symmetry. apply identity_tab2.
  - exists (tab2 (S d') (rot_entry (fun i => delta i d') c (ah d') beta)).
    split; [exact Hrot|].
    cbv zeta. rewrite <- (Hah d'), Hb.
    intros i row Hrow. apply tab2_lookup in Hrow as [Hi ->].
    rewrite Hnorm, fdot_tab.
    assert (Hee : Rsum (S d') (fun i => delta i d' * delta i d') = 1)
      by (apply Rsum_delta_squares; lia).
    rewrite (Rsum_ext _ _
               (fun k => rot_entry (fun i => delta i d') c (ah d') beta i k
                         * (ah d' * delta k d' + beta * c k)))
      by (intros k _; now rewrite <- (Hdec k)).
    rewrite (rot_entry_apply (S d') (fun i => delta i d') c (ah d') beta
               Hee Hcc Hec Hlb i Hi).
    now rewrite delta_decide.
Qed.

Lemma rotmat_takes_its_argument_to_the_north_pole_witness :
  exists rot,
    rotmat (map Fin [3; 4]) = Ok rot /\
    let lam := nth 1 [3; 4] 0 / sqrt (dot [3; 4] [3; 4]) in
    if Rltb (sqrt (1 - lam * lam)) (1 / 10 ^ 15)
    then rot = identity_matrix 2
    else forall i row, rot !! i = Some row ->
           fdot row (normalise (map Fin [3; 4]))
           = Fin (if decide (i = 1%nat) then 1 else 0).
Proof.
  apply (rotmat_takes_its_argument_to_the_north_pole [3; 4] 1);
    [reflexivity|].
  unfold dot. simpl. lra.
Defined.

Lemma pole_tab (d' : nat) (t : R) :
  replicate d' (Fin 0) ++ [Fin t] = tab (S d') (fun i => t * delta i d').
Proof.
  unfold tab. rewrite seq_S, map_app. cbn [map Nat.add].
  f_equal.
  - apply list_eq. intros i.
    destruct (decide (i < d')%nat) as [Hi|Hi].
    + rewrite lookup_replicate_2 by exact Hi.
      rewrite lookup_map, lookup_seq_lt by exact Hi. simpl.
      unfold delta. destruct (Nat.eqb_spec i d') as [->|_]; [lia|].
      do 2 f_equal. ring.
    + rewrite !lookup_ge_None_2; [reflexivity| |].
      * rewrite length_map, length_seq. lia.
      * rewrite length_replicate. lia.
  - unfold delta. rewrite Nat.eqb_refl. do 2 f_equal. ring.
Qed.

(** X18. A non-zero multiple of the north pole is returned unrotated:
    [rotmat] answers the identity for [(0, ..., 0, t)], also when [t] is
    negative and the vector points to the south pole. *)
Theorem rotmat_leaves_the_polar_axis_in_place (d' : nat) (t : R) :
  t <> 0 ->
  rotmat (replicate d' (Fin 0) ++ [Fin t]) = Ok (identity_matrix (S d')).
Proof.
  intros Ht. rewrite pole_tab.
  assert (Hsq : Rsum (S d') (fun i => t * delta i d' * (t * delta i d'))
                = t * t).
  { rewrite (Rsum_ext _ _ (fun i => (t * t) * (delta i d' * delta i d')))
      by (intros; ring).
    rewrite Rsum_scal, Rsum_delta_squares by lia. ring. }
  assert (Hpos : 0 < Rsum (S d') (fun i => t * delta i d' * (t * delta i d'))).
  { rewrite Hsq. nra. }
  destruct (rotmat_tab_cases d' (fun i => t * delta i d') Hpos)
    as (ah & Hah & _ & _ & [[_ Hrot] | [Hb _]]).
  - now rewrite Hrot, identity_tab2.
  - exfalso.
    assert (Hone : ah d' * ah d' = 1).
    { rewrite (Hah d'), Hsq. unfold delta. rewrite Nat.eqb_refl.
      assert (Hs : sqrt (t * t) * sqrt (t * t) = t * t)
        by (apply sqrt_sqrt; nra).
      assert (Hs0 : sqrt (t * t) <> 0).
      { intros E. rewrite E in Hs. nra. }
      replace (t * 1 / sqrt (t * t) * (t * 1 / sqrt (t * t)))
        with (t * t / (sqrt (t * t) * sqrt (t * t))) by (field; exact Hs0).
      rewrite Hs. field. nra. }
    rewrite Hone in Hb.
    replace (1 - 1) with 0 in Hb by ring. rewrite sqrt_0 in Hb.
    apply Rltb_false in Hb.
    assert (0 < 1 / 10 ^ 15)
      by (apply Rdiv_lt_0_compat; [lra|]; apply pow_lt; lra).
    lra.
Qed.

Lemma rotmat_leaves_the_polar_axis_in_place_witness :
  rotmat (replicate 2 (Fin 0) ++ [Fin (-1)]) = Ok (identity_matrix 3).
Proof.
  apply (rotmat_leaves_the_polar_axis_in_place 2 (-1)). lra.
Defined.

(** ** Stereographic projection *)

Lemma grid_shape (n m : nat) (G : nat -> nat -> R) : shape n m (grid n m G).
Proof.
  split; [unfold grid; now rewrite length_map, length_seq|].
  apply Forall_map, Forall_forall. intros i _. simpl.
  now rewrite length_map, length_seq.
Qed.

Lemma grid_lookup (n m : nat) (G : nat -> nat -> R) (i : nat)
  (row : list float64) :
  grid n m G !! i = Some row ->
  (i < n)%nat /\ row = map Fin (map (G i) (seq 0 m)).
Proof.
  intros H.
  assert (Hi : (i < n)%nat).
  { apply lookup_lt_Some in H. unfold grid in H.
    now rewrite length_map, length_seq in H. }
  split; [exact Hi|]. unfold grid in H.
  rewrite lookup_map, lookup_seq_lt in H by exact Hi.
  simpl in H. rewrite map_map. congruence.
Qed.

Lemma grid_last (n' m : nat) (G : nat -> nat -> R) :
  last_elem (grid (S n') m G) = Ok (map (fun j => Fin (G n' j)) (seq 0 m)).
Proof.
  unfold grid. rewrite seq_S, map_app. cbn [map Nat.add].
  apply last_elem_Ok. eexists. reflexivity.
Qed.

Lemma grid_removelast (n' m : nat) (G : nat -> nat -> R) :
  removelast (grid (S n') m G) = grid n' m G.
Proof.
  unfold grid. rewrite seq_S, map_app. cbn [map]. apply removelast_last.
Qed.

Lemma grid_flip (n m : nat) (G : nat -> nat -> R) (z : nat -> R) :
  map (fun row =>
         zip_with (fun x (flip : bool) =>
                     if flip then fmul x (Fin (-1)) else x) row
                  (map (fun zi => fltb zi (Fin 0))
                       (map (fun j => Fin (z j)) (seq 0 m))))
      (grid n m G)
  = grid n m (fun i j => flipv (z j) (G i j)).
Proof.
  unfold grid. rewrite !map_map. apply map_ext. intros i.
  rewrite zip_with_map_same. apply map_ext. intros j. unfold flipv.
  change (fltb (Fin (z j)) (Fin 0)) with (Rltb (z j) 0).
  now destruct (Rltb (z j) 0).
Qed.

Lemma grid_div (n m : nat) (G : nat -> nat -> R) (w : nat -> R) :
  (forall j, 1 + w j <> 0) ->
  map (fun row =>
         zip_with fdiv row
                  (map (fun zi => fadd (Fin 1) zi)
                       (map (fun j => Fin (w j)) (seq 0 m))))
      (grid n m G)
  = grid n m (fun i j => G i j / (1 + w j)).
Proof.
  intros Hw. unfold grid. rewrite !map_map. apply map_ext. intros i.
  rewrite zip_with_map_same. apply map_ext. intros j.
  change (fadd (Fin 1) (Fin (w j))) with (Fin (1 + w j)).
  apply fdiv_Fin, Hw.
Qed.

Lemma grid_transpose (n m : nat) (G : nat -> nat -> R) :
  map (fun j => col j (grid n m G)) (seq 0 m) = grid m n (fun j i => G i j).
Proof.
  unfold grid. apply map_ext_seq. intros j Hj.
  exact (col_tabulate (fun i j => Fin (G i j)) (seq 0 n) m j Hj).
Qed.

Lemma dot_seq (n : nat) (f g : nat -> R) :
  dot (map f (seq 0 n)) (map g (seq 0 n)) = Rsum n (fun i => f i * g i).
Proof. unfold dot, Rsum. now rewrite zip_with_map_same. Qed.

Lemma map_nth_seq (l : list R) :
  map (fun k => nth k l 0) (seq 0 (length l)) = l.
Proof.
  induction l as [|a l IH]; [reflexivity|].
  cbn [length seq map nth]. f_equal.
  rewrite <- seq_shift, map_map. exact IH.
Qed.

Lemma matmul_tab2 (d N : nat) (F : nat -> nat -> R) (XR : list (list R)) :
  ncols XR = N ->
  matmul (tab2 d F) (map (map Fin) XR)
  = grid d N (fun i j => dot (map (F i) (seq 0 d)) (col j XR)).
Proof.
  intros HN. rewrite tab2_real, matmul_Fin, map_map, HN. reflexivity.
Qed.

Lemma flipv_self_nonneg (z : R) : 0 <= flipv z z.
Proof.
  unfold flipv. destruct (Rltb z 0) eqn:E.
  - apply Rltb_true in E. lra.
  - apply Rltb_false in E. exact E.
Qed.

Lemma flipv_square (z x : R) : flipv z x * flipv z x = x * x.
Proof. unfold flipv. destruct (Rltb z 0); ring. Qed.

(** What [getStereoProjCodim1] returns once the rotated points are known. *)
Lemma stereo_of_grid (ext : externals) (pX U : list (list float64))
  (u : list float64) (rot : list (list float64)) (n' m : nat)
  (G : nat -> nat -> R) :
  eigh ext (matmul (transpose pX) (transpose (transpose pX))) = Ok U ->
  mapR (fun r => index r 0%nat) U = Ok u ->
  rotmat u = Ok rot ->
  matmul rot (transpose pX) = grid (S n') m G ->
  getStereoProjCodim1 ext pX
  = Ok (grid m n' (fun j i => flipv (G n' j) (G i j)
                              / (1 + flipv (G n' j) (G n' j)))).
Proof.
  intros HU Hu Hrot HXX. unfold getStereoProjCodim1. cbv zeta.
  rewrite HU. cbn [bind]. rewrite Hu. cbn [bind]. rewrite Hrot. cbn [bind].
  rewrite HXX, grid_last. cbn [bind].
  rewrite grid_flip, grid_last. cbn [bind].
  rewrite grid_removelast.
  rewrite (grid_div n' m (fun i j => flipv (G n' j) (G i j))
             (fun j => flipv (G n' j) (G n' j))).
  2:{ intros j. pose proof (flipv_self_nonneg (G n' j)). lra. }
  now rewrite length_map, length_seq, grid_transpose.
Qed.

(** A point of the unit sphere, brought to the upper hemisphere and
    projected from the south pole, lands in the closed unit ball. *)
Lemma stereo_bound (n' : nat) (y : nat -> R) :
  Rsum (S n') (fun i => y i * y i) = 1 ->
  Rsum n' (fun i => flipv (y n') (y i) / (1 + flipv (y n') (y n'))
                    * (flipv (y n') (y i) / (1 + flipv (y n') (y n'))))
  <= 1.
Proof.
  intros H. rewrite Rsum_S in H.
  pose proof (flipv_self_nonneg (y n')) as Hw.
  pose proof (flipv_square (y n') (y n')) as Hww.
  set (w := flipv (y n') (y n')) in *.
  rewrite (Rsum_ext _ _ (fun i => 1 * (y i * y i) / ((1 + w) * (1 + w)))).
  2:{ intros i _. rewrite <- (flipv_square (y n') (y i)). field. lra. }
  rewrite Rsum_div, Rsum_scal.
  assert (Hpos : 0 < (1 + w) * (1 + w)) by nra.
  apply (Rmult_le_reg_r ((1 + w) * (1 + w))); [exact Hpos|].
  unfold Rdiv. rewrite Rmult_assoc, Rinv_l by lra. nra.
Qed.

(** X19. Given points on the unit sphere of dimension [d'] (the rows of
    [pX]) and a finite non-zero first eigenvector, [getStereoProjCodim1]
    returns one point of dimension [d'] for each input point, and every
    returned point lies in the closed unit ball: no division by zero
    occurs. *)
Theorem getStereoProjCodim1_lands_in_the_unit_ball (ext : externals)
  (pX : list (list float64)) (N d' : nat) (u : list R)
  (U : list (list float64)) :
  (1 <= N)%nat -> shape N (S d') pX ->
  Forall (fun row => fnorm row = Fin 1) pX ->
  eigh ext (matmul (transpose pX) (transpose (transpose pX))) = Ok U ->
  mapR (fun r => index r 0%nat) U = Ok (map Fin u) ->
  length u = S d' -> 0 < dot u u ->
  exists S,
    getStereoProjCodim1 ext pX = Ok S /\
    shape N d' S /\
    Forall (fun row => exists r, row = map Fin r /\ dot r r <= 1) S.
Proof.
  intros HN Hshape Hrows HU Hu Hlen Hpos.
  pose proof (transpose_shape N (S d') pX Hshape ltac:(lia)) as HX.
  pose proof (unit_rows_columns N (S d') pX Hshape ltac:(lia) Hrows) as Hunit.
  destruct (finite_matrix _ (unit_columns_finite (S d') N _ HX Hunit))
    as [XR HXR].
  rewrite HXR in HX, Hunit. apply shape_real in HX.
  rewrite (dot_self_Rsum u (S d') Hlen) in Hpos.
  destruct (rotmat_tab_orthonormal d' (fun i => nth i u 0) Hpos)
    as (F & Hrot & _ & Hcols).
  rewrite <- (tab_nth (S d') u Hlen) in Hrot.
  set (G := fun i j => dot (map (F i) (seq 0 (S d'))) (col j XR)).
  assert (HXX : matmul (tab2 (S d') F) (transpose pX) = grid (S d') N G).
  { rewrite HXR. apply matmul_tab2.
    apply (ncols_shape (S d') N XR HX). lia. }
  eexists. split; [exact (stereo_of_grid ext pX U _ _ d' N G HU Hu Hrot HXX)|].
  split; [apply grid_shape|].
  apply Forall_forall. intros row Hrow.
  apply list_elem_of_lookup in Hrow as [j Hj].
  apply grid_lookup in Hj as [Hj ->].
  eexists. split; [reflexivity|].
  rewrite dot_seq. apply (stereo_bound d' (fun i => G i j)).
  pose proof (col_shape (S d') N j XR HX Hj) as Hcl.
  pose proof (unit_column_real N j XR Hunit Hj) as Hone.
  rewrite (dot_self_Rsum _ (S d') Hcl) in Hone.
  rewrite <- Hone.
  rewrite <- (Rsum_isometry (S d') (fun k i => F i k)
                (fun k => nth k (col j XR) 0)).
  - apply Rsum_ext. intros i _.
    assert (E : G i j = Rsum (S d') (fun k => F i k * nth k (col j XR) 0)).
    { unfold G. rewrite <- (map_nth_seq (col j XR)) at 1.
      rewrite Hcl. apply dot_seq. }
    now rewrite E.
  - intros k k' Hk Hk'. rewrite <- delta_decide. now apply Hcols.
Qed.

Lemma getStereoProjCodim1_lands_in_the_unit_ball_witness :
  exists S,
    getStereoProjCodim1 example_externals
      [[Fin 1; Fin 0]; [Fin 0; Fin 1]; [Fin (3 / 5); Fin (4 / 5)]] = Ok S /\
    shape 3 1 S /\
    Forall (fun row => exists r, row = map Fin r /\ dot r r <= 1) S.
Proof.
  apply (getStereoProjCodim1_lands_in_the_unit_ball example_externals
           [[Fin 1; Fin 0]; [Fin 0; Fin 1]; [Fin (3 / 5); Fin (4 / 5)]]
           3 1 [1; 0] (identity_matrix 2)).
  - lia.
  - split; [reflexivity | repeat constructor].
  - repeat constructor; apply fnorm_unit; simpl; f_equal; lra.
  - reflexivity.
  - reflexivity.
  - reflexivity.
  - unfold dot. simpl. lra.
Defined.
